(** * Overtone Analyzer: band analysis, spectrum estimation and decoding

    A shallow embedding of [overtone_analyzer.py].

    Numeric model.  A finite float64 is a rational number, so array elements
    are values of [Q]; the arithmetic the program performs on them is taken
    exactly (no rounding, no overflow), and nan and inf are not represented.
    Where nan and the infinities are the subject, the band summary is
    embedded a second time over floats that have them (module [F64]), and
    the band edges of the command line are such floats.  The installed
    NumPy is one that has [np.trapezoid].
    Python exceptions are values of [Py.exn] threaded through an error monad.
    Results that are numbers are compared with [==] ([Qeq]). *)

From Stdlib Require Import List Bool Arith ZArith QArith Qround Qabs Lia Lqa FinFun Sorted.
From Stdlib Require Strings.Byte Strings.String Strings.Ascii Numbers.DecimalString.
Import ListNotations.
Close Scope Q_scope.

(* ------------------------------------------------------------------ *)
(** ** Python layer: exceptions and float division *)

Module Py.

Inductive exn : Type :=
| IndexError
| ValueError
| ZeroDivisionError
| ImportError
| RuntimeError
| SystemExit
| AttributeError
| OverflowError.

Inductive result (A : Type) : Type :=
| Ok (a : A)
| Raise (e : exn).

Arguments Ok {A} a.
Arguments Raise {A} e.

Definition bind {A B : Type} (c : result A) (k : A -> result B) : result B :=
  match c with
  | Ok a => k a
  | Raise e => Raise e
  end.

(** [try: c except Exception: h] *)
Definition try_except {A : Type} (c : result A) (h : exn -> result A) : result A :=
  match c with
  | Ok a => Ok a
  | Raise e => h e
  end.

Fixpoint mapM {A B : Type} (k : A -> result B) (l : list A) : result (list B) :=
  match l with
  | [] => Ok []
  | a :: l' =>
      bind (k a) (fun b => bind (mapM k l') (fun bs => Ok (b :: bs)))
  end.

(** [a / b] on Python floats: a zero divisor raises. *)
Definition truediv (a b : Q) : result Q :=
  if Qeq_bool b 0 then Raise ZeroDivisionError else Ok (a / b)%Q.

(** [int(x)] on a float: truncation toward zero. *)
Definition int (x : Q) : Z := Z.quot (Qnum x) (Zpos (Qden x)).

End Py.

Import Py.

Notation "x <- c ;; k" := (Py.bind c (fun x => k))
  (at level 61, c at next level, right associativity).

(* ------------------------------------------------------------------ *)
(** ** The numpy operations the analyzer uses *)

Module Np.

(** [a >= c], [a < c], [a <= c] on floats. *)
Definition geb (a c : Q) : bool := Qle_bool c a.
Definition ltb (a c : Q) : bool := negb (Qle_bool c a).
Definition leb (a c : Q) : bool := Qle_bool a c.

(** [np.where(mask)[0]]: the positions of the true entries, ascending. *)
Fixpoint where_from (i : nat) (mask : list bool) : list nat :=
  match mask with
  | [] => []
  | b :: mask' =>
      if b then i :: where_from (S i) mask' else where_from (S i) mask'
  end.

Definition where_ (mask : list bool) : list nat := where_from 0 mask.

(** [a[i]] for one integer index. *)
Definition item (a : list Q) (i : nat) : result Q :=
  match nth_error a i with
  | Some v => Ok v
  | None => Raise IndexError
  end.

(** [a[idx]] for an integer index array: an index past the end raises. *)
Definition take (a : list Q) (idx : list nat) : result (list Q) :=
  mapM (item a) idx.

Fixpoint compress_aux (mask : list bool) (a : list Q) : list Q :=
  match mask, a with
  | b :: mask', v :: a' =>
      if b then v :: compress_aux mask' a' else compress_aux mask' a'
  | _, _ => []
  end.

(** [a[mask]] for a boolean mask: the lengths must agree. *)
Definition compress (a : list Q) (mask : list bool) : result (list Q) :=
  if Nat.eqb (length mask) (length a)
  then Ok (compress_aux mask a)
  else Raise IndexError.

(** [np.trapezoid(y, x)]: the sum of [(x[i+1]-x[i]) * (y[i+1]+y[i]) / 2].
    Zero on fewer than two points.  The analyzer always passes two arrays
    gathered with one index set, so only equal lengths occur (lemma
    [take_length]). *)
Fixpoint trapezoid (y x : list Q) : Q :=
  match y, x with
  | y0 :: ((y1 :: _) as y'), x0 :: ((x1 :: _) as x') =>
      ((x1 - x0) * (y1 + y0) / 2 + trapezoid y' x')%Q
  | _, _ => 0%Q
  end.

Definition sum (a : list Q) : Q := fold_right Qplus 0%Q a.

(** [np.mean(a)].  On an empty array numpy yields nan, which the caller
    subtracts from no element; the value here is then immaterial. *)
Definition mean (a : list Q) : Q :=
  (sum a / inject_Z (Z.of_nat (length a)))%Q.

(** [a.max()]: raises on an empty array. *)
Definition amax (a : list Q) : result Q :=
  match a with
  | [] => Raise ValueError
  | v :: a' => Ok (fold_left (fun m x => if ltb m x then x else m) a' v)
  end.

Fixpoint argmax_from (best : Q) (bi i : nat) (a : list Q) : nat :=
  match a with
  | [] => bi
  | x :: a' =>
      if ltb best x
      then argmax_from x i (S i) a'
      else argmax_from best bi (S i) a'
  end.

(** [np.argmax(a)]: the first position of the maximum. *)
Definition argmax (a : list Q) : result nat :=
  match a with
  | [] => Raise ValueError
  | v :: a' => Ok (argmax_from v 0 1 a')
  end.

(** [np.fft.rfftfreq(n, d)]: [arange(0, n//2 + 1) * (1.0 / (n * d))]. *)
Definition rfftfreq (n : nat) (d : Q) : list Q :=
  let val := (1 / (inject_Z (Z.of_nat n) * d))%Q in
  map (fun k => (inject_Z (Z.of_nat k) * val)%Q) (seq 0 (n / 2 + 1)).

End Np.

(* ------------------------------------------------------------------ *)
(** ** BandAnalyzer: [band_energy], [summarize_bands], [estimate_fundamental] *)

Definition band_mask (f : list Q) (f_lo f_hi : Q) : list bool :=
  map (fun x => Np.geb x f_lo && Np.ltb x f_hi) f.

(** [idx = np.where((f >= f_lo) & (f < f_hi))[0]] *)
Definition band_idx (f : list Q) (f_lo f_hi : Q) : list nat :=
  Np.where_ (band_mask f f_lo f_hi).

Definition band_energy (f Pxx : list Q) (f_lo f_hi : Q) : result Q :=
  let idx := band_idx f f_lo f_hi in
  if Nat.eqb (length idx) 0 then Ok 0%Q
  else
    p <- Np.take Pxx idx ;;
    x <- Np.take f idx ;;
    Ok (Np.trapezoid p x).

(** The text of a band name is kept as its variable parts: the two numbers
    printed in the Overtones label. *)
Inductive band_name : Type :=
| Bass_60_250
| Formant_400_1500
| Overtones (a b : Z).

Record band_row : Type := mk_row {
  band : band_name;
  lo_hz : Q;
  hi_hz : Q;
  energy : Q;
  pct : Q
}.

Definition epsilon : Q := (1 # 1000000000000)%Q.

Definition band_defs (air_lo air_hi : Q) : list (band_name * Q * Q) :=
  [ (Bass_60_250, 60%Q, 250%Q);
    (Formant_400_1500, 400%Q, 1500%Q);
    (if Np.geb air_lo 1000
     then Overtones (Py.int (air_lo / 1000)) (Py.int (air_hi / 1000))
     else Overtones (Py.int air_lo) (Py.int (air_hi / 1000)),
     air_lo, air_hi) ].

(** The trapezoidal integral over the samples at 20 Hz and above. *)
Definition raw_total (f Pxx : list Q) : result Q :=
  let mask := map (fun x => Np.geb x 20) f in
  p <- Np.compress Pxx mask ;;
  x <- Np.compress f mask ;;
  Ok (Np.trapezoid p x).

Definition summarize_bands (f Pxx : list Q) (air_lo air_hi : Q)
  : result (list band_row * Q * list (band_name * Q * Q)) :=
  t <- raw_total f Pxx ;;
  let total := if Np.leb t 0 then epsilon else t in
  let bands := band_defs air_lo air_hi in
  out <- mapM (fun b : band_name * Q * Q =>
                 let '(name, lo, hi) := b in
                 e <- band_energy f Pxx lo hi ;;
                 pc <- Py.truediv (100 * e) total ;;
                 Ok (mk_row name lo hi e pc)) bands ;;
  Ok (out, total, bands).

Definition window_mask (f : list Q) (lo hi : Q) : list bool :=
  map (fun x => Np.geb x lo && Np.leb x hi) f.

Definition window_idx (f : list Q) (lo hi : Q) : list nat :=
  Np.where_ (window_mask f lo hi).

Definition estimate_fundamental (f Pxx : list Q) (lo hi : Q)
  : result (option Q) :=
  let idx := window_idx f lo hi in
  if Nat.eqb (length idx) 0 then Ok None
  else
    sub_f <- Np.take f idx ;;
    sub_p <- Np.take Pxx idx ;;
    m <- Np.amax sub_p ;;
    if Np.leb m 0 then Ok None
    else
      k <- Np.argmax sub_p ;;
      v <- Np.item sub_f k ;;
      Ok (Some v).

Definition default_lo : Q := 60.
Definition default_hi : Q := 300.

(* ------------------------------------------------------------------ *)
(** ** The band summary over floats with infinities and nan

    Where the question is whether a result is finite, a float64 is one
    of: a finite value, given by the rational it denotes; plus or minus
    infinity; nan.  An operation on finite values is taken exactly when
    the exact result is in range and gives an infinity when it is not;
    rounding inside the range and the sign of zero are not modelled.
    [band_energy] and [summarize_bands] are embedded a second time over
    these values. *)

Module F64.

Inductive float : Type :=
| Fin (q : Q)
| Inf (negative : bool)
| NaN.

(** The least magnitude that rounds to an infinity: [2^1024 - 2^970]. *)
Definition huge : Q := inject_Z (2 ^ 1024 - 2 ^ 970).

(** A bound far inside the range: [2^500].  Sums and products of a few
    values below it stay in range. *)
Definition moderate : Q := inject_Z (2 ^ 500).

Definition is_neg (q : Q) : bool := negb (Qle_bool 0 q).

Definition round (q : Q) : float :=
  if Qle_bool huge (Qabs q) then Inf (is_neg q) else Fin q.

Definition is_finite (a : float) : bool :=
  match a with Fin _ => true | _ => false end.

Definition add (a b : float) : float :=
  match a, b with
  | Fin p, Fin q => round (p + q)
  | Fin _, Inf s => Inf s
  | Inf s, Fin _ => Inf s
  | Inf s, Inf s' => if Bool.eqb s s' then Inf s else NaN
  | _, _ => NaN
  end.

Definition sub (a b : float) : float :=
  match a, b with
  | Fin p, Fin q => round (p - q)
  | Fin _, Inf s => Inf (negb s)
  | Inf s, Fin _ => Inf s
  | Inf s, Inf s' => if Bool.eqb s s' then NaN else Inf s
  | _, _ => NaN
  end.

Definition mul (a b : float) : float :=
  match a, b with
  | Fin p, Fin q => round (p * q)
  | Fin p, Inf s => if Qeq_bool p 0 then NaN else Inf (xorb s (is_neg p))
  | Inf s, Fin p => if Qeq_bool p 0 then NaN else Inf (xorb s (is_neg p))
  | Inf s, Inf s' => Inf (xorb s s')
  | _, _ => NaN
  end.

(** [a / 2.0] and [a / 1000]: a division by a constant above 1 cannot
    leave the range. *)
Definition half (a : float) : float :=
  match a with Fin p => Fin (p / 2) | _ => a end.

Definition div1000 (a : float) : float :=
  match a with Fin p => Fin (p / 1000) | _ => a end.

(** [a / b] on Python floats: a zero divisor raises. *)
Definition truediv (a b : float) : result float :=
  match b with
  | Fin q =>
      if Qeq_bool q 0 then Raise ZeroDivisionError
      else Ok match a with
              | Fin p => round (p / q)
              | Inf s => Inf (xorb s (is_neg q))
              | NaN => NaN
              end
  | Inf _ => Ok match a with Fin _ => Fin 0 | _ => NaN end
  | NaN => Ok NaN
  end.

(** [a <= b] and [a < b]; a comparison with nan is false. *)
Definition leb (a b : float) : bool :=
  match a, b with
  | Fin p, Fin q => Qle_bool p q
  | Fin _, Inf s => negb s
  | Inf s, Fin _ => s
  | Inf s, Inf s' => s || negb s'
  | _, _ => false
  end.

Definition ltb (a b : float) : bool :=
  match a, b with
  | Fin p, Fin q => negb (Qle_bool q p)
  | Fin _, Inf s => negb s
  | Inf s, Fin _ => s
  | Inf s, Inf s' => s && negb s'
  | _, _ => false
  end.

Definition geb (a b : float) : bool := leb b a.

(** [int(a)]: nan and the infinities are refused. *)
Definition int (a : float) : result Z :=
  match a with
  | Fin q => Ok (Py.int q)
  | Inf _ => Raise OverflowError
  | NaN => Raise ValueError
  end.

Definition item (a : list float) (i : nat) : result float :=
  match nth_error a i with
  | Some v => Ok v
  | None => Raise IndexError
  end.

Definition take (a : list float) (idx : list nat) : result (list float) :=
  mapM (item a) idx.

Fixpoint compress_aux (mask : list bool) (a : list float) : list float :=
  match mask, a with
  | b :: mask', v :: a' =>
      if b then v :: compress_aux mask' a' else compress_aux mask' a'
  | _, _ => []
  end.

Definition compress (a : list float) (mask : list bool)
  : result (list float) :=
  if Nat.eqb (length mask) (length a)
  then Ok (compress_aux mask a)
  else Raise IndexError.

(** [np.trapezoid(y, x)]: [(d * (y[1:] + y[:-1]) / 2.0).sum()] with
    [d = diff(x)].  numpy adds the terms in blocks rather than one after
    the other; the statements made of this model do not depend on the
    order, because they hold for any value of the sum or concern a sum of
    one term, of zeros, or of non-negative terms whose total is in range,
    which every order adds without leaving the range. *)
Fixpoint trapezoid (y x : list float) : float :=
  match y, x with
  | y0 :: ((y1 :: _) as y'), x0 :: ((x1 :: _) as x') =>
      add (half (mul (sub x1 x0) (add y1 y0))) (trapezoid y' x')
  | _, _ => Fin 0
  end.

Definition band_idx (f : list float) (f_lo f_hi : float) : list nat :=
  Np.where_ (map (fun x => geb x f_lo && ltb x f_hi) f).

Definition band_energy (f Pxx : list float) (f_lo f_hi : float)
  : result float :=
  let idx := band_idx f f_lo f_hi in
  if Nat.eqb (length idx) 0 then Ok (Fin 0)
  else
    p <- take Pxx idx ;;
    x <- take f idx ;;
    Ok (trapezoid p x).

Record band_row : Type := mk_row {
  band : band_name;
  lo_hz : float;
  hi_hz : float;
  energy : float;
  pct : float
}.

(** The label of the third band; the conversions to [int] are where
    an edge that is nan or infinite is refused. *)
Definition overtones_name (air_lo air_hi : float) : result band_name :=
  if geb air_lo (Fin 1000)
  then a <- int (div1000 air_lo) ;;
       b <- int (div1000 air_hi) ;;
       Ok (Overtones a b)
  else a <- int air_lo ;;
       b <- int (div1000 air_hi) ;;
       Ok (Overtones a b).

Definition band_defs (air_lo air_hi : float)
  : result (list (band_name * float * float)) :=
  name <- overtones_name air_lo air_hi ;;
  Ok [ (Bass_60_250, Fin 60, Fin 250);
       (Formant_400_1500, Fin 400, Fin 1500);
       (name, air_lo, air_hi) ].

Definition raw_total (f Pxx : list float) : result float :=
  let mask := map (fun x => geb x (Fin 20)) f in
  p <- compress Pxx mask ;;
  x <- compress f mask ;;
  Ok (trapezoid p x).

Definition summarize_bands (f Pxx : list float) (air_lo air_hi : float)
  : result (list band_row * float * list (band_name * float * float)) :=
  t <- raw_total f Pxx ;;
  let total := if leb t (Fin 0) then Fin epsilon else t in
  bands <- band_defs air_lo air_hi ;;
  out <- mapM (fun b : band_name * float * float =>
                 let '(name, lo, hi) := b in
                 e <- band_energy f Pxx lo hi ;;
                 pc <- truediv (mul (Fin 100) e) total ;;
                 Ok (mk_row name lo hi e pc)) bands ;;
  Ok (out, total, bands).

End F64.

(* ------------------------------------------------------------------ *)
(** ** SpectrumEstimator: [compute_psd] *)

Module Estimator.

Inductive window_kind : Type := Hann | Boxcar.
Inductive detrend_kind : Type := Constant | Linear | NoDetrend.
Inductive scaling_kind : Type := Density | Spectrum.

(** The keyword arguments of one call of [scipy.signal.welch]. *)
Record welch_args : Type := mk_welch {
  x : list Q;
  fs : Z;
  window : window_kind;
  nperseg : Z;
  noverlap : Z;
  detrend : detrend_kind;
  scaling : scaling_kind
}.

(** The numeric routines of scipy and numpy that [compute_psd] calls and
    that are not rational functions of their input.  [welch] stands for
    the import of [scipy.signal.welch] followed by the call: it raises
    when scipy is missing or rejects its arguments.  [hanning n] has [n]
    entries and [rfft a n] has [n / 2 + 1] complex entries, given as
    (real, imaginary) pairs. *)
Record numlib : Type := mk_numlib {
  welch : welch_args -> result (list Q * list Q);
  hanning : nat -> list Q;
  rfft : list Q -> nat -> list (Q * Q)
}.

(** [n_fft = 1; while n_fft < n: n_fft <<= 1], the loop unrolled [fuel]
    times. *)
Fixpoint pad_loop (fuel : nat) (n_fft n : nat) : nat :=
  match fuel with
  | O => n_fft
  | S fuel' =>
      if Nat.ltb n_fft n then pad_loop fuel' (Nat.shiftl n_fft 1) n
      else n_fft
  end.

Definition next_pow2 (n : nat) : nat := pad_loop n 1 n.

(** Elementwise product of two arrays of one length. *)
Fixpoint mul (a b : list Q) : list Q :=
  match a, b with
  | u :: a', v :: b' => (u * v)%Q :: mul a' b'
  | _, _ => []
  end.

(** [np.abs(c) ** 2] of a complex number. *)
Definition abs2 (c : Q * Q) : Q := (fst c * fst c + snd c * snd c)%Q.

(** [np.sum(win**2) * sr] *)
Definition fallback_divisor (win : list Q) (sr : Z) : Q :=
  (Np.sum (map (fun w => w * w) win) * inject_Z sr)%Q.

(** [np.abs(Y) ** 2] for [Y = rfft(y[:n] * win, n=n_fft)] *)
Definition fallback_numerators (lib : numlib) (y : list Q) : list Q :=
  let n := length y in
  let n_fft := next_pow2 n in
  let win := hanning lib n in
  map abs2 (rfft lib (mul (firstn n y) win) n_fft).

(** The body of the [except] branch; [y] is already mean-removed.  The
    array division is numpy's and never raises: where the divisor is zero
    numpy stores nan or inf, values outside this model. *)
Definition fallback (lib : numlib) (y : list Q) (sr : Z)
  : result (list Q * list Q) :=
  let n := length y in
  let n_fft := next_pow2 n in
  let win := hanning lib n in
  let Pxx := map (fun a => (a / fallback_divisor win sr)%Q)
                 (fallback_numerators lib y) in
  d <- Py.truediv 1 (inject_Z sr) ;;
  Ok (Np.rfftfreq n_fft d, Pxx).

Definition remove_mean (y : list Q) : list Q :=
  map (fun v => (v - Np.mean y)%Q) y.

Definition welch_call (y : list Q) (sr : Z) : welch_args :=
  let nperseg := Z.min (Z.of_nat (length y)) 8192 in
  let nperseg := Z.max nperseg 256 in
  mk_welch y sr Hann nperseg (nperseg / 2)%Z Constant Spectrum.

Definition compute_psd (lib : numlib) (y : list Q) (sr : Z)
  : result (list Q * list Q) :=
  let y := remove_mean y in
  Py.try_except (welch lib (welch_call y sr)) (fun _ => fallback lib y sr).

(** *** What scipy does with the segment arguments

    [scipy.signal.welch] checks its arguments before any arithmetic (in
    its helper [_spectral_helper]): an empty input returns empty arrays
    at once; [nperseg] below 1 is refused; a segment longer than the
    input is cut to the input length, with a warning; then an overlap
    that is not less than the segment length is refused with a
    [ValueError]. *)

Inductive welch_plan : Type :=
| EmptyInput
| Segments (seg overlap : Z).

Definition scipy_segments (a : welch_args) : result welch_plan :=
  let n := Z.of_nat (length (x a)) in
  if Z.eqb n 0 then Ok EmptyInput
  else if Z.ltb (nperseg a) 1 then Raise ValueError
  else
    let seg := if Z.ltb n (nperseg a) then n else nperseg a in
    if Z.leb seg (noverlap a) then Raise ValueError
    else Ok (Segments seg (noverlap a)).

(** [welch] of an installed scipy: the checks, then the estimate proper,
    [core], on the segment length the checks settled. *)
Definition scipy_welch (core : welch_args -> result (list Q * list Q))
                       (a : welch_args) : result (list Q * list Q) :=
  plan <- scipy_segments a ;;
  match plan with
  | EmptyInput => Ok ([], [])
  | Segments seg overlap =>
      core (mk_welch (x a) (fs a) (window a) seg overlap
                     (detrend a) (scaling a))
  end.

Definition with_scipy (core : welch_args -> result (list Q * list Q))
                      (lib : numlib) : numlib :=
  mk_numlib (scipy_welch core) (hanning lib) (rfft lib).

(** *** A reference instance for small inputs

    Without scipy, and with numpy's values where they are rational:
    [np.hanning(M)] is [0.5 - 0.5*cos(2*pi*k/(M-1))], rational for
    [M <= 4]; the discrete Fourier transform of length 1, 2 or 4 has
    twiddle factors among 1, -i, -1, i.  Outside these sizes the entries
    are zero placeholders that no statement below relies on. *)

Definition hanning_small (M : nat) : list Q :=
  match M with
  | 0 => []
  | 1 => [1%Q]
  | 2 => [0%Q; 0%Q]
  | 3 => [0%Q; 1%Q; 0%Q]
  | 4 => [0%Q; (3 # 4)%Q; (3 # 4)%Q; 0%Q]
  | _ => repeat 0%Q M
  end.

(** [(-i) ^ m] *)
Definition quarter_turn (m : nat) : Q * Q :=
  match Nat.modulo m 4 with
  | 0 => (1%Q, 0%Q)
  | 1 => (0%Q, (-1)%Q)
  | 2 => ((-1)%Q, 0%Q)
  | _ => (0%Q, 1%Q)
  end.

Fixpoint dft_bin (step k j : nat) (a : list Q) : Q * Q :=
  match a with
  | [] => (0%Q, 0%Q)
  | v :: a' =>
      let w := quarter_turn (step * j * k) in
      let r := dft_bin step k (S j) a' in
      ((v * fst w + fst r)%Q, (v * snd w + snd r)%Q)
  end.

(** Truncate or zero-pad to length [n], as [rfft(a, n=n)] does. *)
Definition fit (n : nat) (a : list Q) : list Q :=
  firstn n a ++ repeat 0%Q (n - length a).

Definition rfft_small (a : list Q) (n : nat) : list (Q * Q) :=
  match n with
  | 1 | 2 | 4 => map (fun k => dft_bin (4 / n) k 0 (fit n a)) (seq 0 (n / 2 + 1))
  | _ => repeat (0%Q, 0%Q) (n / 2 + 1)
  end.

Definition numpy_small : numlib :=
  mk_numlib (fun _ => Raise ImportError) hanning_small rfft_small.

End Estimator.

(* ------------------------------------------------------------------ *)
(** ** AudioLoader: the scipy tier and the [wave] tier of [read_audio] *)

Module Loader.

Inductive int_dtype : Type := UInt8 | Int16 | Int32 | Int64.

(** [np.iinfo(dtype).max] *)
Definition iinfo_max (dt : int_dtype) : Z :=
  match dt with
  | UInt8 => 255
  | Int16 => 32767
  | Int32 => 2147483647
  | Int64 => 9223372036854775807
  end.

(** A one- or two-dimensional array; the rows of [A2] are the frames. *)
Inductive array (A : Type) : Type :=
| A1 (data : list A)
| A2 (rows : list (list A)).

Arguments A1 {A} data.
Arguments A2 {A} rows.

(** What [scipy.io.wavfile.read] hands back besides the rate. *)
Inductive wav_data : Type :=
| IntData (dt : int_dtype) (a : array Z)
| FloatData (a : array Q).

Definition amap {A B : Type} (g : A -> B) (a : array A) : array B :=
  match a with
  | A1 d => A1 (map g d)
  | A2 r => A2 (map (map g) r)
  end.

(** [if y.ndim > 1: y = y.mean(axis=1)] *)
Definition to_mono (a : array Q) : list Q :=
  match a with
  | A1 d => d
  | A2 r => map Np.mean r
  end.

(** Tier 1, after [y, sr = sf.read(path, always_2d=False)]. *)
Definition soundfile_tier (y : array Q) (sr : Z) : list Q * Z :=
  (to_mono y, sr).

(** Tier 2, after [sr, y = wavfile.read(path)]. *)
Definition scipy_tier (sr : Z) (y : wav_data) : list Q * Z :=
  let y' :=
    match y with
    | IntData dt a =>
        let max_int := iinfo_max dt in
        amap (fun s => (inject_Z s / inject_Z max_int)%Q) a
    | FloatData a => a
    end in
  (to_mono y', sr).

(** [a.reshape(-1, k)]: rows of [k] entries; raises when the size is not
    a multiple of [k].  [fuel] bounds the number of rows. *)
Fixpoint reshape_rows {A : Type} (fuel k : nat) (a : list A)
  : result (list (list A)) :=
  match a with
  | [] => Ok []
  | _ :: _ =>
      match fuel with
      | O => Raise ValueError
      | S fuel' =>
          if Nat.ltb (length a) k then Raise ValueError
          else
            rest <- reshape_rows fuel' k (skipn k a) ;;
            Ok (firstn k a :: rest)
      end
  end.

Definition reshape {A : Type} (k : nat) (a : list A)
  : result (list (list A)) :=
  if Nat.eqb k 0 then Raise ValueError else reshape_rows (length a) k a.

Definition byte_val (b : Init.Byte.byte) : Z :=
  Z.of_N (Strings.Byte.to_N b).

(** The unsigned little-endian value of a group of bytes. *)
Fixpoint le_uint (bs : list Init.Byte.byte) : Z :=
  match bs with
  | [] => 0
  | b :: bs' => (byte_val b + 256 * le_uint bs')%Z
  end.

(** Reading a [w]-bit pattern as a two's complement integer. *)
Definition signed (w : Z) (u : Z) : Z :=
  if Z.ltb u (2 ^ (w - 1)) then u else (u - 2 ^ w)%Z.

(** [np.frombuffer(raw, dtype)] for an element of [k] bytes, as unsigned
    values: a buffer whose size is no multiple of [k] raises. *)
Definition frombuffer (k : nat) (raw : list Init.Byte.byte)
  : result (list Z) :=
  rows <- reshape k raw ;; Ok (map le_uint rows).

Definition frombuffer_int16 (raw : list Init.Byte.byte) : result (list Z) :=
  u <- frombuffer 2 raw ;; Ok (map (signed 16) u).

(** The 24-bit branch, for one row [a0, a1, a2] of the byte matrix: the
    three bytes are assembled in uint32 and the sign bit is extended by
    or-ing [0xFF000000 * (mask > 0)].  That product, a Python int by a
    boolean array, is an int64 array, so the or widens [b] to int64; its
    values are non-negative and below 2^32. *)
Definition assemble24 (row : list Z) : Z :=
  let b := Z.lor (nth 0 row 0%Z)
             (Z.lor (Z.shiftl (nth 1 row 0%Z) 8)
                    (Z.shiftl (nth 2 row 0%Z) 16)) in
  let mask := Z.land b 8388608 in
  Z.lor b (4278190080 * (if Z.ltb 0 mask then 1 else 0)).

(** [b.view(np.int32)] on an int64 array: the bytes are reinterpreted, so
    every element gives two int32 words, the low one first (the byte
    order of the machines numpy runs on here is little-endian). *)
Definition view_int32 (b : list Z) : list Z :=
  flat_map (fun v => [signed 32 (v mod 2 ^ 32);
                      signed 32 ((v / 2 ^ 32) mod 2 ^ 32)]%Z) b.

Definition decode_width (sampwidth : nat) (raw : list Init.Byte.byte)
  : result (list Q) :=
  match sampwidth with
  | 1 =>
      u <- frombuffer 1 raw ;;
      Ok (map (fun v => ((inject_Z v - 128) / 128)%Q) u)
  | 2 =>
      s <- frombuffer_int16 raw ;;
      Ok (map (fun v => (inject_Z v / 32768)%Q) s)
  | 3 =>
      u <- frombuffer 1 raw ;;
      a <- reshape 3 u ;;
      let b := map assemble24 a in
      Ok (map (fun v => (inject_Z v / 8388608)%Q) (view_int32 b))
  | 4 =>
      u <- frombuffer 4 raw ;;
      Ok (map (fun v => (inject_Z (signed 32 v) / 2147483648)%Q) u)
  | _ => Raise RuntimeError
  end.

(** Tier 3, after the frames were read with [wave].  Every exception
    becomes the [RuntimeError] of the handler. *)
Definition wave_tier (n_channels sampwidth : nat) (sr : Z)
                     (raw : list Init.Byte.byte) : result (list Q * Z) :=
  Py.try_except
    (data <- decode_width sampwidth raw ;;
     if Nat.ltb 1 n_channels
     then rows <- reshape n_channels data ;; Ok (map Np.mean rows, sr)
     else Ok (data, sr))
    (fun _ => Raise RuntimeError).

(** What the three libraries report for one file. *)
Record file_io : Type := mk_io {
  sf_read : result (array Q * Z);
  wavfile_read : result (Z * wav_data);
  wave_open : result (nat * nat * Z * list Init.Byte.byte)
}.

Definition read_audio (io : file_io) : result (list Q * Z) :=
  Py.try_except
    (r <- sf_read io ;; let '(y, sr) := r in Ok (soundfile_tier y sr))
    (fun _ =>
       Py.try_except
         (r <- wavfile_read io ;; let '(sr, y) := r in Ok (scipy_tier sr y))
         (fun _ =>
            Py.try_except
              (r <- wave_open io ;;
               let '(n_channels, sampwidth, sr, raw) := r in
               wave_tier n_channels sampwidth sr raw)
              (fun _ => Raise RuntimeError))).

(** The array scipy's reader returns for a 16-bit file whose data chunk
    holds the interleaved samples [ints]: a vector for one channel,
    frames by channels otherwise. *)
Definition scipy_int16 (n_channels : nat) (ints : list Z)
  : result wav_data :=
  if Nat.ltb 1 n_channels
  then rows <- reshape n_channels ints ;; Ok (IntData Int16 (A2 rows))
  else Ok (IntData Int16 (A1 ints)).

(** Root of the mean squared difference, compared through its square:
    [rms a b <= t] for [t >= 0] is [mean_sq_diff a b <= t * t]. *)
Definition mean_sq_diff (a b : list Q) : Q :=
  Np.mean (map (fun p : Q * Q => ((fst p - snd p) * (fst p - snd p))%Q)
               (combine a b)).

End Loader.


(* ------------------------------------------------------------------ *)
(** ** The pipeline of [main] *)

Module Pipeline.

Import Estimator Loader.

(** The steps of a run that the properties below observe. *)
Inductive event : Type :=
| PrintFileNotFound
| CallReadAudio
| CallComputePsd (y : list Q) (sr : Z)
| CallSummarizeBands
| CallEstimateFundamental
| PrintReport.

(** A computation that logs events and may raise. *)
Definition run (A : Type) : Type := (list event * result A)%type.

Definition ret {A : Type} (a : A) : run A := ([], Ok a).

Definition seq_run {A B : Type} (c : run A) (k : A -> run B) : run B :=
  match c with
  | (t, Ok a) => let '(t', r) := k a in (t ++ t', r)
  | (t, Raise e) => (t, Raise e)
  end.

Definition call {A : Type} (ev : event) (c : result A) : run A := ([ev], c).

Definition lift {A : Type} (c : result A) : run A := ([], c).

(** The parsed command line.  [--air-low] and [--air-high] are read with
    [float], which accepts nan and the infinities; [--decimals] is read
    with [int], negative numbers included. *)
Record arguments : Type := mk_args {
  air_low : F64.float;
  air_high : F64.float;
  decimals : Z;
  save : bool
}.

Record report : Type := mk_report {
  sample_rate : Z;
  duration_sec : Q;
  estimated_fundamental_hz : option Q;
  bands : list band_row;
  total_power : Q
}.

(** [summarize_bands] on the band edges of the command line.  With two
    finite edges it is the function above.  With an edge that is nan or
    infinite the total is computed first, and then the band label, which
    converts the edges with [int], raises (always, in this case). *)
Definition summarize_bands_args (f Pxx : list Q) (air_lo air_hi : F64.float)
  : result (list band_row * Q * list (band_name * Q * Q)) :=
  match air_lo, air_hi with
  | F64.Fin lo, F64.Fin hi => summarize_bands f Pxx lo hi
  | _, _ =>
      _ <- raw_total f Pxx ;;
      _ <- F64.overtones_name air_lo air_hi ;;
      Raise ValueError
  end.

(** The printed report.  Each band line is formatted with
    [.{decimals}f]; Python refuses a negative precision and one above
    the largest C int with a [ValueError], at the first band line.  The
    memory a very long line takes is not modelled. *)
Definition print_report (decimals : Z) (band_rows : list band_row)
  : result unit :=
  match band_rows with
  | [] => Ok tt
  | _ :: _ =>
      if Z.ltb decimals 0 || Z.ltb 2147483647 decimals
      then Raise ValueError
      else Ok tt
  end.

(** [main] up to the end of the report.  The files written under
    [--save] come after it and are not modelled. *)
Definition main (lib : numlib) (path_exists : bool) (io : file_io)
                (args : arguments) : run report :=
  if negb path_exists
  then call PrintFileNotFound (Raise SystemExit)
  else
    seq_run (call CallReadAudio (read_audio io)) (fun r =>
    let '(y, sr) := r in
    seq_run (lift (Py.truediv (inject_Z (Z.of_nat (length y))) (inject_Z sr)))
      (fun duration =>
    seq_run (call (CallComputePsd y sr) (compute_psd lib y sr)) (fun s =>
    let '(f, Pxx) := s in
    seq_run (call CallSummarizeBands
               (summarize_bands_args f Pxx (air_low args) (air_high args)))
      (fun b =>
    let '(band_rows, total, _) := b in
    seq_run (call CallEstimateFundamental
               (estimate_fundamental f Pxx default_lo default_hi))
      (fun f0 =>
    seq_run (call PrintReport (print_report (decimals args) band_rows))
      (fun _ =>
    ret (mk_report sr duration f0 band_rows total))))))).

End Pipeline.


(* ------------------------------------------------------------------ *)
(** ** The earlier variant, [overtone_analyzer_backup.py] *)

Module Backup.

Import Estimator.

(** [compute_psd] of the earlier file: the floor of the segment length is
    an [if], and the fallback follows the [try] instead of sitting in its
    handler. *)
Definition compute_psd (lib : numlib) (y : list Q) (sr : Z)
  : result (list Q * list Q) :=
  let y := remove_mean y in
  let nperseg := Z.min (Z.of_nat (length y)) 8192 in
  let nperseg := if Z.ltb nperseg 256 then 256%Z else nperseg in
  match welch lib (mk_welch y sr Hann nperseg (nperseg / 2)%Z Constant Spectrum) with
  | Ok r => Ok r
  | Raise _ => fallback lib y sr
  end.

(** The earlier file integrates with [np.trapz], the name [np.trapezoid]
    had before NumPy renamed it; later releases no longer have the old
    name, and looking it up raises.  [has_trapz] says whether the
    installed NumPy still provides it.  The lookup comes before the
    arguments of the call are evaluated. *)
Definition np_trapz (has_trapz : bool) : result (list Q -> list Q -> Q) :=
  if has_trapz then Ok Np.trapezoid else Raise AttributeError.

(** [band_energy] of the earlier file. *)
Definition band_energy (has_trapz : bool) (f Pxx : list Q) (f_lo f_hi : Q)
  : result Q :=
  let idx := band_idx f f_lo f_hi in
  if Nat.eqb (length idx) 0 then Ok 0%Q
  else
    trapz <- np_trapz has_trapz ;;
    p <- Np.take Pxx idx ;;
    x <- Np.take f idx ;;
    Ok (trapz p x).

(** [summarize_bands] of the earlier file: no band arguments, the third
    band fixed at 3000-8000 Hz, and a pair as result. *)
Definition summarize_bands (has_trapz : bool) (f Pxx : list Q)
  : result (list band_row * Q) :=
  trapz <- np_trapz has_trapz ;;
  let mask := map (fun x => Np.geb x 20) f in
  p <- Np.compress Pxx mask ;;
  x <- Np.compress f mask ;;
  let t := trapz p x in
  let total := if Np.leb t 0 then epsilon else t in
  let bands := [ (Bass_60_250, 60%Q, 250%Q);
                 (Formant_400_1500, 400%Q, 1500%Q);
                 (Overtones 3 8, 3000%Q, 8000%Q) ] in
  out <- mapM (fun b : band_name * Q * Q =>
                 let '(name, lo, hi) := b in
                 e <- band_energy has_trapz f Pxx lo hi ;;
                 pc <- Py.truediv (100 * e) total ;;
                 Ok (mk_row name lo hi e pc)) bands ;;
  Ok (out, total).

End Backup.

(* ------------------------------------------------------------------ *)
(** ** The spectrum table: [save_csv] and [read_csv] of [compare_spectra.py] *)

Module Csv.

Import Strings.String.

(** The rows handed to [csv.writer]: a header, then one row per pair of
    [zip(f, Pxx)].  [show] is the text of a float. *)
Definition save_csv (show : Q -> string) (f Pxx : list Q) : list (list string) :=
  ["freq_hz"%string; "power"%string]
    :: map (fun p : Q * Q => [show (fst p); show (snd p)]) (combine f Pxx).

(** One turn of the loop of [read_csv]: a row of fewer than two cells is
    skipped; the first cell is converted and appended to [f] before the
    second is converted, and a failed conversion abandons the row.
    [parse] is [float] on a string. *)
Definition read_row (parse : string -> option Q) (acc : list Q * list Q)
                    (row : list string) : list Q * list Q :=
  match row with
  | c0 :: c1 :: _ =>
      match parse c0 with
      | None => acc
      | Some x =>
          match parse c1 with
          | None => (fst acc ++ [x], snd acc)
          | Some y => (fst acc ++ [x], snd acc ++ [y])
          end
      end
  | _ => acc
  end.

(** [read_csv]: the first row, if any, is the header and is dropped. *)
Definition read_csv (parse : string -> option Q) (rows : list (list string))
  : list Q * list Q :=
  fold_left (read_row parse) (tl rows) ([], []).

(** A row that contributes a frequency: two cells at least, the first
    convertible. *)
Definition gives_frequency (parse : string -> option Q) (row : list string)
  : bool :=
  match row with
  | c0 :: _ :: _ => match parse c0 with Some _ => true | None => false end
  | _ => false
  end.

(** A row that contributes a power value as well. *)
Definition gives_power (parse : string -> option Q) (row : list string)
  : bool :=
  match row with
  | c0 :: c1 :: _ =>
      match parse c0, parse c1 with
      | Some _, Some _ => true
      | _, _ => false
      end
  | _ => false
  end.

End Csv.

(* ------------------------------------------------------------------ *)
(** ** [compare_bands.py] *)

Module CompareBands.

Import Strings.String.
Local Open Scope string_scope.

(** [int] printed in an f-string. *)
Definition dec (z : Z) : string :=
  DecimalString.NilZero.string_of_int (Z.to_int z).

(** The band names [summarize_bands] writes. *)
Definition band_text (b : band_name) : string :=
  match b with
  | Bass_60_250 => "Bass 60–250 Hz"
  | Formant_400_1500 => "Formant 400–1500 Hz"
  | Overtones a b => "Overtones " ++ dec a ++ "–" ++ dec b ++ " kHz"
  end.

(** [pat in s] on strings. *)
Fixpoint contains (pat s : string) : bool :=
  prefix pat s ||
  match s with
  | EmptyString => false
  | String _ s' => contains pat s'
  end.

(** One entry of the ["bands"] list of a summary file; a field may be
    absent. *)
Record json_row : Type := mk_json_row {
  jband : option string;
  jpct : option Q
}.

Record band_table : Type := mk_table {
  t_bass : option Q;
  t_formant : option Q;
  t_overtones : option Q
}.

Definition load_step (out : band_table) (r : json_row) : band_table :=
  let name := match jband r with Some s => s | None => "" end in
  let pct := match jpct r with Some q => q | None => 0%Q end in
  if contains "Bass" name
  then mk_table (Some pct) (t_formant out) (t_overtones out)
  else if contains "Formant" name
  then mk_table (t_bass out) (Some pct) (t_overtones out)
  else if contains "Overtones" name
  then mk_table (t_bass out) (t_formant out) (Some pct)
  else out.

(** [load_bands], from the parsed ["bands"] list. *)
Definition load_bands (rows : list json_row) : band_table :=
  fold_left load_step rows (mk_table None None None).

Definition row_name (r : json_row) : string :=
  match jband r with Some s => s | None => "" end.

Definition row_pct (r : json_row) : Q :=
  match jpct r with Some q => q | None => 0%Q end.

(** The branch of the [if]/[elif] chain a row takes. *)
Definition is_bass (r : json_row) : bool := contains "Bass" (row_name r).

Definition is_formant (r : json_row) : bool :=
  negb (contains "Bass" (row_name r)) && contains "Formant" (row_name r).

Definition is_overtones (r : json_row) : bool :=
  negb (contains "Bass" (row_name r))
  && negb (contains "Formant" (row_name r))
  && contains "Overtones" (row_name r).

(** [x or 0.0] *)
Definition or_zero (x : option Q) : Q :=
  match x with Some q => q | None => 0%Q end.

(** What the summary file of a run holds in its ["bands"] list. *)
Definition json_of_row (r : band_row) : json_row :=
  mk_json_row (Some (band_text (band r))) (Some (pct r)).

Record gathered : Type := mk_gathered {
  labels : list string;
  bass : list Q;
  form : list Q;
  overt : list Q;
  missing : list string
}.

(** The gathering loop over [FILES]; an entry is a label, a file name and,
    when the file exists, its ["bands"] list. *)
Definition gather_step (g : gathered)
                       (e : string * string * option (list json_row)) : gathered :=
  let '(label, fname, content) := e in
  match content with
  | Some rows =>
      let bands := load_bands rows in
      mk_gathered (labels g ++ [label])
                  (bass g ++ [or_zero (t_bass bands)])
                  (form g ++ [or_zero (t_formant bands)])
                  (overt g ++ [or_zero (t_overtones bands)])
                  (missing g)
  | None =>
      mk_gathered (labels g) (bass g) (form g) (overt g) (missing g ++ [fname])
  end.

(** [os.path.exists(fname)] for an entry. *)
Definition present (e : string * string * option (list json_row)) : bool :=
  match snd e with Some _ => true | None => false end.

Definition rows_of (e : string * string * option (list json_row))
  : list json_row :=
  match snd e with Some rows => rows | None => [] end.

(** The script up to the plot: it exits when files are missing and none
    was read. *)
Definition gather (files : list (string * string * option (list json_row)))
  : result gathered :=
  let g := fold_left gather_step files (mk_gathered [] [] [] [] []) in
  if negb (Nat.eqb (List.length (missing g)) 0)
     && Nat.eqb (List.length (labels g)) 0
  then Raise SystemExit
  else Ok g.

End CompareBands.

(* ------------------------------------------------------------------ *)
(** ** [compare_spectra.py] *)

Module CompareSpectra.

Import Strings.String.

(** [plt.semilogx(x, y)]: two arrays of different lengths are refused.
    The conversion [to_db] keeps the length of its argument, so the test is
    on the arrays [read_csv] returned. *)
Definition semilogx (x y : list Q) : result unit :=
  if Nat.eqb (List.length x) (List.length y) then Ok tt else Raise ValueError.

(** The loop over [FILES]: an existing file is read with [read_csv] and
    plotted when it yields at least one frequency.  An entry is a label
    and, when the file exists, its rows; the result lists what is plotted
    (before the conversion to dB). *)
Definition plot_step (parse : string -> option Q)
                     (acc : result (list (string * list Q * list Q)))
                     (e : string * option (list (list string)))
  : result (list (string * list Q * list Q)) :=
  plotted <- acc ;;
  match snd e with
  | Some rows =>
      let '(f, P) := Csv.read_csv parse rows in
      if Nat.ltb 0 (List.length f)
      then _ <- semilogx f P ;; Ok (plotted ++ [(fst e, f, P)])
      else Ok plotted
  | None => Ok plotted
  end.

(** The rows of an entry, none for a missing file, and what is drawn for
    it. *)
Definition rows_of (e : string * option (list (list string)))
  : list (list string) :=
  match snd e with Some rows => rows | None => [] end.

Definition curve (parse : string -> option Q)
                 (e : string * option (list (list string)))
  : string * list Q * list Q :=
  (fst e, fst (Csv.read_csv parse (rows_of e)),
          snd (Csv.read_csv parse (rows_of e))).

(** An entry that ends up in the figure. *)
Definition plottable (parse : string -> option Q)
                     (e : string * option (list (list string))) : bool :=
  Nat.ltb 0 (List.length (fst (Csv.read_csv parse (rows_of e)))).

(** An entry whose two arrays differ in length: some row gave a frequency
    and no power value. *)
Definition ragged (parse : string -> option Q)
                  (e : string * option (list (list string))) : bool :=
  negb (Nat.eqb (List.length (fst (Csv.read_csv parse (rows_of e))))
                (List.length (snd (Csv.read_csv parse (rows_of e))))).

(** The script up to the figure decorations: it exits when nothing was
    plotted. *)
Definition plot_all (parse : string -> option Q)
                    (files : list (string * option (list (list string))))
  : result (list (string * list Q * list Q)) :=
  plotted <- fold_left (plot_step parse) files (Ok []) ;;
  if Nat.eqb (List.length plotted) 0 then Raise SystemExit else Ok plotted.

End CompareSpectra.

(* ------------------------------------------------------------------ *)
(** ** [brighten.py]: the final normalization *)

Module Brighten.

(** [y_out /= (np.max(np.abs(y_out)) + 1e-12)]; the maximum of an empty
    array raises. *)
Definition normalize (y_out : list Q) : result (list Q) :=
  m <- Np.amax (map Qabs y_out) ;;
  Ok (map (fun v => (v / (m + epsilon))%Q) y_out).

End Brighten.

(* ------------------------------------------------------------------ *)
(** ** Vocabulary of the properties *)

Local Open Scope Q_scope.

(** The trapezoidal integral of a list of points. *)
Definition trap (l : list (Q * Q)) : Q :=
  Np.trapezoid (map snd l) (map fst l).

Definition in_band (lo hi : Q) (p : Q * Q) : bool :=
  Np.geb (fst p) lo && Np.ltb (fst p) hi.

Definition at_least (t : Q) (p : Q * Q) : bool := Np.geb (fst p) t.

Definition below (t : Q) (p : Q * Q) : bool := Np.ltb (fst p) t.

(** What [summarize_bands] stores in the row of one band definition. *)
Definition row_of (f Pxx : list Q) (total : Q) (b : band_name * Q * Q)
                  (r : band_row) : Prop :=
  band r = fst (fst b) /\ lo_hz r = snd (fst b) /\ hi_hz r = snd b /\
  band_energy f Pxx (lo_hz r) (hi_hz r) = Ok (energy r) /\
  ~ total == 0 /\ pct r = 100 * energy r / total.

Definition freq_le (a b : Q * Q) : Prop := fst a <= fst b.

(** Points ordered by frequency, with non-negative power. *)
Definition ordered_nonneg (l : list (Q * Q)) : Prop :=
  StronglySorted freq_le l /\ Forall (fun p => 0 <= snd p) l.

(** The sum of the [pct] fields of a summary. *)
Definition sum_pct (rows : list band_row) : Q :=
  fold_right (fun r acc => pct r + acc) 0 rows.

(** Two samples within 1/32767 of each other. *)
Definition close (u v : Q) : Prop :=
  - (1 # 32767) <= u - v /\ u - v <= 1 # 32767.

(* ================================================================== *)
(** * Properties *)

(** ** Comparisons *)

Lemma geb_true (a c : Q) : Np.geb a c = true <-> c <= a.
Proof. unfold Np.geb. apply Qle_bool_iff. Qed.

Lemma leb_true (a c : Q) : Np.leb a c = true <-> a <= c.
Proof. unfold Np.leb. apply Qle_bool_iff. Qed.

Lemma ltb_true (a c : Q) : Np.ltb a c = true <-> a < c.
Proof.
  unfold Np.ltb. rewrite negb_true_iff.
  destruct (Qle_bool c a) eqn:E.
  - apply Qle_bool_iff in E. split; [discriminate | intro H; lra].
  - split; [intros _ | reflexivity].
    apply Qnot_le_lt. intro H. apply Qle_bool_iff in H. congruence.
Qed.

Lemma leb_false (a c : Q) : Np.leb a c = false <-> c < a.
Proof.
  rewrite <- ltb_true. unfold Np.ltb, Np.leb.
  destruct (Qle_bool a c); simpl; split; congruence.
Qed.

Lemma ltb_false (a c : Q) : Np.ltb a c = false <-> c <= a.
Proof.
  rewrite <- geb_true. unfold Np.ltb, Np.geb.
  destruct (Qle_bool c a); simpl; split; congruence.
Qed.

(** ** Index selection *)

Lemma where_from_S (i : nat) (mask : list bool) :
  Np.where_from (S i) mask = map S (Np.where_from i mask).
Proof.
  revert i. induction mask as [|b mask IH]; intros i; simpl; [reflexivity|].
  destruct b; simpl; now rewrite IH.
Qed.

Lemma where_cons (b : bool) (mask : list bool) :
  Np.where_ (b :: mask) =
  (if b then [0%nat] else []) ++ map S (Np.where_ mask).
Proof.
  unfold Np.where_. simpl. rewrite where_from_S. now destruct b.
Qed.

Lemma where_In (mask : list bool) (i : nat) :
  In i (Np.where_ mask) <-> nth_error mask i = Some true.
Proof.
  revert i. induction mask as [|b mask IH]; intros i.
  - simpl. destruct i; simpl; split; (contradiction || discriminate).
  - rewrite where_cons, in_app_iff, in_map_iff. destruct i as [|i]; simpl.
    + split.
      * intros [H | (j & Hj & _)]; [|discriminate].
        destruct b; simpl in H; [reflexivity | contradiction].
      * intros [= ->]. left. now left.
    + rewrite <- IH. split.
      * intros [H | (j & [= ->] & Hj)]; [|exact Hj].
        destruct b; simpl in H; [destruct H as [H|[]]; discriminate | contradiction].
      * intros H. right. now exists i.
Qed.

Lemma where_NoDup (mask : list bool) : NoDup (Np.where_ mask).
Proof.
  induction mask as [|b mask IH]; [constructor|].
  rewrite where_cons.
  assert (HS : NoDup (map S (Np.where_ mask))).
  { apply Injective_map_NoDup; [|exact IH]. intros a c H. now injection H. }
  destruct b; simpl; [|exact HS].
  constructor; [|exact HS].
  rewrite in_map_iff. intros (j & Hj & _). discriminate.
Qed.

Lemma band_idx_spec (f : list Q) (lo hi : Q) (i : nat) :
  In i (band_idx f lo hi) <->
  exists x, nth_error f i = Some x /\ lo <= x /\ x < hi.
Proof.
  unfold band_idx, band_mask. rewrite where_In, nth_error_map.
  destruct (nth_error f i) as [x|]; simpl.
  - split.
    + intros [= H]. apply andb_true_iff in H as [H1 H2].
      exists x. rewrite geb_true in H1. rewrite ltb_true in H2. auto.
    + intros (y & [= <-] & H1 & H2). f_equal.
      apply andb_true_iff. now rewrite geb_true, ltb_true.
  - split; [discriminate | intros (y & H & _); discriminate].
Qed.

Lemma window_idx_spec (f : list Q) (lo hi : Q) (i : nat) :
  In i (window_idx f lo hi) <->
  exists x, nth_error f i = Some x /\ lo <= x /\ x <= hi.
Proof.
  unfold window_idx, window_mask. rewrite where_In, nth_error_map.
  destruct (nth_error f i) as [x|]; simpl.
  - split.
    + intros [= H]. apply andb_true_iff in H as [H1 H2].
      exists x. rewrite geb_true in H1. rewrite leb_true in H2. auto.
    + intros (y & [= <-] & H1 & H2). f_equal.
      apply andb_true_iff. now rewrite geb_true, leb_true.
  - split; [discriminate | intros (y & H & _); discriminate].
Qed.

(** ** Gathering by index *)

Lemma take_Forall2 (a : list Q) (idx : list nat) (l : list Q) :
  Np.take a idx = Ok l <->
  Forall2 (fun i v => nth_error a i = Some v) idx l.
Proof.
  unfold Np.take. revert l.
  induction idx as [|i idx IH]; intros l; simpl.
  - split.
    + intros [= <-]. constructor.
    + intros H. inversion H. reflexivity.
  - unfold Np.item at 1. destruct (nth_error a i) as [v|] eqn:E; simpl.
    + destruct (mapM (Np.item a) idx) as [l'|e] eqn:E'; simpl.
      * split.
        -- intros [= <-]. constructor; [exact E|]. now apply IH.
        -- intros H. inversion H as [|? w ? l'' Hw Hl]; subst.
           apply IH in Hl. congruence.
      * split; [discriminate|].
        intros H. inversion H as [|? w ? l'' Hw Hl]; subst.
        apply IH in Hl. discriminate.
    + split; [discriminate|].
      intros H. inversion H as [|? w ? l'' Hw Hl]; subst. congruence.
Qed.

Lemma take_length (a : list Q) (idx : list nat) (l : list Q) :
  Np.take a idx = Ok l -> length l = length idx.
Proof.
  intros H. apply take_Forall2 in H. symmetry. eapply Forall2_length; eauto.
Qed.

Lemma take_total (a : list Q) (idx : list nat) :
  (forall i, In i idx -> (i < length a)%nat) ->
  exists l, Np.take a idx = Ok l.
Proof.
  induction idx as [|i idx IH]; intros H.
  - exists []. reflexivity.
  - destruct IH as [l Hl]. { intros j Hj. apply H. now right. }
    assert (Hi : (i < length a)%nat) by (apply H; now left).
    apply nth_error_Some in Hi.
    destruct (nth_error a i) as [v|] eqn:E; [|congruence].
    exists (v :: l). apply take_Forall2. constructor; [exact E|].
    now apply take_Forall2.
Qed.


Lemma mapM_Forall2 {A B : Type} (k : A -> result B) (l : list A) (l' : list B) :
  mapM k l = Ok l' <-> Forall2 (fun a b => k a = Ok b) l l'.
Proof.
  revert l'. induction l as [|a l IH]; intros l'; simpl.
  - split.
    + intros [= <-]. constructor.
    + intros H. inversion H. reflexivity.
  - destruct (k a) as [b|e] eqn:E; simpl.
    + destruct (mapM k l) as [bs|e] eqn:E'; simpl.
      * split.
        -- intros [= <-]. constructor; [exact E|]. now apply IH.
        -- intros H. inversion H as [|? w ? l'' Hw Hl]; subst.
           apply IH in Hl. congruence.
      * split; [discriminate|].
        intros H. inversion H as [|? w ? l'' Hw Hl]; subst.
        apply IH in Hl. discriminate.
    + split; [discriminate|].
      intros H. inversion H as [|? w ? l'' Hw Hl]; subst. congruence.
Qed.

Lemma truediv_Ok (a b p : Q) :
  Py.truediv a b = Ok p <-> ~ b == 0 /\ p = a / b.
Proof.
  unfold Py.truediv. destruct (Qeq_bool b 0) eqn:E.
  - apply Qeq_bool_iff in E. split; [discriminate | intros [H _]; contradiction].
  - apply Qeq_bool_neq in E. split.
    + intros [= <-]. auto.
    + intros [_ ->]. reflexivity.
Qed.

(** ** The shape of a band summary *)


Lemma summarize_bands_inv (f Pxx : list Q) (air_lo air_hi : Q)
      (rows : list band_row) (total : Q) (defs : list (band_name * Q * Q)) :
  summarize_bands f Pxx air_lo air_hi = Ok (rows, total, defs) ->
  exists t, raw_total f Pxx = Ok t /\
            total = (if Np.leb t 0 then epsilon else t) /\
            defs = band_defs air_lo air_hi /\
            Forall2 (row_of f Pxx total) defs rows.
Proof.
  unfold summarize_bands.
  destruct (raw_total f Pxx) as [t|e]; cbn [Py.bind]; [|discriminate].
  match goal with |- context [mapM ?k ?l] => destruct (mapM k l) as [out|e] eqn:E end;
    cbn [Py.bind]; [|discriminate].
  intros [= <- <- <-]. exists t. repeat split.
  apply mapM_Forall2 in E.
  eapply Forall2_impl; [|exact E].
  intros [[name lo] hi] r H. simpl in H.
  destruct (band_energy f Pxx lo hi) as [e|] eqn:Ee; simpl in H; [|discriminate].
  match type of H with context [Py.truediv ?a ?b] =>
    destruct (Py.truediv a b) as [pc|] eqn:Ep end; simpl in H; [|discriminate].
  injection H as <-. apply truediv_Ok in Ep as [Hnz ->].
  unfold row_of. simpl. repeat split; auto.
Qed.

Lemma Forall2_In_r {A B : Type} (R : A -> B -> Prop) (l : list A) (l' : list B)
      (b : B) :
  Forall2 R l l' -> In b l' -> exists a, In a l /\ R a b.
Proof.
  induction 1 as [|a0 b0 l l' H0 _ IH]; intros Hb; [contradiction|].
  destruct Hb as [<- | Hb].
  - exists a0. split; [now left | exact H0].
  - destruct (IH Hb) as (a & Ha & HR). exists a. split; [now right | exact HR].
Qed.

Lemma singleton_of_NoDup (l : list nat) (i : nat) :
  NoDup l -> In i l -> (forall j, In j l -> j = i) -> l = [i].
Proof.
  intros Hnd Hi Hall. destruct l as [|a l]; [contradiction|].
  assert (a = i) by (apply Hall; now left). subst a.
  destruct l as [|b l]; [reflexivity|].
  assert (b = i) by (apply Hall; right; now left). subst b.
  inversion Hnd as [|? ? Hn _]. exfalso. apply Hn. now left.
Qed.

(* ------------------------------------------------------------------ *)
(** ** A band holding a single sample *)

(** C10. When exactly one spectrum sample has its frequency in
    [lo, hi), the energy of that band is 0, whatever the power of the
    sample, and the percentage computed from it is 0: this holds for the
    division itself and for every row of [summarize_bands] over that
    band. *)
Theorem single_sample_band_is_zero
  (f Pxx : list Q) (lo hi : Q) (i : nat)
  (Hlen : length f = length Pxx)
  (Hin : exists x, nth_error f i = Some x /\ lo <= x /\ x < hi)
  (Hsole : forall j, (exists x, nth_error f j = Some x /\ lo <= x /\ x < hi) ->
                     j = i) :
  band_energy f Pxx lo hi = Ok 0 /\
  (forall total p, Py.truediv (100 * 0) total = Ok p -> p == 0) /\
  (forall air_lo air_hi rows total defs r,
     summarize_bands f Pxx air_lo air_hi = Ok (rows, total, defs) ->
     In r rows -> lo_hz r = lo -> hi_hz r = hi ->
     energy r = 0 /\ pct r == 0).
Proof.
  assert (Hidx : band_idx f lo hi = [i]).
  { apply singleton_of_NoDup.
    - apply where_NoDup.
    - now apply band_idx_spec.
    - intros j Hj. apply Hsole. now apply band_idx_spec. }
  assert (HE : band_energy f Pxx lo hi = Ok 0).
  { unfold band_energy. rewrite Hidx. simpl.
    destruct Hin as (x & Hx & _).
    assert (Hi : (i < length Pxx)%nat).
    { rewrite <- Hlen. apply nth_error_Some. congruence. }
    apply nth_error_Some in Hi.
    unfold Np.take. simpl. unfold Np.item.
    destruct (nth_error Pxx i) as [p|]; [|congruence].
    rewrite Hx. reflexivity. }
  split; [exact HE|]. split.
  - intros total p H. apply truediv_Ok in H as [Hnz ->].
    unfold Qdiv. ring.
  - intros air_lo air_hi rows total defs r Hs Hr Hlo Hhi.
    apply summarize_bands_inv in Hs as (t & _ & _ & _ & HF).
    destruct (Forall2_In_r _ _ _ r HF Hr) as (b & _ & Hrow).
    destruct Hrow as (_ & _ & _ & Hen & _ & Hpct).
    rewrite Hlo, Hhi, HE in Hen. injection Hen as Hen.
    split; [now symmetry|]. rewrite Hpct, <- Hen. unfold Qdiv. ring.
Qed.

Lemma single_sample_band_is_zero_witness :
  band_energy [100; 300; 2000] [5; 7; 9] 60 250 = Ok 0.
Proof.
  refine (proj1 (single_sample_band_is_zero
                   [100; 300; 2000] [5; 7; 9] 60 250 0%nat eq_refl _ _)).
  - exists 100. repeat split; vm_compute; congruence.
  - intros j (x & Hx & Hlo & Hhi).
    destruct j as [|[|[|j]]]; simpl in Hx; [reflexivity | | |].
    + injection Hx as <-. vm_compute in Hhi. discriminate.
    + injection Hx as <-. vm_compute in Hhi. discriminate.
    + destruct j; discriminate.
Defined.

(* ------------------------------------------------------------------ *)
(** ** Peak picking *)

Lemma fold_max_spec (a : list Q) (v : Q) :
  let m := fold_left (fun m x => if Np.ltb m x then x else m) a v in
  (m = v \/ In m a) /\ v <= m /\ (forall x, In x a -> x <= m).
Proof.
  revert v. induction a as [|x a IH]; intros v; simpl.
  - split; [now left|]. split; [lra | contradiction].
  - destruct (Np.ltb v x) eqn:E.
    + apply ltb_true in E. destruct (IH x) as (H1 & H2 & H3).
      split; [|split].
      * right. destruct H1 as [-> | H1]; [now left | now right].
      * lra.
      * intros y [<- | Hy]; [exact H2 | now apply H3].
    + apply ltb_false in E. destruct (IH v) as (H1 & H2 & H3).
      split; [|split].
      * destruct H1 as [-> | H1]; [now left | right; now right].
      * exact H2.
      * intros y [<- | Hy]; [lra | now apply H3].
Qed.

Lemma amax_spec (a : list Q) (m : Q) :
  Np.amax a = Ok m -> In m a /\ (forall x, In x a -> x <= m).
Proof.
  destruct a as [|v a]; simpl; [discriminate|].
  intros [= <-]. destruct (fold_max_spec a v) as (H1 & H2 & H3).
  split.
  - destruct H1 as [-> | H1]; [now left | now right].
  - intros x [<- | Hx]; [exact H2 | now apply H3].
Qed.

(** [argmax_from] continues a scan: [pre] is the part already seen, [best]
    its first maximum, at position [bi]. *)
Lemma argmax_from_spec (a pre : list Q) (best : Q) (bi : nat) :
  nth_error pre bi = Some best ->
  (forall x, In x pre -> x <= best) ->
  (forall j q, (j < bi)%nat -> nth_error pre j = Some q -> q < best) ->
  let k := Np.argmax_from best bi (length pre) a in
  exists p, nth_error (pre ++ a) k = Some p /\
            (forall x, In x (pre ++ a) -> x <= p) /\
            (forall j q, (j < k)%nat -> nth_error (pre ++ a) j = Some q -> q < p).
Proof.
  revert pre best bi. induction a as [|x a IH]; intros pre best bi Hb Hmax Hfirst; simpl.
  - rewrite app_nil_r. exists best. auto.
  - assert (Hlen : length (pre ++ [x]) = S (length pre)).
    { rewrite length_app. simpl. lia. }
    replace (pre ++ x :: a) with ((pre ++ [x]) ++ a)
      by (rewrite <- app_assoc; reflexivity).
    rewrite <- Hlen.
    destruct (Np.ltb best x) eqn:E.
    + apply ltb_true in E. apply IH.
      * rewrite nth_error_app2 by lia. now rewrite Nat.sub_diag.
      * intros y Hy. apply in_app_iff in Hy as [Hy | [<- | []]]; [|lra].
        specialize (Hmax y Hy). lra.
      * intros j q Hj Hq.
        rewrite nth_error_app1 in Hq by exact Hj.
        assert (In q pre) by (eapply nth_error_In; eauto).
        specialize (Hmax q H). lra.
    + apply ltb_false in E. apply IH.
      * rewrite nth_error_app1; [exact Hb|]. apply nth_error_Some. congruence.
      * intros y Hy. apply in_app_iff in Hy as [Hy | [<- | []]]; [auto | exact E].
      * intros j q Hj Hq.
        assert (Hbi : (bi < length pre)%nat) by (apply nth_error_Some; congruence).
        rewrite nth_error_app1 in Hq by lia. eauto.
Qed.

Lemma argmax_spec (a : list Q) (k : nat) :
  Np.argmax a = Ok k ->
  exists p, nth_error a k = Some p /\
            (forall x, In x a -> x <= p) /\
            (forall j q, (j < k)%nat -> nth_error a j = Some q -> q < p).
Proof.
  destruct a as [|v a]; simpl; [discriminate|].
  intros [= <-].
  apply (argmax_from_spec a [v] v 0); simpl.
  - reflexivity.
  - intros x [<- | []]. lra.
  - intros j q Hj. lia.
Qed.

Lemma where_increasing (mask : list bool) (a b ja jb : nat) :
  nth_error (Np.where_ mask) a = Some ja ->
  nth_error (Np.where_ mask) b = Some jb ->
  (a < b)%nat -> (ja < jb)%nat.
Proof.
  revert a b ja jb. induction mask as [|c mask IH]; intros a b ja jb.
  - unfold Np.where_. simpl. destruct a; discriminate.
  - rewrite where_cons.
    assert (HS : forall a b ja jb,
               nth_error (map S (Np.where_ mask)) a = Some ja ->
               nth_error (map S (Np.where_ mask)) b = Some jb ->
               (a < b)%nat -> (ja < jb)%nat).
    { intros a' b' ja' jb'. rewrite !nth_error_map.
      destruct (nth_error (Np.where_ mask) a') as [u|] eqn:Eu; [|discriminate].
      destruct (nth_error (Np.where_ mask) b') as [w|] eqn:Ew; [|discriminate].
      simpl. intros [= <-] [= <-] Hlt. specialize (IH _ _ _ _ Eu Ew Hlt). lia. }
    destruct c; simpl; [|apply HS].
    destruct a as [|a]; destruct b as [|b]; simpl; try lia.
    + intros [= <-]. rewrite nth_error_map.
      destruct (nth_error (Np.where_ mask) b); [|discriminate].
      simpl. intros [= <-] _. lia.
    + intros Ha Hb Hlt. apply (HS a b); auto. lia.
Qed.

Lemma Forall2_nth_r {A B : Type} (R : A -> B -> Prop) (l : list A) (l' : list B)
      (k : nat) (b : B) :
  Forall2 R l l' -> nth_error l' k = Some b ->
  exists a, nth_error l k = Some a /\ R a b.
Proof.
  intros H. revert k. induction H as [|a0 b0 l l' H0 _ IH]; intros k Hk.
  - destruct k; discriminate.
  - destruct k as [|k]; simpl in *.
    + injection Hk as <-. eauto.
    + auto.
Qed.

Lemma Forall2_nth_l {A B : Type} (R : A -> B -> Prop) (l : list A) (l' : list B)
      (k : nat) (a : A) :
  Forall2 R l l' -> nth_error l k = Some a ->
  exists b, nth_error l' k = Some b /\ R a b.
Proof.
  intros H. revert k. induction H as [|a0 b0 l l' H0 _ IH]; intros k Hk.
  - destruct k; discriminate.
  - destruct k as [|k]; simpl in *.
    + injection Hk as <-. eauto.
    + auto.
Qed.

Section Fundamental.

Variables (f Pxx : list Q) (lo hi : Q).
Hypothesis Hlen : length f = length Pxx.

Let inwin (i : nat) : Prop :=
  exists x, nth_error f i = Some x /\ lo <= x /\ x <= hi.

Lemma estimate_fundamental_cases :
  (estimate_fundamental f Pxx lo hi = Ok None /\
   ((forall i, ~ inwin i) \/
    (forall i p, inwin i -> nth_error Pxx i = Some p -> p <= 0)))
  \/
  (exists r i p,
     estimate_fundamental f Pxx lo hi = Ok (Some r) /\
     inwin i /\ nth_error f i = Some r /\ nth_error Pxx i = Some p /\
     0 < p /\
     (forall j q, inwin j -> nth_error Pxx j = Some q -> q <= p) /\
     (forall j q, inwin j -> (j < i)%nat -> nth_error Pxx j = Some q -> q < p)).
Proof.
  unfold estimate_fundamental.
  assert (Hspec : forall i, In i (window_idx f lo hi) <-> inwin i)
    by (intro i; apply window_idx_spec).
  assert (Hinc : forall a b ja jb,
             nth_error (window_idx f lo hi) a = Some ja ->
             nth_error (window_idx f lo hi) b = Some jb ->
             (a < b)%nat -> (ja < jb)%nat)
    by (intros a b ja jb; apply where_increasing).
  remember (window_idx f lo hi) as idx eqn:Eidx. clear Eidx.
  destruct idx as [|i0 rest].
  { left. simpl. split; [reflexivity|]. left. intros i Hi. now apply Hspec in Hi. }
  set (idx := i0 :: rest) in *.
  assert (Hbound : forall i, In i idx -> (i < length f)%nat).
  { intros i Hi. apply Hspec in Hi as (x & Hx & _).
    apply nth_error_Some. congruence. }
  destruct (take_total f idx Hbound) as [sub_f Hsf].
  destruct (take_total Pxx idx) as [sub_p Hsp].
  { intros i Hi. rewrite <- Hlen. now apply Hbound. }
  replace (Nat.eqb (length idx) 0) with false by reflexivity.
  rewrite Hsf, Hsp. cbn [Py.bind].
  pose proof (take_length _ _ _ Hsf) as Lf.
  pose proof (take_length _ _ _ Hsp) as Lp.
  apply take_Forall2 in Hsf, Hsp.
  (* every window sample appears in [sub_p] *)
  assert (Hcover : forall j q, inwin j -> nth_error Pxx j = Some q ->
                               exists k, nth_error idx k = Some j /\
                                         nth_error sub_p k = Some q).
  { intros j q Hj Hq. apply Hspec in Hj.
    apply In_nth_error in Hj as [k Hk]. exists k. split; [exact Hk|].
    destruct (Forall2_nth_l _ _ _ _ _ Hsp Hk) as (q' & Hq' & HR).
    simpl in HR. congruence. }
  destruct (Np.amax sub_p) as [m|e] eqn:Em.
  2:{ destruct sub_p; [discriminate Lp | discriminate Em]. }
  cbn [Py.bind]. apply amax_spec in Em as [Hm_in Hm_max].
  destruct (Np.leb m 0) eqn:Eneg.
  { left. split; [reflexivity|]. right. intros j q Hj Hq.
    destruct (Hcover j q Hj Hq) as (k & _ & Hk).
    apply leb_true in Eneg. apply nth_error_In in Hk.
    specialize (Hm_max q Hk). lra. }
  apply leb_false in Eneg.
  destruct (Np.argmax sub_p) as [k|e] eqn:Ek.
  2:{ destruct sub_p; [discriminate Lp | discriminate Ek]. }
  cbn [Py.bind]. apply argmax_spec in Ek as (p & Hkp & Hp_max & Hp_first).
  destruct (Forall2_nth_r _ _ _ _ _ Hsp Hkp) as (i & Hki & Hpi).
  destruct (Forall2_nth_l _ _ _ _ _ Hsf Hki) as (r & Hkr & Hfi).
  simpl in Hpi, Hfi.
  unfold Np.item. rewrite Hkr. cbn [Py.bind].
  right. exists r, i, p. split; [reflexivity|].
  split; [apply Hspec; eapply nth_error_In; eauto|].
  split; [exact Hfi|]. split; [exact Hpi|].
  split; [specialize (Hp_max m Hm_in); lra|].
  split.
  - intros j q Hj Hq. destruct (Hcover j q Hj Hq) as (k' & _ & Hk').
    apply Hp_max. eapply nth_error_In; eauto.
  - intros j q Hj Hlt Hq. destruct (Hcover j q Hj Hq) as (k' & Hkj & Hk').
    apply (Hp_first k'); [|exact Hk'].
    destruct (Nat.lt_ge_cases k' k) as [Hc|Hc]; [exact Hc|].
    destruct (Nat.eq_dec k k') as [->|Hne].
    + rewrite Hki in Hkj. injection Hkj as ->. lia.
    + assert (Hlt' : (k < k')%nat) by lia.
      specialize (Hinc _ _ _ _ Hki Hkj Hlt'). lia.
Qed.

(** C3. [estimate_fundamental] never raises on a spectrum whose two
    arrays have one length.  It returns None exactly when no sample has
    its frequency in the closed window [lo, hi] or no sample of the
    window has positive power (the maximum power there is <= 0).
    Otherwise the value returned is the frequency stored at an index of
    the window whose power is the maximum over the window, the first such
    index; the value is read from the array, not interpolated. *)
Theorem estimate_fundamental_absent_or_peak :
  (estimate_fundamental f Pxx lo hi = Ok None <->
     (forall i, ~ inwin i) \/
     (forall i p, inwin i -> nth_error Pxx i = Some p -> p <= 0)) /\
  (forall r, estimate_fundamental f Pxx lo hi = Ok (Some r) ->
     exists i p,
       inwin i /\ nth_error f i = Some r /\ nth_error Pxx i = Some p /\
       0 < p /\
       (forall j q, inwin j -> nth_error Pxx j = Some q -> q <= p) /\
       (forall j q, inwin j -> (j < i)%nat ->
                    nth_error Pxx j = Some q -> q < p)) /\
  (exists v, estimate_fundamental f Pxx lo hi = Ok v).
Proof.
  destruct estimate_fundamental_cases
    as [[E H] | (r & i & p & E & Hi & Hf & Hp & Hpos & Hmax & Hfirst)].
  - split; [|split].
    + split; [intros _; exact H | intros _; exact E].
    + intros r' E'. rewrite E in E'. discriminate.
    + eauto.
  - split; [|split].
    + split; [intros E'; rewrite E in E'; discriminate|].
      intros [Hnone | Hneg]; exfalso.
      * exact (Hnone i Hi).
      * specialize (Hneg i p Hi Hp). lra.
    + intros r' E'. rewrite E in E'. injection E' as <-.
      exists i, p. auto 10.
    + eauto.
Qed.

End Fundamental.

Lemma estimate_fundamental_absent_or_peak_witness :
  estimate_fundamental [0; 60; 120; 180; 400] [9; 1; 5; 5; 8]
                       default_lo default_hi = Ok (Some 120) /\
  exists v, estimate_fundamental [0; 60; 120; 180; 400] [0; 0; 0; 0; 0]
                                 default_lo default_hi = Ok v.
Proof.
  split; [reflexivity|].
  exact (proj2 (proj2 (estimate_fundamental_absent_or_peak
                         [0; 60; 120; 180; 400] [0; 0; 0; 0; 0]
                         default_lo default_hi eq_refl))).
Defined.

(* ------------------------------------------------------------------ *)
(** ** The spectrum as a list of (frequency, power) points *)


Lemma take_cons_S (v : Q) (a : list Q) (idx : list nat) :
  Np.take (v :: a) (map S idx) = Np.take a idx.
Proof.
  unfold Np.take. induction idx as [|i idx IH]; simpl; [reflexivity|].
  now rewrite IH.
Qed.

Lemma take_cons (a : list Q) (i : nat) (idx : list nat) :
  Np.take a (i :: idx) =
  (v <- Np.item a i ;; l <- Np.take a idx ;; Ok (v :: l)).
Proof. reflexivity. Qed.

Lemma take_where_snd (c : Q -> bool) (f Pxx : list Q) :
  length f = length Pxx ->
  Np.take Pxx (Np.where_ (map c f)) =
  Ok (map snd (filter (fun p => c (fst p)) (combine f Pxx))).
Proof.
  revert Pxx. induction f as [|x f IH]; intros [|p Pxx] Hlen;
    try discriminate; [reflexivity|].
  injection Hlen as Hlen.
  change (map c (x :: f)) with (c x :: map c f). rewrite where_cons.
  cbn [combine filter fst].
  destruct (c x); cbn [app map snd].
  - rewrite take_cons, take_cons_S, IH by exact Hlen. reflexivity.
  - rewrite take_cons_S, IH by exact Hlen. reflexivity.
Qed.

Lemma take_where_fst (c : Q -> bool) (f Pxx : list Q) :
  length f = length Pxx ->
  Np.take f (Np.where_ (map c f)) =
  Ok (map fst (filter (fun p => c (fst p)) (combine f Pxx))).
Proof.
  revert Pxx. induction f as [|x f IH]; intros [|p Pxx] Hlen;
    try discriminate; [reflexivity|].
  injection Hlen as Hlen.
  change (map c (x :: f)) with (c x :: map c f). rewrite where_cons.
  cbn [combine filter fst].
  destruct (c x); cbn [app map fst].
  - rewrite take_cons, take_cons_S, (IH Pxx) by exact Hlen. reflexivity.
  - rewrite take_cons_S, (IH Pxx) by exact Hlen. reflexivity.
Qed.

Lemma compress_aux_snd (c : Q -> bool) (f Pxx : list Q) :
  length f = length Pxx ->
  Np.compress_aux (map c f) Pxx =
  map snd (filter (fun p => c (fst p)) (combine f Pxx)).
Proof.
  revert Pxx. induction f as [|x f IH]; intros [|p Pxx] Hlen;
    try discriminate; [reflexivity|].
  injection Hlen as Hlen. simpl. destruct (c x); simpl; now rewrite IH.
Qed.

Lemma compress_aux_fst (c : Q -> bool) (f Pxx : list Q) :
  length f = length Pxx ->
  Np.compress_aux (map c f) f =
  map fst (filter (fun p => c (fst p)) (combine f Pxx)).
Proof.
  revert Pxx. induction f as [|x f IH]; intros [|p Pxx] Hlen;
    try discriminate; [reflexivity|].
  injection Hlen as Hlen. simpl. destruct (c x); simpl; now rewrite (IH Pxx).
Qed.

Lemma raw_total_points (f Pxx : list Q) :
  length f = length Pxx ->
  raw_total f Pxx = Ok (trap (filter (at_least 20) (combine f Pxx))).
Proof.
  intros Hlen. unfold raw_total, Np.compress.
  rewrite !length_map, <- Hlen, Nat.eqb_refl. cbn [Py.bind].
  rewrite (compress_aux_snd (fun x => Np.geb x 20) f Pxx Hlen).
  rewrite (compress_aux_fst (fun x => Np.geb x 20) f Pxx Hlen).
  reflexivity.
Qed.

Lemma band_energy_points (f Pxx : list Q) (lo hi : Q) :
  length f = length Pxx ->
  band_energy f Pxx lo hi = Ok (trap (filter (in_band lo hi) (combine f Pxx))).
Proof.
  intros Hlen. unfold band_energy, band_idx, band_mask, in_band.
  pose proof (take_where_snd (fun x => Np.geb x lo && Np.ltb x hi) f Pxx Hlen) as Hs.
  pose proof (take_where_fst (fun x => Np.geb x lo && Np.ltb x hi) f Pxx Hlen) as Hf.
  cbv beta in Hs, Hf.
  destruct (Nat.eqb (length (Np.where_ (map (fun x => Np.geb x lo && Np.ltb x hi) f))) 0)
    eqn:E.
  - apply Nat.eqb_eq, length_zero_iff_nil in E. rewrite E in Hs.
    cbn in Hs. injection Hs as Hs.
    symmetry in Hs. apply map_eq_nil in Hs. rewrite Hs. reflexivity.
  - rewrite Hs, Hf. reflexivity.
Qed.

Lemma truediv_nonzero (a b : Q) : ~ b == 0 -> Py.truediv a b = Ok (a / b).
Proof. intros H. now apply truediv_Ok. Qed.

Lemma epsilon_pos : 0 < epsilon.
Proof. reflexivity. Qed.

Lemma total_pos (t : Q) : 0 < (if Np.leb t 0 then epsilon else t).
Proof.
  destruct (Np.leb t 0) eqn:E; [apply epsilon_pos | now apply leb_false].
Qed.

(** With arrays of one length [summarize_bands] returns, and this is what
    it returns. *)
Lemma summarize_bands_points (f Pxx : list Q) (air_lo air_hi : Q) :
  length f = length Pxx ->
  let pts := combine f Pxx in
  let t := trap (filter (at_least 20) pts) in
  let total := if Np.leb t 0 then epsilon else t in
  let row := fun (b : band_name * Q * Q) =>
               let e := trap (filter (in_band (snd (fst b)) (snd b)) pts) in
               mk_row (fst (fst b)) (snd (fst b)) (snd b) e (100 * e / total) in
  summarize_bands f Pxx air_lo air_hi =
  Ok (map row (band_defs air_lo air_hi), total, band_defs air_lo air_hi).
Proof.
  intros Hlen pts t total row. unfold summarize_bands.
  rewrite (raw_total_points f Pxx Hlen). cbn [Py.bind].
  fold pts. fold t. fold total.
  assert (Hnz : ~ total == 0).
  { pose proof (total_pos t) as H. fold total in H. lra. }
  unfold band_defs. cbn [mapM map].
  rewrite !(band_energy_points f Pxx _ _ Hlen). cbn [Py.bind]. fold pts.
  rewrite !(truediv_nonzero _ total Hnz). cbn [Py.bind].
  reflexivity.
Qed.

Lemma trap_cons2 (a b : Q * Q) (l : list (Q * Q)) :
  trap (a :: b :: l) =
  (fst b - fst a) * (snd b + snd a) / 2 + trap (b :: l).
Proof. reflexivity. Qed.

Lemma trap_silent (l : list (Q * Q)) :
  Forall (fun p => snd p == 0) l -> trap l == 0.
Proof.
  induction l as [|a [|b l] IH]; intros H; try reflexivity.
  rewrite trap_cons2.
  inversion H as [|? ? Ha H']; subst. inversion H' as [|? ? Hb _]; subst.
  rewrite (IH H'), Ha, Hb. unfold Qdiv. ring.
Qed.

Lemma silent_points (f Pxx : list Q) (c : Q * Q -> bool) :
  (forall p, In p Pxx -> p == 0) ->
  Forall (fun p => snd p == 0) (filter c (combine f Pxx)).
Proof.
  intros H. apply Forall_forall. intros [x p] Hp.
  apply filter_In in Hp as [Hp _]. apply in_combine_r in Hp.
  simpl. now apply H.
Qed.

(* ------------------------------------------------------------------ *)
(** ** Band membership *)




(* ------------------------------------------------------------------ *)
(** ** Silence and the denominator *)

(** In exact arithmetic: on arrays of one length [summarize_bands]
    returns, its denominator is the integral over the samples at 20 Hz
    and above when that is positive and [epsilon] otherwise, and on
    all-zero power every percentage is 0. *)
Lemma summarize_bands_exact_total
  (f Pxx : list Q) (air_lo air_hi : Q) (Hlen : length f = length Pxx) :
  exists rows t total,
    summarize_bands f Pxx air_lo air_hi =
      Ok (rows, total, band_defs air_lo air_hi) /\
    raw_total f Pxx = Ok t /\
    (t <= 0 -> total = epsilon) /\
    (0 < t -> total = t) /\
    0 < total /\
    length rows = 3%nat /\
    Forall (fun r => Py.truediv (100 * energy r) total = Ok (pct r)) rows /\
    ((forall p, In p Pxx -> p == 0) ->
     total = epsilon /\ Forall (fun r => pct r == 0) rows).
Proof.
  pose proof (summarize_bands_points f Pxx air_lo air_hi Hlen) as Hs.
  cbv zeta in Hs.
  set (pts := combine f Pxx) in *.
  set (t := trap (filter (at_least 20) pts)) in *.
  set (total := if Np.leb t 0 then epsilon else t) in *.
  assert (Hpos : 0 < total) by apply total_pos.
  assert (Hnz : ~ total == 0) by lra.
  eexists _, t, total. split; [exact Hs|].
  split; [apply raw_total_points; exact Hlen|].
  split.
  { intros Ht. unfold total. apply leb_true in Ht. now rewrite Ht. }
  split.
  { intros Ht. unfold total. apply leb_false in Ht. now rewrite Ht. }
  split; [exact Hpos|].
  split; [reflexivity|].
  split.
  { unfold band_defs. cbn [map]. repeat constructor; cbn [energy pct];
      now apply truediv_nonzero. }
  intros Hsilent.
  assert (Ht : t == 0) by (apply trap_silent, silent_points, Hsilent).
  split.
  { unfold total. assert (Hle : t <= 0) by lra.
    apply leb_true in Hle. now rewrite Hle. }
  assert (Hz : forall lo hi, 100 * trap (filter (in_band lo hi) pts) / total == 0).
  { intros lo hi. unfold pts.
    rewrite (trap_silent _ (silent_points f Pxx _ Hsilent)).
    unfold Qdiv. ring. }
  unfold band_defs. cbn [map].
  repeat (apply Forall_cons; [apply Hz|]). apply Forall_nil.
Qed.


(* ------------------------------------------------------------------ *)
(** ** Energy of disjoint bands on an ordered, non-negative spectrum *)


Lemma ordered_nonneg_tail (a : Q * Q) (l : list (Q * Q)) :
  ordered_nonneg (a :: l) -> ordered_nonneg l.
Proof.
  intros [Hs Hn]. inversion Hs; subst. inversion Hn; subst. now split.
Qed.

Lemma ordered_nonneg_filter (c : Q * Q -> bool) (l : list (Q * Q)) :
  ordered_nonneg l -> ordered_nonneg (filter c l).
Proof.
  intros [Hs Hn]. split.
  - induction Hs as [|a l Hs IH Ha]; simpl; [constructor|].
    inversion Hn; subst.
    destruct (c a); [|auto]. constructor; [auto|].
    apply Forall_forall. intros x Hx. apply filter_In in Hx as [Hx _].
    rewrite Forall_forall in Ha. now apply Ha.
  - apply Forall_forall. intros x Hx. apply filter_In in Hx as [Hx _].
    rewrite Forall_forall in Hn. now apply Hn.
Qed.

Lemma ordered_nonneg_combine (f Pxx : list Q) :
  StronglySorted Qle f -> Forall (Qle 0) Pxx ->
  ordered_nonneg (combine f Pxx).
Proof.
  intros Hs Hn. split.
  - revert Pxx Hn. induction Hs as [|x f Hs IH Hx]; intros Pxx Hn; simpl;
      [constructor|].
    destruct Pxx as [|p Pxx]; [constructor|].
    inversion Hn; subst. constructor; [auto|].
    apply Forall_forall. intros [y q] Hy. apply in_combine_l in Hy.
    rewrite Forall_forall in Hx. unfold freq_le. simpl. now apply Hx.
  - apply Forall_forall. intros [y q] Hy. apply in_combine_r in Hy.
    rewrite Forall_forall in Hn. simpl. now apply Hn.
Qed.

Lemma panel_nonneg (a b : Q * Q) :
  fst a <= fst b -> 0 <= snd a -> 0 <= snd b ->
  0 <= (fst b - fst a) * (snd b + snd a) / 2.
Proof.
  intros H1 H2 H3. unfold Qdiv.
  apply Qmult_le_0_compat; [apply Qmult_le_0_compat; lra | discriminate].
Qed.

Lemma head_panel_nonneg (a b : Q * Q) (l : list (Q * Q)) :
  ordered_nonneg (a :: b :: l) ->
  0 <= (fst b - fst a) * (snd b + snd a) / 2.
Proof.
  intros [Hs Hn]. inversion Hs as [|? ? _ Ha]; subst.
  inversion Ha as [|? ? Hab _]; subst.
  inversion Hn as [|? ? Hna Hn']; subst. inversion Hn' as [|? ? Hnb _]; subst.
  now apply panel_nonneg.
Qed.

Lemma trap_nonneg (l : list (Q * Q)) : ordered_nonneg l -> 0 <= trap l.
Proof.
  induction l as [|a l IH]; intros H; [discriminate|].
  destruct l as [|b l]; [discriminate|].
  rewrite trap_cons2.
  pose proof (head_panel_nonneg _ _ _ H).
  pose proof (IH (ordered_nonneg_tail _ _ H)). lra.
Qed.

Lemma trap_app (a b : list (Q * Q)) :
  ordered_nonneg (a ++ b) -> trap a + trap b <= trap (a ++ b).
Proof.
  induction a as [|x a IH]; intros H.
  - simpl app. change (trap []) with 0. lra.
  - destruct a as [|y a].
    + change (trap [x]) with 0. simpl app. destruct b as [|z b].
      * change (trap []) with 0. change (trap [x]) with 0. lra.
      * rewrite trap_cons2. pose proof (head_panel_nonneg _ _ _ H). lra.
    + change ((x :: y :: a) ++ b) with (x :: y :: (a ++ b)).
      rewrite !trap_cons2.
      assert (H' : ordered_nonneg ((y :: a) ++ b))
        by (apply (ordered_nonneg_tail x); exact H).
      specialize (IH H'). simpl app in IH. lra.
Qed.

Lemma filter_all {A : Type} (c : A -> bool) (l : list A) :
  (forall x, In x l -> c x = true) -> filter c l = l.
Proof.
  induction l as [|a l IH]; intros H; simpl; [reflexivity|].
  rewrite (H a) by now left. f_equal. apply IH. intros x Hx. apply H. now right.
Qed.

Lemma filter_none {A : Type} (c : A -> bool) (l : list A) :
  (forall x, In x l -> c x = false) -> filter c l = [].
Proof.
  induction l as [|a l IH]; intros H; simpl; [reflexivity|].
  rewrite (H a) by now left. apply IH. intros x Hx. apply H. now right.
Qed.

Lemma filter_narrow {A : Type} (p q : A -> bool) (l : list A) :
  (forall x, p x = true -> q x = true) ->
  filter p (filter q l) = filter p l.
Proof.
  intros H. induction l as [|a l IH]; simpl; [reflexivity|].
  destruct (q a) eqn:Eq; simpl.
  - now rewrite IH.
  - destruct (p a) eqn:Ep; [|exact IH].
    apply H in Ep. congruence.
Qed.

(** An ordered list splits at a threshold into the part below and the part
    at or above. *)
Lemma split_at_threshold (t : Q) (l : list (Q * Q)) :
  StronglySorted freq_le l ->
  filter (below t) l ++ filter (at_least t) l = l.
Proof.
  induction 1 as [|a l Hs IH Ha]; [reflexivity|].
  unfold below, at_least in *. simpl.
  destruct (Np.ltb (fst a) t) eqn:E.
  - assert (Eg : Np.geb (fst a) t = false).
    { apply ltb_true in E. destruct (Np.geb (fst a) t) eqn:G; [|reflexivity].
      apply geb_true in G. lra. }
    rewrite Eg. simpl. now rewrite IH.
  - apply ltb_false in E.
    assert (Eg : Np.geb (fst a) t = true) by now apply geb_true.
    rewrite Eg. rewrite Forall_forall in Ha.
    rewrite (filter_none (fun p => Np.ltb (fst p) t)).
    + simpl. f_equal. apply filter_all. intros x Hx. apply geb_true.
      specialize (Ha x Hx). unfold freq_le in Ha. lra.
    + intros x Hx. apply ltb_false.
      specialize (Ha x Hx). unfold freq_le in Ha. lra.
Qed.

Lemma trap_split (t : Q) (l : list (Q * Q)) :
  ordered_nonneg l ->
  trap (filter (below t) l) + trap (filter (at_least t) l) <= trap l.
Proof.
  intros H. pose proof (split_at_threshold t l (proj1 H)) as Hsplit.
  assert (H' : ordered_nonneg (filter (below t) l ++ filter (at_least t) l))
    by (rewrite Hsplit; exact H).
  pose proof (trap_app _ _ H') as Happ. now rewrite Hsplit in Happ.
Qed.

Lemma in_band_filter (lo hi : Q) (l : list (Q * Q)) :
  filter (in_band lo hi) l = filter (below hi) (filter (at_least lo) l).
Proof.
  induction l as [|a l IH]; simpl; [reflexivity|].
  unfold in_band, below, at_least in *.
  destruct (Np.geb (fst a) lo); simpl; [|exact IH].
  destruct (Np.ltb (fst a) hi); now rewrite IH.
Qed.

Lemma band_bounds (lo hi : Q) (l : list (Q * Q)) :
  ordered_nonneg l ->
  0 <= trap (filter (in_band lo hi) l) /\
  trap (filter (in_band lo hi) l) <= trap l.
Proof.
  intros H. split; [apply trap_nonneg, ordered_nonneg_filter, H|].
  rewrite in_band_filter.
  pose proof (ordered_nonneg_filter (at_least lo) l H) as Hl.
  pose proof (trap_split lo l H) as H1.
  pose proof (trap_split hi _ Hl) as H2.
  pose proof (trap_nonneg _ (ordered_nonneg_filter (below lo) l H)).
  pose proof (trap_nonneg _ (ordered_nonneg_filter (at_least hi) _ Hl)).
  lra.
Qed.

Lemma band_below_threshold (lo hi t : Q) (l : list (Q * Q)) :
  hi <= t ->
  filter (in_band lo hi) (filter (below t) l) = filter (in_band lo hi) l.
Proof.
  intros H. apply filter_narrow. intros x Hx. unfold in_band, below in *.
  apply andb_true_iff in Hx as [_ Hx]. apply ltb_true in Hx. apply ltb_true. lra.
Qed.

Lemma band_above_threshold (lo hi t : Q) (l : list (Q * Q)) :
  t <= lo ->
  filter (in_band lo hi) (filter (at_least t) l) = filter (in_band lo hi) l.
Proof.
  intros H. apply filter_narrow. intros x Hx. unfold in_band, at_least in *.
  apply andb_true_iff in Hx as [Hx _]. apply geb_true in Hx. apply geb_true. lra.
Qed.

Lemma two_bands (lo1 hi1 lo2 hi2 : Q) (l : list (Q * Q)) :
  ordered_nonneg l -> hi1 <= lo2 ->
  trap (filter (in_band lo1 hi1) l) + trap (filter (in_band lo2 hi2) l)
  <= trap l.
Proof.
  intros H H12.
  rewrite <- (band_below_threshold lo1 hi1 hi1 l) by lra.
  rewrite <- (band_above_threshold lo2 hi2 hi1 l) by exact H12.
  pose proof (trap_split hi1 l H).
  pose proof (band_bounds lo1 hi1 _ (ordered_nonneg_filter (below hi1) l H)).
  pose proof (band_bounds lo2 hi2 _ (ordered_nonneg_filter (at_least hi1) l H)).
  lra.
Qed.

Lemma three_bands (lo1 hi1 lo2 hi2 lo3 hi3 : Q) (l : list (Q * Q)) :
  ordered_nonneg l -> hi1 <= lo2 -> hi2 <= lo3 -> hi1 <= lo3 ->
  trap (filter (in_band lo1 hi1) l) + trap (filter (in_band lo2 hi2) l)
  + trap (filter (in_band lo3 hi3) l) <= trap l.
Proof.
  intros H H12 H23 H13.
  rewrite <- (band_below_threshold lo1 hi1 hi1 l) by lra.
  rewrite <- (band_above_threshold lo2 hi2 hi1 l) by exact H12.
  rewrite <- (band_above_threshold lo3 hi3 hi1 l) by exact H13.
  pose proof (trap_split hi1 l H).
  pose proof (band_bounds lo1 hi1 _ (ordered_nonneg_filter (below hi1) l H)).
  pose proof (two_bands lo2 hi2 lo3 hi3 _
                (ordered_nonneg_filter (at_least hi1) l H) H23).
  lra.
Qed.

(* ------------------------------------------------------------------ *)
(** ** Silence, overflow and the denominator *)

(** *** The same over floats with infinities and nan *)

Section Overflow.

Import F64.

Lemma huge_pos : 0 < huge.
Proof.
  unfold huge. change 0 with (inject_Z 0). rewrite <- Zlt_Qlt. reflexivity.
Qed.

Lemma round_in_range (q : Q) : Qabs q < huge -> round q = Fin q.
Proof.
  intros H. unfold round.
  destruct (Qle_bool huge (Qabs q)) eqn:E; [|reflexivity].
  apply Qle_bool_iff in E. lra.
Qed.

Lemma round_zero (q : Q) : q == 0 -> round q = Fin q.
Proof.
  intros H. apply round_in_range. rewrite H. exact huge_pos.
Qed.

Lemma f64_take_cons_S (v : float) (a : list float) (idx : list nat) :
  take (v :: a) (map S idx) = take a idx.
Proof.
  unfold take. induction idx as [|i idx IH]; simpl; [reflexivity|].
  now rewrite IH.
Qed.

Lemma f64_take_where (c : float -> bool) (f Pxx : list float) :
  length f = length Pxx ->
  take Pxx (Np.where_ (map c f)) =
    Ok (map snd (filter (fun p => c (fst p)) (combine f Pxx))) /\
  take f (Np.where_ (map c f)) =
    Ok (map fst (filter (fun p => c (fst p)) (combine f Pxx))).
Proof.
  revert Pxx. induction f as [|x f IH]; intros [|p Pxx] Hlen;
    try discriminate; [split; reflexivity|].
  injection Hlen as Hlen. destruct (IH Pxx Hlen) as [IH1 IH2].
  change (map c (x :: f)) with (c x :: map c f). rewrite where_cons.
  cbn [combine filter fst].
  destruct (c x); cbn [app map fst snd].
  - change (take (p :: Pxx) (0%nat :: map S (Np.where_ (map c f))))
      with (l <- take (p :: Pxx) (map S (Np.where_ (map c f))) ;; Ok (p :: l)).
    change (take (x :: f) (0%nat :: map S (Np.where_ (map c f))))
      with (l <- take (x :: f) (map S (Np.where_ (map c f))) ;; Ok (x :: l)).
    rewrite !f64_take_cons_S, IH1, IH2. split; reflexivity.
  - rewrite !f64_take_cons_S, IH1, IH2. split; reflexivity.
Qed.

Lemma f64_compress_aux (c : float -> bool) (f Pxx : list float) :
  length f = length Pxx ->
  compress_aux (map c f) Pxx =
    map snd (filter (fun p => c (fst p)) (combine f Pxx)) /\
  compress_aux (map c f) f =
    map fst (filter (fun p => c (fst p)) (combine f Pxx)).
Proof.
  revert Pxx. induction f as [|x f IH]; intros [|p Pxx] Hlen;
    try discriminate; [split; reflexivity|].
  injection Hlen as Hlen. destruct (IH Pxx Hlen) as [IH1 IH2].
  simpl. destruct (c x); simpl; rewrite IH1, IH2; split; reflexivity.
Qed.

(** The two integrals as integrals over the selected points. *)
Lemma f64_raw_total_points (f Pxx : list float) :
  length f = length Pxx ->
  raw_total f Pxx =
    Ok (let pts := filter (fun p => geb (fst p) (Fin 20)) (combine f Pxx) in
        trapezoid (map snd pts) (map fst pts)).
Proof.
  intros Hlen. unfold raw_total, compress.
  rewrite !length_map, <- Hlen, Nat.eqb_refl. cbn [Py.bind].
  destruct (f64_compress_aux (fun x => geb x (Fin 20)) f Pxx Hlen) as [-> ->].
  reflexivity.
Qed.

Lemma f64_band_energy_points (f Pxx : list float) (lo hi : float) :
  length f = length Pxx ->
  band_energy f Pxx lo hi =
    Ok (let pts := filter (fun p => geb (fst p) lo && ltb (fst p) hi)
                          (combine f Pxx) in
        trapezoid (map snd pts) (map fst pts)).
Proof.
  intros Hlen. unfold band_energy, F64.band_idx.
  destruct (f64_take_where (fun x => geb x lo && ltb x hi) f Pxx Hlen)
    as [Hs Hf].
  destruct (Nat.eqb (length (Np.where_ (map (fun x => geb x lo && ltb x hi) f))) 0)
    eqn:E.
  - apply Nat.eqb_eq, length_zero_iff_nil in E. rewrite E in Hs.
    cbn in Hs. injection Hs as Hs.
    symmetry in Hs. apply map_eq_nil in Hs. cbv zeta. rewrite Hs. reflexivity.
  - rewrite Hs, Hf. reflexivity.
Qed.

(** Zero power over finite non-negative frequencies integrates to zero:
    no difference of two such frequencies leaves the range. *)
Lemma f64_trapezoid_silent (pts : list (float * float)) :
  Forall (fun p => (exists a, fst p = Fin a /\ 0 <= a /\ a < huge) /\
                   (exists z, snd p = Fin z /\ z == 0)) pts ->
  exists q, trapezoid (map snd pts) (map fst pts) = Fin q /\ q == 0.
Proof.
  induction pts as [|[x0 y0] [|[x1 y1] pts] IH]; intros H.
  - exists 0. split; reflexivity.
  - exists 0. split; reflexivity.
  - inversion H as [|? ? H0 H']; subst.
    destruct (IH H') as (q & Hq & Hq0).
    inversion H' as [|? ? H1 _]; subst.
    destruct H0 as [(a0 & Ea0 & Ha0 & Hb0) (z0 & Ez0 & Hz0)].
    destruct H1 as [(a1 & Ea1 & Ha1 & Hb1) (z1 & Ez1 & Hz1)].
    cbn [fst snd] in *. subst x0 y0 x1 y1.
    change (trapezoid (map snd ((Fin a0, Fin z0) :: (Fin a1, Fin z1) :: pts))
                      (map fst ((Fin a0, Fin z0) :: (Fin a1, Fin z1) :: pts)))
      with (add (half (mul (sub (Fin a1) (Fin a0)) (add (Fin z1) (Fin z0))))
                (trapezoid (map snd ((Fin a1, Fin z1) :: pts))
                           (map fst ((Fin a1, Fin z1) :: pts)))).
    rewrite Hq. cbn [sub add].
    rewrite (round_in_range (a1 - a0))
      by (apply Qabs_Qlt_condition; split; lra).
    rewrite (round_zero (z1 + z0)) by lra.
    cbn [mul].
    rewrite (round_zero ((a1 - a0) * (z1 + z0))) by (rewrite Hz1, Hz0; ring).
    cbn [half add].
    assert (E : (a1 - a0) * (z1 + z0) / 2 + q == 0)
      by (rewrite Hz1, Hz0, Hq0; field).
    rewrite (round_zero _ E). eexists. split; [reflexivity | exact E].
Qed.

Lemma f64_silent_points (f Pxx : list float) (c : float * float -> bool) :
  length f = length Pxx ->
  Forall (fun x => exists q, x = Fin q /\ 0 <= q /\ q < huge) f ->
  Forall (fun p => exists q, p = Fin q /\ q == 0) Pxx ->
  Forall (fun p => (exists a, fst p = Fin a /\ 0 <= a /\ a < huge) /\
                   (exists z, snd p = Fin z /\ z == 0))
         (filter c (combine f Pxx)).
Proof.
  intros Hlen Hf HP. apply Forall_forall. intros [x y] Hp.
  apply filter_In in Hp as [Hp _].
  pose proof (in_combine_l _ _ _ _ Hp) as Hx.
  pose proof (in_combine_r _ _ _ _ Hp) as Hy.
  rewrite Forall_forall in Hf, HP. split; cbn [fst snd]; auto.
Qed.

Lemma f64_truediv_nonzero (a total : float) :
  (forall q, total = Fin q -> ~ q == 0) ->
  exists pc, truediv a total = Ok pc.
Proof.
  intros Hnz. unfold truediv. destruct total as [q| |]; eauto.
  destruct (Qeq_bool q 0) eqn:E; eauto.
  apply Qeq_bool_iff in E. exfalso. exact (Hnz q eq_refl E).
Qed.

Lemma f64_total_nonzero (t : float) (q : Q) :
  (if leb t (Fin 0) then Fin epsilon else t) = Fin q -> ~ q == 0.
Proof.
  destruct (leb t (Fin 0)) eqn:E.
  - intros [= <-]. discriminate.
  - intros ->. cbn [leb] in E. intros H.
    assert (Hle : q <= 0) by lra. apply Qle_bool_iff in Hle. congruence.
Qed.

Lemma f64_overtones_name_finite (lo hi : Q) :
  exists name, overtones_name (Fin lo) (Fin hi) = Ok name.
Proof.
  unfold overtones_name. destruct (geb (Fin lo) (Fin 1000)); cbn; eauto.
Qed.

Lemma f64_overtones_name_refused (air_lo air_hi : float) :
  is_finite air_lo && is_finite air_hi = false ->
  overtones_name air_lo air_hi = Raise ValueError \/
  overtones_name air_lo air_hi = Raise OverflowError.
Proof.
  unfold overtones_name.
  destruct air_lo as [lo|s|], air_hi as [hi|s'|]; try discriminate; intros _;
    try destruct s; try destruct s';
    try destruct (geb (Fin lo) (Fin 1000)); cbn; auto.
Qed.

Lemma moderate_facts : 1 <= moderate /\ 200 * moderate * moderate < huge.
Proof.
  split; vm_compute; [discriminate | reflexivity].
Qed.

Lemma f64_combine_fin (fq pq : list Q) :
  combine (map Fin fq) (map Fin pq) =
  map (fun p => (Fin (fst p), Fin (snd p))) (combine fq pq).
Proof.
  revert pq. induction fq as [|x fq IH]; intros [|y pq]; try reflexivity.
  cbn [map combine fst snd]. now rewrite IH.
Qed.

Lemma f64_filter_fin (c : Q -> bool) (c' : float -> bool) (l : list (Q * Q)) :
  (forall x, c' (Fin x) = c x) ->
  filter (fun p => c' (fst p))
         (map (fun p => (Fin (fst p), Fin (snd p))) l) =
  map (fun p => (Fin (fst p), Fin (snd p))) (filter (fun p => c (fst p)) l).
Proof.
  intros Hc. induction l as [|[x y] l IH]; [reflexivity|].
  cbn [map filter fst snd]. rewrite Hc. destruct (c x); cbn [map fst snd];
    now rewrite IH.
Qed.

(** Over ordered points with values between 0 and [moderate], the float
    integral is the exact one: no step leaves the range. *)
Lemma f64_trapezoid_exact (pts : list (Q * Q)) :
  ordered_nonneg pts ->
  Forall (fun p => 0 <= fst p /\ fst p <= moderate /\ snd p <= moderate) pts ->
  trapezoid (map (fun p => Fin (snd p)) pts) (map (fun p => Fin (fst p)) pts)
    = Fin (trap pts) /\
  0 <= trap pts /\
  match pts with
  | [] => True
  | a :: _ => trap pts <= moderate * (moderate - fst a)
  end.
Proof.
  pose proof moderate_facts as [HM1 HM2]. pose proof huge_pos as HH.
  induction pts as [|[x0 y0] [|[x1 y1] pts] IH]; intros Hok Hb.
  - split; [reflexivity|]. split; [apply Qle_refl | exact I].
  - inversion Hb as [|? ? (B1 & B2 & B3) _]; subst. cbn [fst snd] in *.
    split; [reflexivity|]. split; [apply Qle_refl|].
    change (trap [(x0, y0)]) with 0. nra.
  - pose proof (trap_nonneg _ Hok) as Hnn.
    pose proof (ordered_nonneg_tail _ _ Hok) as Hok'.
    inversion Hb as [|? ? (B1 & B2 & B3) Hb']; subst.
    destruct (IH Hok' Hb') as (IHe & IH0 & IHb).
    inversion Hb' as [|? ? (C1 & C2 & C3) _]; subst.
    destruct Hok as [Hs Hp].
    inversion Hs as [|? ? _ Hhd]; subst.
    inversion Hhd as [|? ? Hle _]; subst. unfold freq_le in Hle.
    inversion Hp as [|? ? P0 Hp']; subst. inversion Hp' as [|? ? P1 _]; subst.
    cbn [fst snd] in *.
    rewrite trap_cons2 in *. cbn [fst snd] in *.
    set (rest := trap ((x1, y1) :: pts)) in *.
    change (trapezoid (map (fun p => Fin (snd p)) ((x0, y0) :: (x1, y1) :: pts))
                      (map (fun p => Fin (fst p)) ((x0, y0) :: (x1, y1) :: pts)))
      with (add (half (mul (sub (Fin x1) (Fin x0)) (add (Fin y1) (Fin y0))))
                (trapezoid (map (fun p => Fin (snd p)) ((x1, y1) :: pts))
                           (map (fun p => Fin (fst p)) ((x1, y1) :: pts)))).
    rewrite IHe. cbn [sub add].
    rewrite (round_in_range (x1 - x0))
      by (apply Qabs_Qlt_condition; split; nra).
    rewrite (round_in_range (y1 + y0))
      by (apply Qabs_Qlt_condition; split; nra).
    cbn [mul].
    assert (Hprod : 0 <= (x1 - x0) * (y1 + y0) /\
                    (x1 - x0) * (y1 + y0) <= (x1 - x0) * (2 * moderate)).
    { split; nra. }
    destruct Hprod as [Hp0 Hp1].
    rewrite (round_in_range ((x1 - x0) * (y1 + y0)))
      by (apply Qabs_Qlt_condition; split; nra).
    cbn [half add].
    assert (Hhalf : (x1 - x0) * (y1 + y0) / 2 <= (x1 - x0) * moderate).
    { apply Qle_shift_div_r; [reflexivity | lra]. }
    assert (Hhalf0 : 0 <= (x1 - x0) * (y1 + y0) / 2).
    { apply Qle_shift_div_l; [reflexivity | lra]. }
    assert (Hsum : (x1 - x0) * (y1 + y0) / 2 + rest
                   <= moderate * (moderate - x0)) by nra.
    rewrite (round_in_range ((x1 - x0) * (y1 + y0) / 2 + rest))
      by (apply Qabs_Qlt_condition; split; nra).
    split; [reflexivity|]. split; [lra | exact Hsum].
Qed.

Lemma f64_trapezoid_exact_bound (pts : list (Q * Q)) :
  ordered_nonneg pts ->
  Forall (fun p => 0 <= fst p /\ fst p <= moderate /\ snd p <= moderate) pts ->
  trap pts <= moderate * moderate.
Proof.
  intros Hok Hb. destruct (f64_trapezoid_exact pts Hok Hb) as (_ & _ & H).
  pose proof moderate_facts as [HM1 _].
  destruct pts as [|a pts]; [change (trap []) with 0; nra|].
  inversion Hb as [|? ? (B1 & _) _]; subst. nra.
Qed.

Lemma f64_selection_exact (c : Q -> bool) (c' : float -> bool)
      (fq pq : list Q) :
  (forall x, c' (Fin x) = c x) ->
  StronglySorted Qle fq ->
  Forall (fun x => 0 <= x /\ x <= moderate) fq ->
  Forall (fun p => 0 <= p /\ p <= moderate) pq ->
  (let pts := filter (fun p => c' (fst p))
                     (combine (map Fin fq) (map Fin pq)) in
   trapezoid (map snd pts) (map fst pts)) =
  Fin (trap (filter (fun p => c (fst p)) (combine fq pq))).
Proof.
  intros Hc Hs Hf Hp. cbv zeta.
  rewrite f64_combine_fin, (f64_filter_fin c c' _ Hc), !map_map.
  cbn [fst snd].
  apply f64_trapezoid_exact.
  - apply ordered_nonneg_filter, ordered_nonneg_combine; [exact Hs|].
    eapply Forall_impl; [|exact Hp]. now intros p [? _].
  - apply Forall_forall. intros [x y] Hin.
    apply filter_In in Hin as [Hin _].
    pose proof (in_combine_l _ _ _ _ Hin) as Hx.
    pose proof (in_combine_r _ _ _ _ Hin) as Hy.
    rewrite Forall_forall in Hf, Hp.
    destruct (Hf x Hx), (Hp y Hy). cbn [fst snd]. auto.
Qed.

(** C4, as the code has it.  Floats are taken with their infinities and
    nan.  For two arrays of one length, whatever their values, and two
    finite band edges, [summarize_bands] returns: no indexing error and
    no division by zero.  The denominator is the integral over the
    samples at 20 Hz and above, or 1e-12 when that integral is <= 0, so
    it is never zero; every percentage is the float quotient
    [100 * energy / total].  On silence, all power values zero over
    finite non-negative frequencies, the denominator is 1e-12 and every
    percentage is 0.  A band edge that is nan or infinite, which the
    command line accepts, makes the function raise [ValueError] or
    [OverflowError] when it builds the band label.  Finite percentages
    are not promised in general, but they hold on an ordinary spectrum:
    with non-decreasing frequencies and power values between 0 and
    [2^500], the total is finite and positive, every energy is the
    exact integral, and a band that starts at 20 Hz or above has a
    finite percentage between 0 and 100. *)
Theorem summarize_bands_never_divides_by_zero
  (f Pxx : list float) (lo hi : Q) (Hlen : length f = length Pxx) :
  (exists rows t total name,
     F64.summarize_bands f Pxx (Fin lo) (Fin hi) =
       Ok (rows, total,
           [ (Bass_60_250, Fin 60, Fin 250);
             (Formant_400_1500, Fin 400, Fin 1500);
             (name, Fin lo, Fin hi) ]) /\
     F64.raw_total f Pxx = Ok t /\
     (leb t (Fin 0) = true -> total = Fin epsilon) /\
     (leb t (Fin 0) = false -> total = t) /\
     (forall q, total = Fin q -> ~ q == 0) /\
     map F64.lo_hz rows = [Fin 60; Fin 400; Fin lo] /\
     map F64.hi_hz rows = [Fin 250; Fin 1500; Fin hi] /\
     Forall (fun r =>
               F64.band_energy f Pxx (F64.lo_hz r) (F64.hi_hz r)
                 = Ok (F64.energy r) /\
               truediv (mul (Fin 100) (F64.energy r)) total
                 = Ok (F64.pct r)) rows /\
     (Forall (fun x => exists q, x = Fin q /\ 0 <= q /\ q < huge) f ->
      Forall (fun p => exists q, p = Fin q /\ q == 0) Pxx ->
      total = Fin epsilon /\
      Forall (fun r => exists q, F64.pct r = Fin q /\ q == 0) rows) /\
     (forall fq pq,
        f = map Fin fq -> Pxx = map Fin pq ->
        StronglySorted Qle fq ->
        Forall (fun x => 0 <= x /\ x <= moderate) fq ->
        Forall (fun p => 0 <= p /\ p <= moderate) pq ->
        exists T,
          total = Fin T /\ 0 < T /\
          Forall (fun r =>
                    exists l h,
                      F64.lo_hz r = Fin l /\ F64.hi_hz r = Fin h /\
                      F64.energy r =
                        Fin (trap (filter (in_band l h) (combine fq pq))) /\
                      (20 <= l ->
                       exists p, F64.pct r = Fin p /\ 0 <= p /\ p <= 100))
                 rows)) /\
  (forall air_lo air_hi,
     is_finite air_lo && is_finite air_hi = false ->
     F64.summarize_bands f Pxx air_lo air_hi = Raise ValueError \/
     F64.summarize_bands f Pxx air_lo air_hi = Raise OverflowError).
Proof.
  pose proof (f64_raw_total_points f Pxx Hlen) as Ht. cbv zeta in Ht.
  set (t := trapezoid _ _) in Ht.
  set (total := if leb t (Fin 0) then Fin epsilon else t).
  assert (Hnz : forall q, total = Fin q -> ~ q == 0)
    by (intros q; apply f64_total_nonzero).
  assert (Hrow : forall name blo bhi,
            exists e pc,
              F64.band_energy f Pxx blo bhi = Ok e /\
              truediv (mul (Fin 100) e) total = Ok pc /\
              (Forall (fun x => exists q, x = Fin q /\ 0 <= q /\ q < huge) f ->
               Forall (fun p => exists q, p = Fin q /\ q == 0) Pxx ->
               total = Fin epsilon ->
               exists q, pc = Fin q /\ q == 0) /\
              (forall fq pq l h T,
                 f = map Fin fq -> Pxx = map Fin pq ->
                 StronglySorted Qle fq ->
                 Forall (fun x => 0 <= x /\ x <= moderate) fq ->
                 Forall (fun p => 0 <= p /\ p <= moderate) pq ->
                 blo = Fin l -> bhi = Fin h ->
                 total = Fin T -> 0 < T ->
                 (20 <= l ->
                  trap (filter (in_band l h) (combine fq pq)) <= T) ->
                 e = Fin (trap (filter (in_band l h) (combine fq pq))) /\
                 (20 <= l ->
                  exists p, pc = Fin p /\ 0 <= p /\ p <= 100)) /\
              (e0 <- F64.band_energy f Pxx blo bhi ;;
               pc0 <- truediv (mul (Fin 100) e0) total ;;
               Ok (F64.mk_row name blo bhi e0 pc0)) =
              Ok (F64.mk_row name blo bhi e pc)).
  { intros name blo bhi.
    pose proof (f64_band_energy_points f Pxx blo bhi Hlen) as He.
    cbv zeta in He. set (e := trapezoid _ _) in He.
    destruct (f64_truediv_nonzero (mul (Fin 100) e) total Hnz) as [pc Hpc].
    exists e, pc. split; [exact He|]. split; [exact Hpc|]. split; [|split].
    - intros Hf HP Htot.
      destruct (f64_trapezoid_silent _
                  (f64_silent_points f Pxx
                     (fun p => geb (fst p) blo && ltb (fst p) bhi) Hlen Hf HP))
        as (q & Hq & Hq0).
      fold e in Hq. rewrite Hq, Htot in Hpc. cbn [mul truediv] in Hpc.
      rewrite (round_zero (100 * q)) in Hpc by (rewrite Hq0; ring).
      change (Qeq_bool epsilon 0) with false in Hpc.
      assert (E : 100 * q / epsilon == 0)
        by (rewrite Hq0; unfold Qdiv; ring).
      rewrite (round_zero _ E) in Hpc. injection Hpc as <-.
      eexists. split; [reflexivity | exact E].
    - intros fq pq l h T Ef EP Hs Hf HP El Eh Etot HT Hle.
      pose proof moderate_facts as [HM1 HM2].
      assert (Hok : ordered_nonneg (filter (in_band l h) (combine fq pq))).
      { apply ordered_nonneg_filter, ordered_nonneg_combine; [exact Hs|].
        eapply Forall_impl; [|exact HP]. now intros p [? _]. }
      assert (Hbd : Forall (fun p => 0 <= fst p /\ fst p <= moderate /\
                                     snd p <= moderate)
                           (filter (in_band l h) (combine fq pq))).
      { apply Forall_forall. intros [x y] Hin.
        apply filter_In in Hin as [Hin _].
        pose proof (in_combine_l _ _ _ _ Hin) as Hx.
        pose proof (in_combine_r _ _ _ _ Hin) as Hy.
        rewrite Forall_forall in Hf, HP.
        destruct (Hf x Hx), (HP y Hy). cbn [fst snd]. auto. }
      pose proof (trap_nonneg _ Hok) as He0.
      pose proof (f64_trapezoid_exact_bound _ Hok Hbd) as He1.
      assert (Ee : e = Fin (trap (filter (in_band l h) (combine fq pq)))).
      { unfold e. subst f Pxx blo bhi.
        apply (f64_selection_exact (fun x => Np.geb x l && Np.ltb x h)
                 (fun x => geb x (Fin l) && ltb x (Fin h)));
          [reflexivity | assumption | assumption | assumption]. }
      split; [exact Ee|]. intros Hlo. specialize (Hle Hlo).
      set (eq := trap (filter (in_band l h) (combine fq pq))) in *.
      rewrite Ee, Etot in Hpc. cbn [mul truediv] in Hpc.
      rewrite (round_in_range (100 * eq)) in Hpc
        by (apply Qabs_Qlt_condition; split; nra).
      assert (ET : Qeq_bool T 0 = false).
      { destruct (Qeq_bool T 0) eqn:E0; [|reflexivity].
        apply Qeq_bool_iff in E0. lra. }
      rewrite ET in Hpc.
      assert (Hq0 : 0 <= 100 * eq / T) by (apply Qle_shift_div_l; lra).
      assert (Hq1 : 100 * eq / T <= 100) by (apply Qle_shift_div_r; lra).
      rewrite (round_in_range (100 * eq / T)) in Hpc
        by (apply Qabs_Qlt_condition; split; nra).
      injection Hpc as <-. eexists. split; [reflexivity|]. split; assumption.
    - rewrite He. cbn [Py.bind]. rewrite Hpc. reflexivity. }
  split.
  - destruct (f64_overtones_name_finite lo hi) as [name Hname].
    destruct (Hrow Bass_60_250 (Fin 60) (Fin 250))
      as (e1 & p1 & E1 & P1 & S1 & X1 & R1).
    destruct (Hrow Formant_400_1500 (Fin 400) (Fin 1500))
      as (e2 & p2 & E2 & P2 & S2 & X2 & R2).
    destruct (Hrow name (Fin lo) (Fin hi))
      as (e3 & p3 & E3 & P3 & S3 & X3 & R3).
    exists [F64.mk_row Bass_60_250 (Fin 60) (Fin 250) e1 p1;
            F64.mk_row Formant_400_1500 (Fin 400) (Fin 1500) e2 p2;
            F64.mk_row name (Fin lo) (Fin hi) e3 p3], t, total, name.
    split.
    { unfold F64.summarize_bands. rewrite Ht. cbn [Py.bind]. fold total.
      unfold F64.band_defs. rewrite Hname. cbn [Py.bind mapM].
      rewrite R1. cbn [Py.bind]. rewrite R2. cbn [Py.bind]. rewrite R3.
      reflexivity. }
    split; [exact Ht|].
    split; [intros E; unfold total; now rewrite E|].
    split; [intros E; unfold total; now rewrite E|].
    split; [exact Hnz|].
    split; [reflexivity|]. split; [reflexivity|].
    split; [repeat constructor; assumption|].
    split.
    { intros Hf HP.
    assert (Htot : total = Fin epsilon).
    { destruct (f64_trapezoid_silent _
                  (f64_silent_points f Pxx
                     (fun p => geb (fst p) (Fin 20)) Hlen Hf HP))
        as (q & Hq & Hq0).
      unfold total. fold t in Hq. rewrite Hq. cbn [leb].
      assert (Hle : q <= 0) by lra. apply Qle_bool_iff in Hle.
      now rewrite Hle. }
    split; [exact Htot|].
    repeat constructor; cbn [F64.pct]; auto. }
    intros fq pq Ef EP Hs Hf HP.
    set (pts := combine fq pq).
    set (tq := trap (filter (at_least 20) pts)).
    assert (Hokp : ordered_nonneg pts).
    { apply ordered_nonneg_combine; [exact Hs|].
      eapply Forall_impl; [|exact HP]. now intros p [? _]. }
    assert (Et : t = Fin tq).
    { unfold t, tq, pts. subst f Pxx.
      apply (f64_selection_exact (fun x => Np.geb x 20)
               (fun x => geb x (Fin 20)));
        [reflexivity | assumption | assumption | assumption]. }
    exists (if Np.leb tq 0 then epsilon else tq).
    pose proof (total_pos tq) as HT.
    assert (Etot : total = Fin (if Np.leb tq 0 then epsilon else tq)).
    { unfold total. rewrite Et. cbn [leb]. unfold Np.leb.
      destruct (Qle_bool tq 0); reflexivity. }
    assert (Hband : forall l h, 20 <= l ->
              trap (filter (in_band l h) pts)
                <= (if Np.leb tq 0 then epsilon else tq)).
    { intros l h Hl.
      assert (Het : trap (filter (in_band l h) pts) <= tq).
      { unfold tq. rewrite <- (band_above_threshold l h 20 pts) by exact Hl.
        apply band_bounds. now apply ordered_nonneg_filter. }
      destruct (Np.leb tq 0) eqn:L; [|exact Het].
      apply leb_true in L. pose proof epsilon_pos. lra. }
    split; [exact Etot|]. split; [exact HT|].
    repeat constructor; cbn [F64.lo_hz F64.hi_hz F64.energy F64.pct].
    + exists 60, 250.
      destruct (X1 fq pq 60 250 _ Ef EP Hs Hf HP eq_refl eq_refl Etot HT
                  (Hband 60 250)) as [A B].
      repeat split; auto.
    + exists 400, 1500.
      destruct (X2 fq pq 400 1500 _ Ef EP Hs Hf HP eq_refl eq_refl Etot HT
                  (Hband 400 1500)) as [A B].
      repeat split; auto.
    + exists lo, hi.
      destruct (X3 fq pq lo hi _ Ef EP Hs Hf HP eq_refl eq_refl Etot HT
                  (Hband lo hi)) as [A B].
      repeat split; auto.
  - intros air_lo air_hi Hedge.
    unfold F64.summarize_bands. rewrite Ht. cbn [Py.bind].
    unfold F64.band_defs.
    destruct (f64_overtones_name_refused air_lo air_hi Hedge) as [-> | ->];
      cbn [Py.bind]; auto.
Qed.

Lemma summarize_bands_never_divides_by_zero_witness :
  exists rows total name,
    F64.summarize_bands
      [F64.Fin 0; F64.Fin 50; F64.Fin 100; F64.Fin 150]
      [F64.Fin 0; F64.Fin 0; F64.Fin 0; F64.Fin 0]
      (F64.Fin 2000) (F64.Fin 8000) =
      Ok (rows, total,
          [ (Bass_60_250, F64.Fin 60, F64.Fin 250);
            (Formant_400_1500, F64.Fin 400, F64.Fin 1500);
            (name, F64.Fin 2000, F64.Fin 8000) ]) /\
    total = F64.Fin epsilon /\
    length rows = 3%nat /\
    Forall (fun r => exists q, F64.pct r = F64.Fin q /\ q == 0) rows.
Proof.
  destruct (summarize_bands_never_divides_by_zero
              [F64.Fin 0; F64.Fin 50; F64.Fin 100; F64.Fin 150]
              [F64.Fin 0; F64.Fin 0; F64.Fin 0; F64.Fin 0] 2000 8000 eq_refl)
    as [(rows & t & total & name & Hs & _ & _ & _ & _ & Hlo & _ & _ & Hsil & _) _].
  destruct Hsil as [Htot Hpct].
  - repeat constructor; eexists; (split; [reflexivity|]);
      split; try (apply Qle_refl); try discriminate; reflexivity.
  - repeat constructor; eexists; split; reflexivity.
  - exists rows, total, name. split; [exact Hs|]. split; [exact Htot|].
    split; [|exact Hpct].
    rewrite <- (length_map F64.lo_hz), Hlo. reflexivity.
Defined.

(** C4, as stated, fails.  The two power values [2^1020] are floats in
    range, yet the one panel between 70 and 80 Hz is [10 * 2^1021], out
    of range: the integral is infinite, so is the Bass energy, and the
    Bass percentage is infinity over infinity, nan.  Nothing is raised. *)
Theorem pct_not_finite_on_overflow :
  Qabs (inject_Z (2 ^ 1020)) < F64.huge /\
  exists r2 r3 defs,
    F64.summarize_bands
      [F64.Fin 70; F64.Fin 80]
      [F64.Fin (inject_Z (2 ^ 1020)); F64.Fin (inject_Z (2 ^ 1020))]
      (F64.Fin 2000) (F64.Fin 8000) =
    Ok ([F64.mk_row Bass_60_250 (F64.Fin 60) (F64.Fin 250)
                    (F64.Inf false) F64.NaN; r2; r3],
        F64.Inf false, defs).
Proof.
  split; [reflexivity|].
  eexists _, _, _. vm_compute. reflexivity.
Qed.

End Overflow.

(* ------------------------------------------------------------------ *)
(** ** The sum of the percentages *)


(** C2, as the code has it.  Let the frequencies be non-decreasing and the
    power values non-negative.  If the Overtones band [air_lo, air_hi)
    overlaps neither Bass [60, 250) nor Formant [400, 1500), and does not
    start below the 20 Hz cutoff of the denominator, the percentages of the
    three bands sum to at most 100 (in exact arithmetic). *)
Theorem pct_sum_at_most_100
  (f Pxx : list Q) (air_lo air_hi : Q)
  (Hlen : length f = length Pxx)
  (Hsorted : StronglySorted Qle f)
  (Hnonneg : Forall (Qle 0) Pxx)
  (Hdisjoint : (20 <= air_lo /\ air_hi <= 60) \/
               (250 <= air_lo /\ air_hi <= 400) \/
               1500 <= air_lo) :
  exists rows total,
    summarize_bands f Pxx air_lo air_hi =
      Ok (rows, total, band_defs air_lo air_hi) /\
    sum_pct rows <= 100.
Proof.
  pose proof (summarize_bands_points f Pxx air_lo air_hi Hlen) as Hs.
  cbv zeta in Hs. eexists _, _. split; [exact Hs|].
  pose proof (ordered_nonneg_combine f Pxx Hsorted Hnonneg) as Hok.
  set (pts := combine f Pxx) in *.
  set (T := filter (at_least 20) pts).
  assert (HT : ordered_nonneg T) by now apply ordered_nonneg_filter.
  set (t := trap T).
  unfold band_defs, sum_pct. cbn [map fold_right pct fst snd].
  assert (Hlo : 20 <= air_lo) by (destruct Hdisjoint as [H|[H|H]]; lra).
  rewrite <- (band_above_threshold 60 250 20 pts) by lra.
  rewrite <- (band_above_threshold 400 1500 20 pts) by lra.
  rewrite <- (band_above_threshold air_lo air_hi 20 pts) by exact Hlo.
  fold T.
  destruct (band_bounds 60 250 T HT) as [H1 _].
  destruct (band_bounds 400 1500 T HT) as [H2 _].
  destruct (band_bounds air_lo air_hi T HT) as [H3 _].
  assert (Hsum : trap (filter (in_band 60 250) T)
                 + trap (filter (in_band 400 1500) T)
                 + trap (filter (in_band air_lo air_hi) T) <= t).
  { unfold t. destruct Hdisjoint as [[Ha Hb]|[[Ha Hb]|Ha]].
    - pose proof (three_bands air_lo air_hi 60 250 400 1500 T HT
                    ltac:(lra) ltac:(lra) ltac:(lra)). lra.
    - pose proof (three_bands 60 250 air_lo air_hi 400 1500 T HT
                    ltac:(lra) ltac:(lra) ltac:(lra)). lra.
    - pose proof (three_bands 60 250 400 1500 air_lo air_hi T HT
                    ltac:(lra) ltac:(lra) ltac:(lra)). lra. }
  set (e1 := trap (filter (in_band 60 250) T)) in *.
  set (e2 := trap (filter (in_band 400 1500) T)) in *.
  set (e3 := trap (filter (in_band air_lo air_hi) T)) in *.
  pose proof (total_pos t) as Hpos.
  set (total := if Np.leb t 0 then epsilon else t) in *.
  assert (Hle : e1 + e2 + e3 <= total).
  { unfold total. destruct (Np.leb t 0) eqn:E; [|exact Hsum].
    apply leb_true in E. pose proof epsilon_pos. lra. }
  assert (Heq : 100 * e1 / total + (100 * e2 / total + (100 * e3 / total + 0))
                == (100 * (e1 + e2 + e3)) / total) by (field; lra).
  rewrite Heq. apply Qle_shift_div_r; [exact Hpos | lra].
Qed.

Lemma pct_sum_at_most_100_witness :
  exists rows total,
    summarize_bands [0; 100; 200; 3000; 4000] [0; 1; 1; 2; 0] 2000 8000 =
      Ok (rows, total, band_defs 2000 8000) /\
    sum_pct rows <= 100.
Proof.
  apply (pct_sum_at_most_100 [0; 100; 200; 3000; 4000] [0; 1; 1; 2; 0] 2000 8000).
  - reflexivity.
  - repeat constructor; discriminate.
  - repeat constructor; discriminate.
  - right. right. discriminate.
Defined.

(** C2, as stated, fails.  With [--air-low 1000] the Overtones band
    overlaps the Formant band and the samples between 1000 and 1500 Hz are
    counted twice: the percentages sum to 900/7, about 128.6.  With
    [air_lo = 0] the Overtones band holds samples below 20 Hz, which the
    denominator leaves out: the percentages sum to 300.  Both band
    definitions are valid ([air_lo < air_hi]), both spectra are ordered and
    non-negative. *)
Lemma pct_sum_can_exceed_100 :
  (StronglySorted Qle [0; 500; 1000; 1250; 2000] /\
   Forall (Qle 0) [0; 0; 1; 1; 0] /\
   1000 < 8000 /\
   exists rows total defs,
     summarize_bands [0; 500; 1000; 1250; 2000] [0; 0; 1; 1; 0] 1000 8000 =
       Ok (rows, total, defs) /\
     sum_pct rows == 900 # 7 /\
     ~ sum_pct rows <= 100 + (1 # 1000000)) /\
  (StronglySorted Qle [0; 10; 20; 30] /\
   Forall (Qle 0) [1; 1; 1; 1] /\
   0 < 50 /\
   exists rows total defs,
     summarize_bands [0; 10; 20; 30] [1; 1; 1; 1] 0 50 =
       Ok (rows, total, defs) /\
     sum_pct rows == 300 /\
     ~ sum_pct rows <= 100 + (1 # 1000000)).
Proof.
  split.
  - split; [repeat constructor; discriminate|].
    split; [repeat constructor; discriminate|].
    split; [reflexivity|].
    eexists _, _, _. split; [reflexivity|].
    split; [reflexivity|]. apply Qlt_not_le. reflexivity.
  - split; [repeat constructor; discriminate|].
    split; [repeat constructor; discriminate|].
    split; [reflexivity|].
    eexists _, _, _. split; [reflexivity|].
    split; [reflexivity|]. apply Qlt_not_le. reflexivity.
Qed.

(* ------------------------------------------------------------------ *)
(** ** The two decoders of 16-bit PCM *)

Section Decoders.

Import Loader.

Lemma byte_val_range (b : Init.Byte.byte) : (0 <= byte_val b <= 255)%Z.
Proof.
  unfold byte_val. pose proof (Strings.Byte.to_N_bounded b). lia.
Qed.

Lemma reshape_rows_Forall {A : Type} (P : A -> Prop) (fuel k : nat)
      (a : list A) (rows : list (list A)) :
  Forall P a -> reshape_rows fuel k a = Ok rows ->
  Forall (fun r => length r = k /\ Forall P r) rows.
Proof.
  revert a rows. induction fuel as [|fuel IH]; intros a rows Ha.
  - destruct a; simpl; [intros [= <-]; constructor | discriminate].
  - destruct a as [|x a]; [simpl; intros [= <-]; constructor|].
    cbn [reshape_rows]. destruct (Nat.ltb (length (x :: a)) k) eqn:E;
      [discriminate|].
    apply Nat.ltb_ge in E.
    destruct (reshape_rows fuel k (skipn k (x :: a))) as [rest|e] eqn:Er;
      cbn [Py.bind]; [|discriminate].
    intros [= <-]. constructor.
    + split; [apply firstn_length_le; exact E|].
      apply Forall_forall. intros v Hv.
      rewrite Forall_forall in Ha. apply Ha.
      rewrite <- (firstn_skipn k (x :: a)). apply in_or_app. now left.
    + apply (IH (skipn k (x :: a))); [|exact Er].
      apply Forall_forall. intros v Hv.
      rewrite Forall_forall in Ha. apply Ha.
      rewrite <- (firstn_skipn k (x :: a)). apply in_or_app. now right.
Qed.

Lemma reshape_Forall {A : Type} (P : A -> Prop) (k : nat)
      (a : list A) (rows : list (list A)) :
  Forall P a -> reshape k a = Ok rows ->
  Forall (fun r => length r = k /\ Forall P r) rows.
Proof.
  unfold reshape. destruct (Nat.eqb k 0); [discriminate|].
  apply reshape_rows_Forall.
Qed.

Lemma reshape_rows_map {A B : Type} (g : A -> B) (fuel k : nat) (a : list A) :
  reshape_rows fuel k (map g a) =
  (rows <- reshape_rows fuel k a ;; Ok (map (map g) rows)).
Proof.
  revert a. induction fuel as [|fuel IH]; intros a.
  - destruct a; reflexivity.
  - destruct a as [|x a]; [reflexivity|].
    change (map g (x :: a)) with (g x :: map g a).
    cbn [reshape_rows]. cbn [length]. rewrite length_map.
    destruct (Nat.ltb (S (length a)) k); [reflexivity|].
    change (g x :: map g a) with (map g (x :: a)).
    rewrite skipn_map, IH, firstn_map.
    destruct (reshape_rows fuel k (skipn k (x :: a))); reflexivity.
Qed.

Lemma reshape_map {A B : Type} (g : A -> B) (k : nat) (a : list A) :
  reshape k (map g a) = (rows <- reshape k a ;; Ok (map (map g) rows)).
Proof.
  unfold reshape. destruct (Nat.eqb k 0); [reflexivity|].
  rewrite length_map. apply reshape_rows_map.
Qed.

Lemma signed16_range (u : Z) :
  (0 <= u < 65536)%Z -> (-32768 <= signed 16 u <= 32767)%Z.
Proof.
  intros H. unfold signed.
  change (2 ^ (16 - 1))%Z with 32768%Z. change (2 ^ 16)%Z with 65536%Z.
  destruct (Z.ltb u 32768) eqn:E; [apply Z.ltb_lt in E | apply Z.ltb_ge in E]; lia.
Qed.

Lemma frombuffer_int16_range (raw : list Init.Byte.byte) (ints : list Z) :
  frombuffer_int16 raw = Ok ints ->
  Forall (fun s => (-32768 <= s <= 32767)%Z) ints.
Proof.
  unfold frombuffer_int16, frombuffer.
  destruct (reshape 2 raw) as [rows|e] eqn:E; cbn [Py.bind]; [|discriminate].
  intros [= <-].
  pose proof (reshape_Forall (fun _ => True) 2 raw rows) as H.
  specialize (H ltac:(apply Forall_forall; auto) E).
  rewrite Forall_forall in H. apply Forall_forall. intros s Hs.
  apply in_map_iff in Hs as (u & <- & Hu).
  apply in_map_iff in Hu as (row & <- & Hrow).
  destruct (H row Hrow) as [Hl _].
  destruct row as [|b0 [|b1 [|b2 row]]]; try discriminate.
  apply signed16_range. cbn [le_uint].
  pose proof (byte_val_range b0). pose proof (byte_val_range b1). lia.
Qed.

End Decoders.


Section DecoderAgreement.

Import Loader.

Lemma sample_close (s : Z) :
  (-32768 <= s <= 32767)%Z ->
  close (inject_Z s / inject_Z (iinfo_max Int16)) (inject_Z s / 32768).
Proof.
  intros [H1 H2]. rewrite Zle_Qle in H1, H2.
  change (inject_Z (iinfo_max Int16)) with 32767.
  change (inject_Z (-32768)) with (-32768) in H1.
  change (inject_Z 32767) with 32767 in H2.
  set (x := inject_Z s) in *. unfold close.
  assert (E : x / 32767 - x / 32768 == x * (1 # 1073709056)) by field.
  rewrite E. split; lra.
Qed.

Lemma inject_length_cons {A : Type} (a : A) (l : list A) :
  inject_Z (Z.of_nat (length (a :: l))) == inject_Z (Z.of_nat (length l)) + 1.
Proof.
  cbn [length]. rewrite Nat2Z.inj_succ. unfold Z.succ.
  rewrite inject_Z_plus. reflexivity.
Qed.

Lemma inject_length_nonneg {A : Type} (l : list A) :
  0 <= inject_Z (Z.of_nat (length l)).
Proof.
  change 0 with (inject_Z 0). rewrite <- Zle_Qle. lia.
Qed.

Lemma sum_close (a b : list Q) :
  Forall2 close a b ->
  - (inject_Z (Z.of_nat (length a)) * (1 # 32767)) <= Np.sum a - Np.sum b /\
  Np.sum a - Np.sum b <= inject_Z (Z.of_nat (length a)) * (1 # 32767).
Proof.
  induction 1 as [|u v a b [H1 H2] _ [IH1 IH2]].
  - split; discriminate.
  - rewrite inject_length_cons. cbn [Np.sum fold_right].
    fold (Np.sum a). fold (Np.sum b). split; lra.
Qed.

Lemma mean_close (a b : list Q) :
  Forall2 close a b -> close (Np.mean a) (Np.mean b).
Proof.
  intros H. pose proof (sum_close a b H) as [H1 H2].
  pose proof (Forall2_length H) as Hlen.
  unfold Np.mean. rewrite <- Hlen.
  pose proof (inject_length_nonneg a) as Hn.
  set (n := inject_Z (Z.of_nat (length a))) in *.
  destruct (Qeq_dec n 0) as [E|E].
  - unfold close, Qdiv. rewrite E.
    assert (E0 : Np.sum a * / 0 - Np.sum b * / 0 == 0) by (unfold Qinv; simpl; ring).
    rewrite E0. split; discriminate.
  - assert (Hpos : 0 < n) by lra.
    assert (Ediff : Np.sum a / n - Np.sum b / n == (Np.sum a - Np.sum b) / n)
      by (field; exact E).
    unfold close. rewrite Ediff. split.
    + apply Qle_shift_div_l; [exact Hpos | lra].
    + apply Qle_shift_div_r; [exact Hpos | lra].
Qed.

Lemma mean_le (l : list Q) (c : Q) :
  0 <= c -> Forall (fun v => v <= c) l -> Np.mean l <= c.
Proof.
  intros Hc H.
  assert (Hsum : Np.sum l <= c * inject_Z (Z.of_nat (length l))).
  { induction H as [|v l Hv _ IH].
    - change (0 <= c * 0). lra.
    - rewrite inject_length_cons. cbn [Np.sum fold_right]. fold (Np.sum l). lra. }
  unfold Np.mean. pose proof (inject_length_nonneg l) as Hn.
  set (n := inject_Z (Z.of_nat (length l))) in *.
  destruct (Qeq_dec n 0) as [E|E].
  - unfold Qdiv. rewrite E.
    assert (E0 : Np.sum l * / 0 == 0) by (unfold Qinv; simpl; ring).
    now rewrite E0.
  - apply Qle_shift_div_r; [lra | exact Hsum].
Qed.

Lemma mean_sq_diff_close (a b : list Q) :
  Forall2 close a b ->
  mean_sq_diff a b <= (1 # 32767) * (1 # 32767).
Proof.
  intros H. unfold mean_sq_diff. apply mean_le; [discriminate|].
  induction H as [|u v a b [H1 H2] _ IH]; [constructor|].
  cbn [combine map]. constructor; [|exact IH].
  cbn [fst snd]. nra.
Qed.

Lemma map_close (ints : list Z) :
  Forall (fun s => (-32768 <= s <= 32767)%Z) ints ->
  Forall2 close
    (map (fun s => inject_Z s / inject_Z (iinfo_max Int16)) ints)
    (map (fun s => inject_Z s / 32768) ints).
Proof.
  induction 1 as [|s ints Hs _ IH]; [constructor|].
  cbn [map]. constructor; [now apply sample_close | exact IH].
Qed.

Lemma rows_close (rows : list (list Z)) :
  Forall (Forall (fun s => (-32768 <= s <= 32767)%Z)) rows ->
  Forall2 close
    (map Np.mean
         (map (map (fun s => inject_Z s / inject_Z (iinfo_max Int16))) rows))
    (map Np.mean (map (map (fun s => inject_Z s / 32768)) rows)).
Proof.
  induction 1 as [|r rows Hr _ IH]; [constructor|].
  cbn [map]. constructor; [|exact IH].
  apply mean_close. now apply map_close.
Qed.

(** C9. For a 16-bit PCM file, whose interleaved samples are [ints], the
    mono signal of the scipy tier (samples divided by 32767, the largest
    int16) and that of the [wave] tier (samples divided by 32768) have
    the same length, differ by at most 1/32767 sample by sample, and so
    their mean squared difference is at most (1e-3)^2: the RMS
    difference, the non-negative [r] with [r * r] equal to that mean, is
    at most 1e-3.  This holds for one channel and for several. *)
Theorem decoders_agree_on_int16
  (n_channels : nat) (sr : Z) (raw : list Init.Byte.byte)
  (ints : list Z) (y : wav_data)
  (Hraw : frombuffer_int16 raw = Ok ints)
  (Hy : scipy_int16 n_channels ints = Ok y) :
  exists a b,
    scipy_tier sr y = (a, sr) /\
    wave_tier n_channels 2 sr raw = Ok (b, sr) /\
    Forall2 close a b /\
    mean_sq_diff a b <= (1 # 1000) * (1 # 1000) /\
    (forall r, 0 <= r -> r * r == mean_sq_diff a b -> r <= 1 # 1000).
Proof.
  pose proof (frombuffer_int16_range raw ints Hraw) as Hrange.
  assert (Hfin : forall a b, Forall2 close a b ->
             mean_sq_diff a b <= (1 # 1000) * (1 # 1000) /\
             (forall r, 0 <= r -> r * r == mean_sq_diff a b -> r <= 1 # 1000)).
  { intros a b H. pose proof (mean_sq_diff_close a b H) as Hm.
    assert (Hd : (1 # 32767) * (1 # 32767) <= (1 # 1000) * (1 # 1000))
      by discriminate.
    split; [lra|]. intros r Hr Hrr. rewrite <- Hrr in Hm. nra. }
  unfold scipy_int16 in Hy. unfold wave_tier, decode_width.
  rewrite Hraw. cbn [Py.bind].
  destruct (Nat.ltb 1 n_channels) eqn:Ech.
  - destruct (reshape n_channels ints) as [rows|e] eqn:Er;
      cbn [Py.bind] in Hy; [|discriminate].
    injection Hy as <-.
    rewrite reshape_map, Er. cbn [Py.bind Py.try_except].
    pose proof (reshape_Forall _ _ _ _ Hrange Er) as Hrows.
    assert (Hrows' : Forall (Forall (fun s => (-32768 <= s <= 32767)%Z)) rows).
    { eapply Forall_impl; [|exact Hrows]. intros r [_ H]. exact H. }
    eexists _, _. split; [reflexivity|]. split; [reflexivity|].
    pose proof (rows_close rows Hrows') as Hc.
    split; [exact Hc | exact (Hfin _ _ Hc)].
  - injection Hy as <-. cbn [Py.try_except].
    eexists _, _. split; [reflexivity|]. split; [reflexivity|].
    pose proof (map_close ints Hrange) as Hc.
    split; [exact Hc | exact (Hfin _ _ Hc)].
Qed.

End DecoderAgreement.

Lemma decoders_agree_on_int16_witness :
  Loader.frombuffer_int16
    [Init.Byte.x00; Init.Byte.x80; Init.Byte.xff; Init.Byte.x7f;
     Init.Byte.x01; Init.Byte.x00; Init.Byte.xff; Init.Byte.xff] =
    Ok [-32768; 32767; 1; -1]%Z /\
  exists a b,
    Loader.scipy_tier 44100
      (Loader.IntData Loader.Int16
         (Loader.A2 [[-32768; 32767]; [1; -1]]%Z)) = (a, 44100%Z) /\
    Loader.wave_tier 2 2 44100
      [Init.Byte.x00; Init.Byte.x80; Init.Byte.xff; Init.Byte.x7f;
       Init.Byte.x01; Init.Byte.x00; Init.Byte.xff; Init.Byte.xff] =
      Ok (b, 44100%Z) /\
    Forall2 close a b /\
    Loader.mean_sq_diff a b <= (1 # 1000) * (1 # 1000) /\
    (forall r, 0 <= r -> r * r == Loader.mean_sq_diff a b -> r <= 1 # 1000).
Proof.
  split; [reflexivity|].
  exact (decoders_agree_on_int16 2 44100
           [Init.Byte.x00; Init.Byte.x80; Init.Byte.xff; Init.Byte.x7f;
            Init.Byte.x01; Init.Byte.x00; Init.Byte.xff; Init.Byte.xff]
           [-32768; 32767; 1; -1]%Z
           (Loader.IntData Loader.Int16
              (Loader.A2 [[-32768; 32767]; [1; -1]]%Z))
           eq_refl eq_refl).
Defined.

(* ------------------------------------------------------------------ *)
(** ** The padded length of the fallback transform *)

Section Padding.

Import Estimator.

Lemma shiftl_1 (a : nat) : Nat.shiftl a 1 = (2 * a)%nat.
Proof. rewrite Nat.shiftl_mul_pow2. simpl. lia. Qed.

Lemma pow2_pos (k : nat) : (1 <= 2 ^ k)%nat.
Proof. induction k; simpl; lia. Qed.

(** Started at [2 ^ k] with fuel for every doubling that can be needed,
    the loop ends because its test fails, on a power of two. *)
Lemma pad_loop_spec (fuel k n : nat) :
  (n - 2 ^ k <= fuel)%nat ->
  exists j, pad_loop fuel (2 ^ k) n = (2 ^ j)%nat /\
            (k <= j)%nat /\ (n <= 2 ^ j)%nat /\
            (j = k \/ (2 ^ (j - 1) < n)%nat).
Proof.
  revert k. induction fuel as [|fuel IH]; intros k Hfuel.
  - exists k. simpl. repeat split; [lia | lia | now left].
  - cbn [pad_loop]. destruct (Nat.ltb (2 ^ k) n) eqn:E.
    + apply Nat.ltb_lt in E. rewrite shiftl_1.
      change (2 * 2 ^ k)%nat with (2 ^ S k)%nat.
      destruct (IH (S k)) as (j & Hj & Hkj & Hn & Hmin).
      { pose proof (pow2_pos k). simpl. lia. }
      exists j. repeat split; [exact Hj | lia | exact Hn |].
      right. destruct Hmin as [-> | Hmin]; [|exact Hmin].
      simpl. now rewrite Nat.sub_0_r.
    + apply Nat.ltb_ge in E. exists k. repeat split; [lia | exact E | now left].
Qed.

Lemma least_pow2_unique (n j j' : nat) :
  (n <= 2 ^ j)%nat -> (j = 0%nat \/ (2 ^ (j - 1) < n)%nat) ->
  (n <= 2 ^ j')%nat -> (2 ^ j <= 2 ^ j')%nat.
Proof.
  intros Hn [-> | Hmin] Hn'; [simpl; apply pow2_pos|].
  apply Nat.pow_le_mono_r; [lia|].
  assert (H : (2 ^ (j - 1) < 2 ^ j')%nat) by lia.
  apply Nat.pow_lt_mono_r_iff in H; lia.
Qed.

Lemma next_pow2_spec (n : nat) :
  (exists j, next_pow2 n = (2 ^ j)%nat) /\
  (n <= next_pow2 n)%nat /\
  (forall j, (n <= 2 ^ j)%nat -> (next_pow2 n <= 2 ^ j)%nat) /\
  (forall fuel, (n <= fuel)%nat -> pad_loop fuel 1 n = next_pow2 n).
Proof.
  assert (Hall : forall fuel, (n <= fuel)%nat ->
            exists j, pad_loop fuel 1 n = (2 ^ j)%nat /\ (n <= 2 ^ j)%nat /\
                      (j = 0%nat \/ (2 ^ (j - 1) < n)%nat)).
  { intros fuel Hf. destruct (pad_loop_spec fuel 0 n) as (j & Hj & _ & Hn & Hm).
    - simpl. lia.
    - exists j. auto. }
  destruct (Hall n (Nat.le_refl n)) as (j & Hj & Hn & Hmin).
  fold (next_pow2 n) in Hj.
  split; [eauto|]. split; [now rewrite Hj|]. split.
  - intros j' Hj'. rewrite Hj. now apply (least_pow2_unique n).
  - intros fuel Hf. destruct (Hall fuel Hf) as (j' & Hj' & Hn' & Hmin').
    rewrite Hj, Hj'. apply Nat.le_antisymm; now apply (least_pow2_unique n).
Qed.

End Padding.

(* ------------------------------------------------------------------ *)
(** ** The two paths of [compute_psd] *)

Section Paths.

Import Estimator.

Lemma remove_mean_length (y : list Q) : length (remove_mean y) = length y.
Proof. unfold remove_mean. apply length_map. Qed.

(** C7. When the primary estimator raises, [compute_psd] returns the
    result of the fallback: the mean-removed signal, of length [n], is
    multiplied by the Hann window of length [n] and transformed by the
    one-sided real FFT of length [n_fft], the least power of two that is
    at least [n] (the loop that computes it ends by its test, whatever
    fuel at least [n] it is given); the power is the squared magnitude
    of each bin divided by (the sum of the squared window values times
    the sample rate); the frequencies are those of [rfftfreq] at
    [n_fft] with spacing [1 / sr]. *)
Theorem fallback_is_padded_hann_periodogram
  (lib : numlib) (y : list Q) (sr : Z) (e : exn)
  (Hsr : sr <> 0%Z)
  (Hwelch : welch lib (welch_call (remove_mean y) sr) = Raise e) :
  let ym := remove_mean y in
  let n := length ym in
  let n_fft := next_pow2 n in
  let win := hanning lib n in
  n = length y /\
  (exists j, n_fft = (2 ^ j)%nat) /\
  (n <= n_fft)%nat /\
  (forall j, (n <= 2 ^ j)%nat -> (n_fft <= 2 ^ j)%nat) /\
  (forall fuel, (n <= fuel)%nat -> pad_loop fuel 1 n = n_fft) /\
  compute_psd lib y sr =
    Ok (Np.rfftfreq n_fft (1 / inject_Z sr),
        map (fun c => abs2 c / (Np.sum (map (fun w => w * w) win) * inject_Z sr))
            (rfft lib (mul ym win) n_fft)).
Proof.
  intros ym n n_fft win.
  destruct (next_pow2_spec n) as (Hpow & Hge & Hleast & Hfuel).
  split; [apply remove_mean_length|].
  split; [exact Hpow|]. split; [exact Hge|]. split; [exact Hleast|].
  split; [exact Hfuel|].
  change (remove_mean y) with ym in Hwelch.
  unfold compute_psd. cbv zeta. change (remove_mean y) with ym.
  rewrite Hwelch. cbn [Py.try_except].
  unfold fallback, fallback_numerators, fallback_divisor.
  fold n. fold n_fft. fold win.
  rewrite truediv_nonzero.
  - cbn [Py.bind]. unfold n at 1. rewrite firstn_all, map_map. reflexivity.
  - change 0 with (inject_Z 0). rewrite inject_Z_injective. exact Hsr.
Qed.

Lemma fallback_is_padded_hann_periodogram_witness :
  next_pow2 (length (remove_mean [1; 0; -1; 0])) = 4%nat /\
  exists f Pxx,
    compute_psd numpy_small [1; 0; -1; 0] 8 = Ok (f, Pxx) /\
    Forall2 Qeq f [0; 2; 4] /\
    Forall2 Qeq Pxx [1 # 16; 1 # 16; 1 # 16].
Proof.
  split; [reflexivity|].
  destruct (fallback_is_padded_hann_periodogram
              numpy_small [1; 0; -1; 0] 8 ImportError
              ltac:(discriminate) eq_refl) as (_ & _ & _ & _ & _ & H).
  eexists _, _. split; [exact H|].
  split; repeat constructor.
Defined.

(** X27. [compute_psd] first subtracts the arithmetic
    mean of all the samples, then calls Welch's estimator on the result
    with the sample rate, a Hann window, segment length [min(len, 8192)]
    raised to at least 256, an overlap of half the segment length
    (integer half), constant detrending and spectrum scaling.  Whatever
    that call returns is the result, and when it raises the fallback
    runs.  With scipy installed, a signal of 256 samples or more passes
    scipy's checks with the segment length [min(len, 8192)]; for a
    shorter signal scipy cuts the requested 256 to the signal length:
    with 129 to 255 samples the estimate runs on one segment of that
    length and overlap 128, and with 1 to 128 samples scipy refuses the
    overlap, so the fallback runs. *)
Theorem primary_path_is_welch_call
  (lib : numlib) (core : welch_args -> result (list Q * list Q))
  (y : list Q) (sr : Z) :
  let ym := map (fun v => v - Np.sum y / inject_Z (Z.of_nat (length y))) y in
  let len := Z.of_nat (length y) in
  let seg := if Z.ltb len 256 then 256%Z
             else if Z.leb len 8192 then len else 8192%Z in
  let call := mk_welch ym sr Hann seg (seg / 2) Constant Spectrum in
  (forall r, welch lib call = Ok r -> compute_psd lib y sr = Ok r) /\
  (forall e, welch lib call = Raise e ->
             compute_psd lib y sr = fallback lib ym sr) /\
  ((length y < 256)%nat -> nperseg call = 256%Z /\ noverlap call = 128%Z) /\
  (256 <= seg <= 8192)%Z /\
  ((256 <= len)%Z ->
     scipy_segments call = Ok (Segments seg (seg / 2)) /\
     compute_psd (with_scipy core lib) y sr =
       Py.try_except (core call) (fun _ => fallback lib ym sr)) /\
  ((128 < len < 256)%Z ->
     scipy_segments call = Ok (Segments len 128) /\
     compute_psd (with_scipy core lib) y sr =
       Py.try_except
         (core (mk_welch ym sr Hann len 128 Constant Spectrum))
         (fun _ => fallback lib ym sr)) /\
  ((1 <= len <= 128)%Z ->
     scipy_segments call = Raise ValueError /\
     compute_psd (with_scipy core lib) y sr = fallback lib ym sr).
Proof.
  intros ym len seg call.
  assert (Hcall : welch_call (remove_mean y) sr = call).
  { unfold welch_call, call. rewrite remove_mean_length. fold len.
    replace (Z.max (Z.min len 8192) 256) with seg; [reflexivity|].
    unfold seg. destruct (Z.ltb len 256) eqn:E1.
    - apply Z.ltb_lt in E1. lia.
    - apply Z.ltb_ge in E1. destruct (Z.leb len 8192) eqn:E2.
      + apply Z.leb_le in E2. lia.
      + apply Z.leb_gt in E2. lia. }
  assert (Hseg : (256 <= seg <= 8192)%Z).
  { unfold seg. destruct (Z.ltb len 256) eqn:E1; [lia|].
    apply Z.ltb_ge in E1. destruct (Z.leb len 8192) eqn:E2; [|lia].
    apply Z.leb_le in E2. lia. }
  assert (Hlen : Z.of_nat (length ym) = len)
    by (unfold ym, len; now rewrite length_map).
  assert (Hfb : forall l, fallback (with_scipy core lib) l sr = fallback lib l sr)
    by reflexivity.
  assert (Hcp : compute_psd (with_scipy core lib) y sr =
                Py.try_except (scipy_welch core call)
                              (fun _ => fallback lib ym sr)).
  { unfold compute_psd. rewrite Hcall. reflexivity. }
  assert (Hcp0 : compute_psd lib y sr =
                 Py.try_except (welch lib call) (fun _ => fallback lib ym sr)).
  { unfold compute_psd. rewrite Hcall. reflexivity. }
  rewrite Hcp0, Hcp.
  split; [intros r ->; reflexivity|].
  split; [intros e ->; reflexivity|].
  split.
  { intros Hshort. cbn [nperseg noverlap call]. unfold seg.
    assert (E : Z.ltb len 256 = true) by (apply Z.ltb_lt; unfold len; lia).
    rewrite E. split; reflexivity. }
  split; [exact Hseg|].
  unfold scipy_welch, scipy_segments. cbn [x nperseg noverlap fs window
    detrend scaling call]. rewrite Hlen.
  split; [|split].
  - intros H256.
    assert (E0 : Z.eqb len 0 = false) by (apply Z.eqb_neq; lia).
    assert (E1 : Z.ltb seg 1 = false) by (apply Z.ltb_ge; lia).
    assert (Es : seg = Z.min len 8192).
    { unfold seg. destruct (Z.ltb len 256) eqn:L1;
        [apply Z.ltb_lt in L1; lia|].
      destruct (Z.leb len 8192) eqn:L2;
        [apply Z.leb_le in L2 | apply Z.leb_gt in L2]; lia. }
    assert (E2 : Z.ltb len seg = false) by (apply Z.ltb_ge; lia).
    assert (E3 : Z.leb seg (seg / 2) = false).
    { apply Z.leb_gt. apply Z.div_lt; lia. }
    rewrite E0, E1, E2, E3. cbn [Py.bind]. split; reflexivity.
  - intros [H1 H2].
    assert (E0 : Z.eqb len 0 = false) by (apply Z.eqb_neq; lia).
    assert (Es : seg = 256%Z).
    { unfold seg. destruct (Z.ltb len 256) eqn:L1; [reflexivity|].
      apply Z.ltb_ge in L1. lia. }
    rewrite Es. change (256 / 2)%Z with 128%Z.
    assert (E2 : Z.ltb len 256 = true) by (apply Z.ltb_lt; lia).
    assert (E3 : Z.leb len 128 = false) by (apply Z.leb_gt; lia).
    rewrite E0, E2, E3. cbn [Z.ltb Z.compare Py.bind]. split; reflexivity.
  - intros [H1 H2].
    assert (E0 : Z.eqb len 0 = false) by (apply Z.eqb_neq; lia).
    assert (Es : seg = 256%Z).
    { unfold seg. destruct (Z.ltb len 256) eqn:L1; [reflexivity|].
      apply Z.ltb_ge in L1. lia. }
    rewrite Es. change (256 / 2)%Z with 128%Z.
    assert (E2 : Z.ltb len 256 = true) by (apply Z.ltb_lt; lia).
    assert (E3 : Z.leb len 128 = true) by (apply Z.leb_le; lia).
    rewrite E0, E2, E3. cbn [Z.ltb Z.compare Py.bind Py.try_except].
    split; reflexivity.
Qed.

(** C8 at a four-sample signal, with scipy installed.  [compute_psd]
    asks for the segment length 256 and the overlap 128, as for every
    signal shorter than 256 samples; scipy cuts the segment length to 4
    and refuses the overlap before any estimate is made, whatever the
    estimator proper would return.  The handler catches the error and
    [compute_psd] returns the spectrum of the fallback: the signal does
    not go through the primary path. *)
Theorem short_signal_takes_the_fallback :
  nperseg (welch_call (remove_mean [1; 0; -1; 0]) 8) = 256%Z /\
  (length [1; 0; -1; 0]%Q < 256)%nat /\
  forall core : welch_args -> result (list Q * list Q),
    welch (with_scipy core numpy_small)
          (welch_call (remove_mean [1; 0; -1; 0]) 8) = Raise ValueError /\
    compute_psd (with_scipy core numpy_small) [1; 0; -1; 0] 8 =
      fallback (with_scipy core numpy_small) (remove_mean [1; 0; -1; 0]) 8 /\
    exists f Pxx,
      compute_psd (with_scipy core numpy_small) [1; 0; -1; 0] 8 = Ok (f, Pxx) /\
      Forall2 Qeq f [0; 2; 4] /\
      Forall2 Qeq Pxx [1 # 16; 1 # 16; 1 # 16].
Proof.
  split; [reflexivity|]. split; [simpl; lia|].
  intros core.
  split; [reflexivity|]. split; [reflexivity|].
  eexists _, _. split; [reflexivity|].
  split; repeat constructor.
Qed.

(** C6 at a two-sample buffer.  The Hann window of length 2 is [0, 0]:
    the windowed signal is zero, every squared magnitude is 0 and the
    divisor [sum(win**2) * sr] is 0, so each power value is the quotient
    0/0, which numpy stores as nan. *)
Lemma fallback_two_samples_zero_over_zero :
  let y := [1 # 4; - (1 # 4)] in
  let ym := remove_mean y in
  compute_psd numpy_small y 44100 = fallback numpy_small ym 44100 /\
  length ym = 2%nat /\
  hanning numpy_small (length ym) = [0; 0] /\
  fallback_divisor (hanning numpy_small (length ym)) 44100 == 0 /\
  Forall (fun a => a == 0) (fallback_numerators numpy_small ym).
Proof.
  cbv zeta. split; [reflexivity|]. split; [reflexivity|].
  split; [reflexivity|]. split; [reflexivity|].
  repeat constructor.
Qed.

End Paths.

(* ------------------------------------------------------------------ *)
(** ** What a run does before the spectrum is estimated *)

Section Run.

Import Estimator Loader Pipeline.

Lemma seq_run_call {A B : Type} (ev : event) (a : A) (k : A -> run B) :
  seq_run (call ev (Ok a)) k = (ev :: fst (k a), snd (k a)).
Proof. unfold seq_run, call. destruct (k a). reflexivity. Qed.

Lemma seq_run_lift {A B : Type} (a : A) (k : A -> run B) :
  seq_run (lift (Ok a)) k = k a.
Proof. unfold seq_run, lift. destruct (k a). reflexivity. Qed.

(** C5, as the code has it.  [main] has no test for an empty signal.  A
    run ends before the spectrum estimator in three cases only: the path
    does not exist, no decoder could read the file, or the sample rate is
    0 (the division for the duration raises).  In every other run
    [compute_psd] is called on the decoded samples right after decoding,
    whatever their number, zero included. *)
Theorem main_calls_compute_psd_on_any_decoded_signal
  (lib : numlib) (io : file_io) (args : arguments) :
  main lib false io args = ([PrintFileNotFound], Raise SystemExit) /\
  (forall e, read_audio io = Raise e ->
             main lib true io args = ([CallReadAudio], Raise e)) /\
  (forall y, read_audio io = Ok (y, 0%Z) ->
             main lib true io args = ([CallReadAudio], Raise ZeroDivisionError)) /\
  (forall y sr, read_audio io = Ok (y, sr) -> sr <> 0%Z ->
     exists rest out,
       main lib true io args =
         (CallReadAudio :: CallComputePsd y sr :: rest, out)).
Proof.
  split; [reflexivity|]. split; [|split].
  - intros e H. unfold main. cbn [negb]. rewrite H. reflexivity.
  - intros y H. unfold main. cbn [negb]. rewrite H. reflexivity.
  - intros y sr H Hsr. unfold main. cbn [negb]. rewrite H.
    rewrite seq_run_call.
    rewrite truediv_nonzero
      by (change 0 with (inject_Z 0); rewrite inject_Z_injective; exact Hsr).
    rewrite seq_run_lift.
    match goal with
    | |- context [seq_run (call (CallComputePsd y sr) ?c) ?k] =>
        destruct c as [s|e]
    end.
    + rewrite seq_run_call. cbn [fst snd]. eauto.
    + cbn [seq_run call fst snd]. eauto.
Qed.

(** C5, as stated, fails.  A 16-bit mono file with no frame decodes to
    the empty sequence; the run then calls [compute_psd] on it and ends
    with a report, not with an error. *)
Lemma empty_signal_reaches_compute_psd :
  read_audio (mk_io (Raise ImportError) (Raise ImportError)
                    (Ok (1%nat, 2%nat, 44100%Z, []))) = Ok ([], 44100%Z) /\
  exists rest rep,
    main numpy_small true
         (mk_io (Raise ImportError) (Raise ImportError)
                (Ok (1%nat, 2%nat, 44100%Z, [])))
         (mk_args (F64.Fin 2000) (F64.Fin 8000) 2 false) =
    (CallReadAudio :: CallComputePsd [] 44100 :: rest, Ok rep).
Proof.
  split; [reflexivity|]. eexists _, _. reflexivity.
Qed.

End Run.

(* ------------------------------------------------------------------ *)
(** ** The fallback spectrum when the window has energy *)

Section FallbackSpectrum.

Import Estimator.

Lemma abs2_nonneg (c : Q * Q) : 0 <= abs2 c.
Proof. unfold abs2. nra. Qed.

Lemma rfftfreq_range (n : nat) (sr : Z) :
  (1 <= n)%nat -> (0 < sr)%Z ->
  Forall (fun v => 0 <= v /\ v <= inject_Z sr * (1 # 2))
         (Np.rfftfreq n (1 / inject_Z sr)).
Proof.
  intros Hn Hsr. unfold Np.rfftfreq. apply Forall_forall. intros v Hv.
  apply in_map_iff in Hv as (k & <- & Hk). apply in_seq in Hk.
  assert (H2k : (2 * k <= n)%nat).
  { pose proof (Nat.div_mod_eq n 2). pose proof (Nat.mod_upper_bound n 2). lia. }
  assert (HS : 0 < inject_Z sr).
  { change 0 with (inject_Z 0). rewrite <- Zlt_Qlt. exact Hsr. }
  assert (HN : 1 <= inject_Z (Z.of_nat n)).
  { change 1 with (inject_Z 1). rewrite <- Zle_Qle. lia. }
  assert (HK : 0 <= inject_Z (Z.of_nat k)).
  { change 0 with (inject_Z 0). rewrite <- Zle_Qle. lia. }
  assert (HKN : 2 * inject_Z (Z.of_nat k) <= inject_Z (Z.of_nat n)).
  { change 2 with (inject_Z 2). rewrite <- inject_Z_mult, <- Zle_Qle. lia. }
  set (K := inject_Z (Z.of_nat k)) in *.
  set (N := inject_Z (Z.of_nat n)) in *.
  set (S := inject_Z sr) in *.
  assert (E : K * (1 / (N * (1 / S))) == K * S / N) by (field; split; lra).
  rewrite E. split.
  - apply Qle_shift_div_l; [lra | nra].
  - apply Qle_shift_div_r; [lra | nra].
Qed.

(** With a positive sample rate and a window whose squared values do not
    sum to zero, the fallback spectrum has non-negative power, starts at
    frequency 0 and stays at or below half the sample rate. *)
Lemma fallback_spectrum_well_formed
      (lib : numlib) (ym : list Q) (sr : Z) (f Pxx : list Q) :
  (0 < sr)%Z ->
  0 < Np.sum (map (fun w => w * w) (hanning lib (length ym))) ->
  fallback lib ym sr = Ok (f, Pxx) ->
  Forall (Qle 0) Pxx /\
  (exists v rest, f = v :: rest /\ v == 0) /\
  Forall (fun v => v <= inject_Z sr * (1 # 2)) f.
Proof.
  intros Hsr Hwin. unfold fallback.
  assert (HS : 0 < inject_Z sr).
  { change 0 with (inject_Z 0). rewrite <- Zlt_Qlt. exact Hsr. }
  rewrite truediv_nonzero by lra. cbn [Py.bind]. intros [= <- <-].
  assert (Hden : 0 < fallback_divisor (hanning lib (length ym)) sr).
  { unfold fallback_divisor. nra. }
  split; [|split].
  - apply Forall_forall. intros p Hp.
    apply in_map_iff in Hp as (a & <- & Ha).
    unfold fallback_numerators in Ha.
    apply in_map_iff in Ha as (c & <- & _).
    pose proof (abs2_nonneg c).
    apply Qle_shift_div_l; [exact Hden | lra].
  - unfold Np.rfftfreq. rewrite Nat.add_1_r. cbn [seq map].
    eexists _, _. split; [reflexivity|].
    change (inject_Z (Z.of_nat 0)) with 0. ring.
  - pose proof (next_pow2_spec (length ym)) as ((j & Hj) & _).
    eapply Forall_impl; [|apply rfftfreq_range; [|exact Hsr]].
    + intros v [_ Hv]. exact Hv.
    + rewrite Hj. clear. induction j; simpl; lia.
Qed.

End FallbackSpectrum.

(* ================================================================== *)
(** * Further properties of the estimator *)

Section MeanRemoval.

Import Estimator.

Lemma sum_map_minus (m : Q) (y : list Q) :
  Np.sum (map (fun v => v - m) y) ==
  Np.sum y - inject_Z (Z.of_nat (length y)) * m.
Proof.
  induction y as [|v y IH].
  - change (0 == 0 - 0 * m). ring.
  - rewrite inject_length_cons. cbn [map Np.sum fold_right].
    fold (Np.sum y). fold (Np.sum (map (fun v => v - m) y)).
    rewrite IH. ring.
Qed.

Lemma sum_map_plus (c : Q) (y : list Q) :
  Np.sum (map (fun v => v + c) y) ==
  Np.sum y + inject_Z (Z.of_nat (length y)) * c.
Proof.
  induction y as [|v y IH].
  - change (0 == 0 + 0 * c). ring.
  - rewrite inject_length_cons. cbn [map Np.sum fold_right].
    fold (Np.sum y). fold (Np.sum (map (fun v => v + c) y)).
    rewrite IH. ring.
Qed.

Lemma inject_length_pos {A : Type} (a : A) (l : list A) :
  0 < inject_Z (Z.of_nat (length (a :: l))).
Proof.
  rewrite inject_length_cons. pose proof (inject_length_nonneg l). lra.
Qed.

(** X1. After the mean is subtracted the samples sum to zero: the signal that
    reaches either estimator has no constant component. *)
Theorem remove_mean_sums_to_zero (y : list Q) :
  Np.sum (remove_mean y) == 0.
Proof.
  unfold remove_mean. rewrite sum_map_minus. unfold Np.mean.
  destruct y as [|v y]; [reflexivity|].
  pose proof (inject_length_pos v y) as Hn.
  set (n := inject_Z (Z.of_nat (length (v :: y)))) in *.
  field. lra.
Qed.

Lemma Forall2_Qeq_map {A : Type} (g h : A -> Q) (l : list A) :
  (forall a, In a l -> g a == h a) -> Forall2 Qeq (map g l) (map h l).
Proof.
  induction l as [|a l IH]; intros H; [constructor|].
  cbn [map]. constructor; [apply H; now left|].
  apply IH. intros b Hb. apply H. now right.
Qed.

(** X2. Mean removal cancels a constant offset: a signal and the same signal
    shifted by any [c] leave the same samples. *)
Theorem remove_mean_cancels_offset (y : list Q) (c : Q) :
  Forall2 Qeq (remove_mean (map (fun v => v + c) y)) (remove_mean y).
Proof.
  unfold remove_mean. rewrite map_map. apply Forall2_Qeq_map.
  intros v Hv. unfold Np.mean. rewrite length_map, sum_map_plus.
  destruct y as [|w y].
  - destruct Hv.
  - pose proof (inject_length_pos w y) as Hn.
    set (n := inject_Z (Z.of_nat (length (w :: y)))) in *.
    field. lra.
Qed.

End MeanRemoval.

Section PaddedLength.

Import Estimator.

(** X3. The padded length never doubles the signal: for a signal of [n >= 1]
    samples, [n <= n_fft < 2 n]; an empty signal gets [n_fft = 1]; a length
    that is a power of two is kept. *)
Theorem next_pow2_bounds :
  (forall n, (1 <= n)%nat ->
             (n <= next_pow2 n)%nat /\ (next_pow2 n < 2 * n)%nat) /\
  next_pow2 0 = 1%nat /\
  (forall k, next_pow2 (2 ^ k) = (2 ^ k)%nat).
Proof.
  split; [|split].
  - intros n Hn. destruct (next_pow2_spec n) as ((j & Hj) & Hge & Hleast & _).
    split; [exact Hge|].
    destruct j as [|j].
    + rewrite Hj. simpl. lia.
    + destruct (Nat.lt_ge_cases (next_pow2 n) (2 * n)) as [H|H]; [exact H|].
      exfalso. rewrite Hj in H. cbn [Nat.pow] in H.
      assert (Hn' : (n <= 2 ^ j)%nat) by lia.
      specialize (Hleast j Hn'). rewrite Hj in Hleast. cbn [Nat.pow] in Hleast.
      pose proof (pow2_pos j). lia.
  - reflexivity.
  - intros k. destruct (next_pow2_spec (2 ^ k)) as (_ & Hge & Hleast & _).
    specialize (Hleast k (Nat.le_refl _)). lia.
Qed.

End PaddedLength.

Section FallbackAxes.

Import Estimator.

Lemma StronglySorted_map_seq {A : Type} (R : A -> A -> Prop) (g : nat -> A)
      (s m : nat) :
  (forall a b, (a < b)%nat -> R (g a) (g b)) ->
  StronglySorted R (map g (seq s m)).
Proof.
  intros Hg. revert s. induction m as [|m IH]; intros s; [constructor|].
  cbn [seq map]. constructor; [apply IH|].
  apply Forall_forall. intros v Hv.
  apply in_map_iff in Hv as (b & <- & Hb). apply in_seq in Hb.
  apply Hg. lia.
Qed.

Lemma next_pow2_pos (n : nat) : (1 <= next_pow2 n)%nat.
Proof.
  destruct (next_pow2_spec n) as ((j & Hj) & _). rewrite Hj. apply pow2_pos.
Qed.

Lemma fallback_lengths (lib : numlib) (y : list Q) (sr : Z) :
  (forall a n, length (rfft lib a n) = (n / 2 + 1)%nat) ->
  sr <> 0%Z ->
  exists f Pxx,
    fallback lib y sr = Ok (f, Pxx) /\
    f = Np.rfftfreq (next_pow2 (length y)) (1 / inject_Z sr) /\
    length f = length Pxx /\
    length f = (next_pow2 (length y) / 2 + 1)%nat.
Proof.
  intros Hrfft Hsr. unfold fallback.
  rewrite truediv_nonzero
    by (change 0 with (inject_Z 0); rewrite inject_Z_injective; exact Hsr).
  cbn [Py.bind]. eexists _, _. split; [reflexivity|]. split; [reflexivity|].
  unfold Np.rfftfreq, fallback_numerators.
  rewrite !length_map, length_seq, Hrfft. split; reflexivity.
Qed.

(** X4. With [rfft] returning [n/2 + 1] bins and a positive sample rate, the
    fallback returns a well-formed spectrum: two arrays of one length,
    [n_fft/2 + 1]; frequencies that start at 0, increase strictly and stay
    at or below half the sample rate; and, when the squared window values
    do not sum to zero, non-negative power. *)
Theorem fallback_returns_a_spectrum (lib : numlib) (y : list Q) (sr : Z)
  (Hrfft : forall a n, length (rfft lib a n) = (n / 2 + 1)%nat)
  (Hsr : (0 < sr)%Z) :
  exists f Pxx,
    fallback lib y sr = Ok (f, Pxx) /\
    length f = length Pxx /\
    length f = (next_pow2 (length y) / 2 + 1)%nat /\
    StronglySorted Qlt f /\
    (exists v rest, f = v :: rest /\ v == 0) /\
    Forall (fun v => v <= inject_Z sr * (1 # 2)) f /\
    (0 < Np.sum (map (fun w => w * w) (hanning lib (length y))) ->
     Forall (Qle 0) Pxx).
Proof.
  destruct (fallback_lengths lib y sr Hrfft ltac:(lia))
    as (f & Pxx & Hfb & Hf & Hlen & Hn).
  exists f, Pxx. split; [exact Hfb|]. split; [exact Hlen|]. split; [exact Hn|].
  split.
  { rewrite Hf. unfold Np.rfftfreq. apply StronglySorted_map_seq.
    intros a b Hab.
    assert (HS : 0 < inject_Z sr).
    { change 0 with (inject_Z 0). rewrite <- Zlt_Qlt. exact Hsr. }
    assert (HN : 1 <= inject_Z (Z.of_nat (next_pow2 (length y)))).
    { change 1 with (inject_Z 1). rewrite <- Zle_Qle.
      pose proof (next_pow2_pos (length y)). lia. }
    assert (Hlt : inject_Z (Z.of_nat a) < inject_Z (Z.of_nat b)).
    { rewrite <- Zlt_Qlt. lia. }
    set (N := inject_Z (Z.of_nat (next_pow2 (length y)))) in *.
    set (S := inject_Z sr) in *.
    assert (E : 1 / (N * (1 / S)) == S / N) by (field; split; lra).
    assert (Hval : 0 < S / N) by (apply Qlt_shift_div_l; lra).
    rewrite E. nra. }
  split.
  { rewrite Hf. unfold Np.rfftfreq. rewrite Nat.add_1_r. cbn [seq map].
    eexists _, _. split; [reflexivity|].
    change (inject_Z (Z.of_nat 0)) with 0. ring. }
  split.
  { rewrite Hf. eapply Forall_impl;
      [|apply rfftfreq_range; [apply next_pow2_pos | exact Hsr]].
    intros v [_ Hv]. exact Hv. }
  intros Hwin.
  exact (proj1 (fallback_spectrum_well_formed lib y sr f Pxx Hsr Hwin Hfb)).
Qed.

Lemma numpy_small_rfft_length (a : list Q) (n : nat) :
  length (rfft numpy_small a n) = (n / 2 + 1)%nat.
Proof.
  cbn [rfft numpy_small]. unfold rfft_small.
  destruct n as [|[|[|[|[|n]]]]];
    rewrite ?length_map, ?length_seq, ?repeat_length; reflexivity.
Qed.

Lemma fallback_returns_a_spectrum_witness :
  exists f Pxx,
    fallback numpy_small [1; 0; -1; 0] 8 = Ok (f, Pxx) /\
    length f = length Pxx /\
    length f = (next_pow2 4 / 2 + 1)%nat /\
    StronglySorted Qlt f /\
    (exists v rest, f = v :: rest /\ v == 0) /\
    Forall (fun v => v <= inject_Z 8 * (1 # 2)) f /\
    (0 < Np.sum (map (fun w => w * w) (hanning numpy_small 4)) ->
     Forall (Qle 0) Pxx).
Proof.
  exact (fallback_returns_a_spectrum numpy_small [1; 0; -1; 0] 8
           numpy_small_rfft_length eq_refl).
Defined.

End FallbackAxes.

(* ================================================================== *)
(** * A whole run *)

Section WholeRun.

Import Estimator Loader Pipeline.

Lemma compute_psd_lengths (lib : numlib) (y : list Q) (sr : Z) :
  (forall a f Pxx, welch lib a = Ok (f, Pxx) -> length f = length Pxx) ->
  (forall a n, length (rfft lib a n) = (n / 2 + 1)%nat) ->
  sr <> 0%Z ->
  exists f Pxx, compute_psd lib y sr = Ok (f, Pxx) /\ length f = length Pxx.
Proof.
  intros Hwelch Hrfft Hsr. unfold compute_psd.
  destruct (welch lib (welch_call (remove_mean y) sr)) as [[f Pxx]|e] eqn:E;
    cbn [Py.try_except].
  - exists f, Pxx. split; [reflexivity | eapply Hwelch; exact E].
  - destruct (fallback_lengths lib (remove_mean y) sr Hrfft Hsr)
      as (f & Pxx & Hfb & _ & Hlen & _).
    exists f, Pxx. split; [exact Hfb | exact Hlen].
Qed.

(** X5. What a run does once the file is decoded and the sample rate is
    not 0, given that the primary estimator returns two arrays of one
    length or raises and that [rfft] returns [n/2 + 1] bins.  With finite
    band edges, a number of decimals from 0 to 1000 (beyond that the
    length of the printed lines is a matter of memory) and no [--save],
    whose file writes are not modelled, it goes through
    every stage and ends with a report of three band rows and a positive
    total power: the band analysis cannot raise on what the estimator
    returns.  With finite edges and a number of decimals that is negative
    or above the largest C int, it stops in the report with a
    [ValueError].  With a band edge that is nan or infinite it stops in
    the band analysis with a [ValueError] or an [OverflowError]. *)
Theorem main_after_decoding
  (lib : numlib) (io : file_io) (args : arguments) (y : list Q) (sr : Z)
  (Hwelch : forall a f Pxx, welch lib a = Ok (f, Pxx) -> length f = length Pxx)
  (Hrfft : forall a n, length (rfft lib a n) = (n / 2 + 1)%nat)
  (Hread : read_audio io = Ok (y, sr))
  (Hsr : sr <> 0%Z) :
  (forall lo hi,
     air_low args = F64.Fin lo -> air_high args = F64.Fin hi ->
     (0 <= decimals args <= 1000)%Z -> save args = false ->
     exists rep,
       main lib true io args =
         ([CallReadAudio; CallComputePsd y sr; CallSummarizeBands;
           CallEstimateFundamental; PrintReport], Ok rep) /\
       sample_rate rep = sr /\
       length (bands rep) = 3%nat /\
       0 < total_power rep) /\
  (forall lo hi,
     air_low args = F64.Fin lo -> air_high args = F64.Fin hi ->
     (decimals args < 0 \/ 2147483647 < decimals args)%Z ->
     main lib true io args =
       ([CallReadAudio; CallComputePsd y sr; CallSummarizeBands;
         CallEstimateFundamental; PrintReport], Raise ValueError)) /\
  (F64.is_finite (air_low args) && F64.is_finite (air_high args) = false ->
   main lib true io args =
     ([CallReadAudio; CallComputePsd y sr; CallSummarizeBands],
      Raise ValueError) \/
   main lib true io args =
     ([CallReadAudio; CallComputePsd y sr; CallSummarizeBands],
      Raise OverflowError)).
Proof.
  destruct (compute_psd_lengths lib y sr Hwelch Hrfft Hsr)
    as (f & Pxx & Hpsd & Hlen).
  assert (Hest : exists f0, estimate_fundamental f Pxx default_lo default_hi = Ok f0).
  { destruct (estimate_fundamental_cases f Pxx default_lo default_hi Hlen)
      as [[Hest _] | (r & _ & _ & Hest & _)]; eauto. }
  destruct Hest as [f0 Hest].
  assert (Hdur : Py.truediv (inject_Z (Z.of_nat (length y))) (inject_Z sr)
                 = Ok (inject_Z (Z.of_nat (length y)) / inject_Z sr)).
  { apply truediv_nonzero. change 0 with (inject_Z 0).
    rewrite inject_Z_injective. exact Hsr. }
  split; [|split].
  - intros lo hi Hlo Hhi Hdec _. unfold main. cbn [negb].
    rewrite Hread, seq_run_call, Hdur, seq_run_lift, Hpsd, seq_run_call.
    rewrite Hlo, Hhi. cbn [summarize_bands_args].
    pose proof (summarize_bands_points f Pxx lo hi Hlen) as Hsum.
    cbv zeta in Hsum. rewrite Hsum, seq_run_call, Hest, seq_run_call.
    unfold band_defs. cbn [map print_report].
    assert (E : Z.ltb (decimals args) 0 || Z.ltb 2147483647 (decimals args)
                = false).
    { apply orb_false_iff. split; apply Z.ltb_ge; lia. }
    rewrite E, seq_run_call. cbn [ret fst snd app].
    eexists. split; [reflexivity|].
    cbn [sample_rate bands total_power]. split; [reflexivity|].
    split; [reflexivity | apply total_pos].
  - intros lo hi Hlo Hhi Hdec. unfold main. cbn [negb].
    rewrite Hread, seq_run_call, Hdur, seq_run_lift, Hpsd, seq_run_call.
    rewrite Hlo, Hhi. cbn [summarize_bands_args].
    pose proof (summarize_bands_points f Pxx lo hi Hlen) as Hsum.
    cbv zeta in Hsum. rewrite Hsum, seq_run_call, Hest, seq_run_call.
    unfold band_defs. cbn [map print_report].
    assert (E : Z.ltb (decimals args) 0 || Z.ltb 2147483647 (decimals args)
                = true).
    { apply orb_true_iff. destruct Hdec; [left | right]; apply Z.ltb_lt; lia. }
    rewrite E. reflexivity.
  - intros Hedge. unfold main. cbn [negb].
    rewrite Hread, seq_run_call, Hdur, seq_run_lift, Hpsd, seq_run_call.
    assert (Hsum : summarize_bands_args f Pxx (air_low args) (air_high args)
                   = (_ <- F64.overtones_name (air_low args) (air_high args) ;;
                      Raise ValueError)).
    { unfold summarize_bands_args.
      rewrite (raw_total_points f Pxx Hlen). cbn [Py.bind].
      destruct (air_low args), (air_high args); try reflexivity.
      discriminate Hedge. }
    rewrite Hsum.
    destruct (f64_overtones_name_refused _ _ Hedge) as [-> | ->];
      cbn [Py.bind seq_run call app]; auto.
Qed.

Lemma main_after_decoding_witness :
  exists rep,
    main numpy_small true
         (mk_io (Ok (A1 [1; 0; -1; 0], 8%Z)) (Raise ImportError)
                (Raise ImportError))
         (mk_args (F64.Fin 2000) (F64.Fin 8000) 2 false) =
      ([CallReadAudio; CallComputePsd [1; 0; -1; 0] 8; CallSummarizeBands;
        CallEstimateFundamental; PrintReport], Ok rep) /\
    sample_rate rep = 8%Z /\
    length (bands rep) = 3%nat /\
    0 < total_power rep.
Proof.
  destruct (main_after_decoding numpy_small
              (mk_io (Ok (A1 [1; 0; -1; 0], 8%Z)) (Raise ImportError)
                     (Raise ImportError))
              (mk_args (F64.Fin 2000) (F64.Fin 8000) 2 false)
              [1; 0; -1; 0] 8) as (H & _ & _).
  - intros a f Pxx H. discriminate H.
  - exact numpy_small_rfft_length.
  - reflexivity.
  - discriminate.
  - apply (H 2000 8000); [reflexivity | reflexivity | cbn; lia | reflexivity].
Defined.

End WholeRun.

(* ================================================================== *)
(** * Further properties of the loader *)

Section Tiers.

Import Loader.

Lemma wave_tier_raises_RuntimeError (n_channels sampwidth : nat) (sr : Z)
      (raw : list Init.Byte.byte) (e : exn) :
  wave_tier n_channels sampwidth sr raw = Raise e -> e = RuntimeError.
Proof.
  unfold wave_tier.
  match goal with |- Py.try_except ?c _ = _ -> _ => destruct c as [r|e'] end;
    cbn [Py.try_except]; [discriminate | intros [= <-]; reflexivity].
Qed.

(** X6. [read_audio] returns the result of the first tier that does not
    raise, in the order soundfile, scipy, [wave]; a later tier is tried
    only when every earlier one raised.  Whatever the tiers raise, the
    only exception that leaves [read_audio] is [RuntimeError], and only
    after the soundfile and scipy tiers have both raised. *)
Theorem read_audio_first_success_wins (io : file_io) :
  (forall y sr, sf_read io = Ok (y, sr) -> read_audio io = Ok (to_mono y, sr)) /\
  (forall e sr y, sf_read io = Raise e -> wavfile_read io = Ok (sr, y) ->
                  read_audio io = Ok (scipy_tier sr y)) /\
  (forall e1 e2 n_channels sampwidth sr raw,
     sf_read io = Raise e1 -> wavfile_read io = Raise e2 ->
     wave_open io = Ok (n_channels, sampwidth, sr, raw) ->
     read_audio io = wave_tier n_channels sampwidth sr raw) /\
  (forall e, read_audio io = Raise e ->
             e = RuntimeError /\
             (exists e1, sf_read io = Raise e1) /\
             (exists e2, wavfile_read io = Raise e2)).
Proof.
  unfold read_audio. repeat split.
  - intros y sr ->. reflexivity.
  - intros e sr y -> ->. reflexivity.
  - intros e1 e2 n_channels sampwidth sr raw -> -> ->.
    cbn [Py.bind Py.try_except].
    destruct (wave_tier n_channels sampwidth sr raw) as [r|e] eqn:E;
      cbn [Py.try_except]; [reflexivity|].
    now rewrite (wave_tier_raises_RuntimeError _ _ _ _ _ E).
  - destruct (sf_read io) as [[y sr]|e1]; cbn [Py.bind Py.try_except] in H;
      [discriminate|].
    destruct (wavfile_read io) as [[sr y]|e2]; cbn [Py.bind Py.try_except] in H;
      [discriminate|].
    match type of H with Py.try_except ?c _ = _ => destruct c end;
      cbn [Py.try_except] in H; [discriminate | now injection H].
  - destruct (sf_read io) as [[y sr]|e1]; cbn [Py.bind Py.try_except] in H;
      [discriminate | eauto].
  - destruct (sf_read io) as [[y sr]|e1]; cbn [Py.bind Py.try_except] in H;
      [discriminate|].
    destruct (wavfile_read io) as [[sr y]|e2]; cbn [Py.bind Py.try_except] in H;
      [discriminate | eauto].
Qed.

End Tiers.

Section Reshape.

Import Loader.

Lemma reshape_rows_count {A : Type} (fuel k : nat) (a : list A)
      (rows : list (list A)) :
  reshape_rows fuel k a = Ok rows -> length a = (length rows * k)%nat.
Proof.
  revert a rows. induction fuel as [|fuel IH]; intros a rows.
  - destruct a; simpl; [intros [= <-]; reflexivity | discriminate].
  - destruct a as [|v a]; [simpl; intros [= <-]; reflexivity|].
    cbn [reshape_rows]. destruct (Nat.ltb (length (v :: a)) k) eqn:E;
      [discriminate|].
    apply Nat.ltb_ge in E.
    destruct (reshape_rows fuel k (skipn k (v :: a))) as [rest|e] eqn:Er;
      cbn [Py.bind]; [|discriminate].
    intros [= <-]. apply IH in Er. rewrite length_skipn in Er.
    cbn [length] in *. lia.
Qed.

Lemma reshape_rows_exact {A : Type} (m fuel k : nat) (a : list A) :
  (0 < k)%nat -> length a = (m * k)%nat -> (length a <= fuel)%nat ->
  exists rows, reshape_rows fuel k a = Ok rows /\ length rows = m.
Proof.
  intros Hk. revert fuel a. induction m as [|m IH]; intros fuel a Hlen Hfuel.
  - destruct a; [|discriminate]. exists []. destruct fuel; auto.
  - destruct a as [|v a]; [simpl in Hlen; lia|].
    destruct fuel as [|fuel]; [simpl in Hfuel; lia|].
    cbn [reshape_rows].
    assert (E : Nat.ltb (length (v :: a)) k = false)
      by (apply Nat.ltb_ge; rewrite Hlen; simpl; lia).
    rewrite E.
    destruct (IH fuel (skipn k (v :: a))) as (rest & Hr & Hm).
    + rewrite length_skipn, Hlen. simpl. lia.
    + rewrite length_skipn. cbn [length] in *. lia.
    + rewrite Hr. cbn [Py.bind]. eexists. split; [reflexivity|].
      simpl. now rewrite Hm.
Qed.

Lemma reshape_count {A : Type} (k : nat) (a : list A) (rows : list (list A)) :
  reshape k a = Ok rows -> (0 < k)%nat /\ length a = (length rows * k)%nat.
Proof.
  unfold reshape. destruct (Nat.eqb k 0) eqn:E; [discriminate|].
  apply Nat.eqb_neq in E. intros H. split; [lia|].
  eapply reshape_rows_count; eauto.
Qed.

Lemma reshape_exact {A : Type} (m k : nat) (a : list A) :
  (0 < k)%nat -> length a = (m * k)%nat ->
  exists rows, reshape k a = Ok rows /\ length rows = m.
Proof.
  intros Hk Hlen. unfold reshape.
  assert (E : Nat.eqb k 0 = false) by (apply Nat.eqb_neq; lia).
  rewrite E. apply reshape_rows_exact; auto.
Qed.

Lemma frombuffer_count (k : nat) (raw : list Init.Byte.byte) (u : list Z) :
  frombuffer k raw = Ok u -> (0 < k)%nat /\ length raw = (length u * k)%nat.
Proof.
  unfold frombuffer. destruct (reshape k raw) as [rows|e] eqn:E;
    cbn [Py.bind]; [|discriminate].
  intros [= <-]. rewrite length_map. eapply reshape_count; eauto.
Qed.

Lemma frombuffer_exact (m k : nat) (raw : list Init.Byte.byte) :
  (0 < k)%nat -> length raw = (m * k)%nat ->
  exists u, frombuffer k raw = Ok u /\ length u = m.
Proof.
  intros Hk Hlen. unfold frombuffer.
  destruct (reshape_exact m k raw Hk Hlen) as (rows & -> & Hm).
  cbn [Py.bind]. eexists. split; [reflexivity|]. now rewrite length_map.
Qed.

Lemma view_int32_length (b : list Z) :
  length (view_int32 b) = (2 * length b)%nat.
Proof.
  unfold view_int32. induction b as [|v b IH]; [reflexivity|].
  cbn [flat_map length app]. rewrite IH. lia.
Qed.

Lemma decode_width_count (sampwidth : nat) (raw : list Init.Byte.byte)
      (data : list Q) :
  decode_width sampwidth raw = Ok data ->
  (1 <= sampwidth <= 4)%nat /\
  (sampwidth <> 3%nat -> length raw = (length data * sampwidth)%nat) /\
  (sampwidth = 3%nat -> (2 * length raw = length data * 3)%nat).
Proof.
  unfold decode_width, frombuffer_int16.
  destruct sampwidth as [|[|[|[|[|w]]]]]; try discriminate.
  - destruct (frombuffer 1 raw) as [u|] eqn:E; cbn [Py.bind]; [|discriminate].
    intros [= <-]. apply frombuffer_count in E as [_ E].
    rewrite length_map. repeat split; lia.
  - destruct (frombuffer 2 raw) as [u|] eqn:E; cbn [Py.bind]; [|discriminate].
    intros [= <-]. apply frombuffer_count in E as [_ E].
    rewrite !length_map. repeat split; lia.
  - destruct (frombuffer 1 raw) as [u|] eqn:E; cbn [Py.bind]; [|discriminate].
    destruct (reshape 3 u) as [rows|] eqn:Er; cbn [Py.bind]; [|discriminate].
    intros [= <-]. apply frombuffer_count in E as [_ E].
    apply reshape_count in Er as [_ Er].
    rewrite length_map, view_int32_length, length_map.
    repeat split; lia.
  - destruct (frombuffer 4 raw) as [u|] eqn:E; cbn [Py.bind]; [|discriminate].
    intros [= <-]. apply frombuffer_count in E as [_ E].
    rewrite length_map. repeat split; lia.
Qed.

Lemma decode_width_exact (m sampwidth : nat) (raw : list Init.Byte.byte) :
  (1 <= sampwidth <= 4)%nat -> length raw = (m * sampwidth)%nat ->
  exists data, decode_width sampwidth raw = Ok data /\
               length data = (if Nat.eqb sampwidth 3 then 2 * m else m)%nat.
Proof.
  intros Hw Hlen. unfold decode_width, frombuffer_int16.
  destruct sampwidth as [|[|[|[|[|w]]]]]; try lia.
  - destruct (frombuffer_exact m 1 raw ltac:(lia) Hlen) as (u & -> & Hm).
    cbn [Py.bind]. eexists. split; [reflexivity|]. now rewrite length_map.
  - destruct (frombuffer_exact m 2 raw ltac:(lia) Hlen) as (u & -> & Hm).
    cbn [Py.bind]. eexists. split; [reflexivity|]. now rewrite !length_map.
  - destruct (frombuffer_exact (m * 3) 1 raw ltac:(lia) ltac:(lia))
      as (u & -> & Hu).
    cbn [Py.bind].
    destruct (reshape_exact m 3 u ltac:(lia) Hu) as (rows & -> & Hm).
    cbn [Py.bind]. eexists. split; [reflexivity|].
    rewrite length_map, view_int32_length, length_map, Hm. reflexivity.
  - destruct (frombuffer_exact m 4 raw ltac:(lia) Hlen) as (u & -> & Hm).
    cbn [Py.bind]. eexists. split; [reflexivity|]. now rewrite length_map.
Qed.

(** X7. The [wave] tier succeeds on sample widths 1 to 4 and on no other,
    and every failure, an unsupported width or a ragged buffer, is a
    [RuntimeError]; the rate is returned unchanged.  On a buffer of whole
    frames ([sampwidth] bytes per channel) it returns one sample per
    frame for widths 1, 2 and 4, and two samples per frame for width 3:
    the 24-bit branch views an int64 array as int32, which doubles the
    number of values. *)
Theorem wave_tier_samples_per_frame
  (n_channels sampwidth : nat) (sr : Z) (raw : list Init.Byte.byte) :
  (forall data sr',
     wave_tier n_channels sampwidth sr raw = Ok (data, sr') ->
     sr' = sr /\ (1 <= sampwidth <= 4)%nat /\
     (sampwidth <> 3%nat ->
      length raw = (length data * (sampwidth * Nat.max 1 n_channels))%nat) /\
     (sampwidth = 3%nat ->
      (2 * length raw = length data * (3 * Nat.max 1 n_channels))%nat)) /\
  (forall m,
     (1 <= sampwidth <= 4)%nat ->
     length raw = (m * (sampwidth * Nat.max 1 n_channels))%nat ->
     exists data, wave_tier n_channels sampwidth sr raw = Ok (data, sr) /\
                  length data = (if Nat.eqb sampwidth 3 then 2 * m else m)%nat) /\
  (forall e, wave_tier n_channels sampwidth sr raw = Raise e ->
             e = RuntimeError).
Proof.
  split; [|split; [|apply wave_tier_raises_RuntimeError]].
  - intros data sr'. unfold wave_tier.
    destruct (decode_width sampwidth raw) as [d|] eqn:Ed;
      cbn [Py.bind Py.try_except]; [|discriminate].
    apply decode_width_count in Ed as (Hw & Hd & Hd3).
    destruct (Nat.ltb 1 n_channels) eqn:Ech.
    + apply Nat.ltb_lt in Ech.
      destruct (reshape n_channels d) as [rows|] eqn:Er;
        cbn [Py.bind Py.try_except]; [|discriminate].
      intros [= <- <-]. apply reshape_count in Er as [_ Er].
      rewrite length_map.
      replace (Nat.max 1 n_channels) with n_channels by lia.
      split; [reflexivity|]. split; [exact Hw|]. split.
      * intros H3. specialize (Hd H3). nia.
      * intros H3. specialize (Hd3 H3). nia.
    + apply Nat.ltb_ge in Ech. cbn [Py.try_except]. intros [= <- <-].
      replace (Nat.max 1 n_channels) with 1%nat by lia.
      split; [reflexivity|]. split; [exact Hw|]. split.
      * intros H3. specialize (Hd H3). lia.
      * intros H3. specialize (Hd3 H3). lia.
  - intros m Hw Hlen. unfold wave_tier.
    destruct (Nat.ltb 1 n_channels) eqn:Ech.
    + apply Nat.ltb_lt in Ech.
      replace (Nat.max 1 n_channels) with n_channels in Hlen by lia.
      destruct (decode_width_exact (m * n_channels) sampwidth raw Hw
                  ltac:(lia)) as (d & -> & Hd).
      cbn [Py.bind].
      destruct (reshape_exact
                  (if Nat.eqb sampwidth 3 then 2 * m else m) n_channels d
                  ltac:(lia)) as (rows & -> & Hm).
      { rewrite Hd. destruct (Nat.eqb sampwidth 3); lia. }
      cbn [Py.bind Py.try_except]. eexists. split; [reflexivity|].
      now rewrite length_map.
    + apply Nat.ltb_ge in Ech.
      replace (Nat.max 1 n_channels) with 1%nat in Hlen by lia.
      destruct (decode_width_exact m sampwidth raw Hw ltac:(lia))
        as (d & -> & Hd).
      cbn [Py.bind Py.try_except]. eexists. split; [reflexivity | exact Hd].
Qed.

End Reshape.

Section SampleRange.

Import Loader.

Lemma le_uint_range (bs : list Init.Byte.byte) :
  (0 <= le_uint bs < 256 ^ Z.of_nat (length bs))%Z.
Proof.
  induction bs as [|b bs IH].
  - simpl. lia.
  - cbn [le_uint length]. rewrite Nat2Z.inj_succ, Z.pow_succ_r by lia.
    pose proof (byte_val_range b). lia.
Qed.

Lemma frombuffer_range (k : nat) (raw : list Init.Byte.byte) (u : list Z) :
  frombuffer k raw = Ok u ->
  Forall (fun v => (0 <= v < 256 ^ Z.of_nat k)%Z) u.
Proof.
  unfold frombuffer. destruct (reshape k raw) as [rows|e] eqn:E;
    cbn [Py.bind]; [|discriminate].
  intros [= <-].
  pose proof (reshape_Forall (fun _ => True) k raw rows
                ltac:(apply Forall_forall; auto) E) as H.
  rewrite Forall_forall in H. apply Forall_forall. intros v Hv.
  apply in_map_iff in Hv as (row & <- & Hrow).
  destruct (H row Hrow) as [<- _]. apply le_uint_range.
Qed.

Lemma signed_range (w u : Z) :
  (1 <= w)%Z -> (0 <= u < 2 ^ w)%Z ->
  (- 2 ^ (w - 1) <= signed w u <= 2 ^ (w - 1) - 1)%Z.
Proof.
  intros Hw Hu. unfold signed.
  assert (E : (2 ^ w = 2 * 2 ^ (w - 1))%Z).
  { rewrite <- Z.pow_succ_r by lia. f_equal. lia. }
  destruct (Z.ltb u (2 ^ (w - 1))) eqn:L;
    [apply Z.ltb_lt in L | apply Z.ltb_ge in L]; lia.
Qed.

Lemma ratio_range (x d : Q) :
  0 < d -> - d <= x -> x <= d - 1 ->
  -1 <= x / d /\ x / d <= 1 - 1 / d.
Proof.
  intros Hd H1 H2. split.
  - apply Qle_shift_div_l; [exact Hd | lra].
  - assert (E : 1 - 1 / d == (d - 1) / d) by (field; lra).
    rewrite E. apply Qle_shift_div_r; [exact Hd|].
    assert (E' : (d - 1) / d * d == d - 1) by (field; lra).
    rewrite E'. exact H2.
Qed.

Lemma mean_ge (l : list Q) (c : Q) :
  c <= 0 -> Forall (fun v => c <= v) l -> c <= Np.mean l.
Proof.
  intros Hc H.
  assert (Hsum : c * inject_Z (Z.of_nat (length l)) <= Np.sum l).
  { induction H as [|v l Hv _ IH].
    - change (c * 0 <= 0). lra.
    - rewrite inject_length_cons. cbn [Np.sum fold_right]. fold (Np.sum l). lra. }
  unfold Np.mean. pose proof (inject_length_nonneg l) as Hn.
  set (n := inject_Z (Z.of_nat (length l))) in *.
  destruct (Qeq_dec n 0) as [E|E].
  - unfold Qdiv. rewrite E.
    assert (E0 : Np.sum l * / 0 == 0) by (unfold Qinv; simpl; ring).
    now rewrite E0.
  - apply Qle_shift_div_l; [lra | exact Hsum].
Qed.

Lemma mean_between (l : list Q) (lo hi : Q) :
  lo <= 0 -> 0 <= hi ->
  Forall (fun v => lo <= v /\ v <= hi) l ->
  lo <= Np.mean l /\ Np.mean l <= hi.
Proof.
  intros Hlo Hhi H. split.
  - apply mean_ge; [exact Hlo|]. eapply Forall_impl; [|exact H]. now intros v [? _].
  - apply mean_le; [exact Hhi|]. eapply Forall_impl; [|exact H]. now intros v [_ ?].
Qed.

Lemma decode_width_range (sampwidth : nat) (raw : list Init.Byte.byte)
      (data : list Q) :
  sampwidth <> 3%nat ->
  decode_width sampwidth raw = Ok data ->
  Forall (fun v => -1 <= v /\
                   v <= 1 - 1 / inject_Z (2 ^ (8 * Z.of_nat sampwidth - 1)))
         data.
Proof.
  intros Hw. unfold decode_width, frombuffer_int16.
  destruct sampwidth as [|[|[|[|[|w]]]]]; try discriminate; try congruence.
  - destruct (frombuffer 1 raw) as [u|] eqn:E; cbn [Py.bind]; [|discriminate].
    intros [= <-]. apply frombuffer_range in E.
    apply Forall_forall. intros v Hv. apply in_map_iff in Hv as (s & <- & Hs).
    rewrite Forall_forall in E. specialize (E s Hs).
    change (inject_Z (2 ^ (8 * Z.of_nat 1 - 1))) with 128.
    change (256 ^ Z.of_nat 1)%Z with 256%Z in E.
    destruct E as [E1 E2].
    assert (E2' : (s <= 255)%Z) by lia.
    rewrite Zle_Qle in E1, E2'.
    change (inject_Z 0) with 0 in E1. change (inject_Z 255) with 255 in E2'.
    apply ratio_range; lra.
  - destruct (frombuffer 2 raw) as [u|] eqn:E; cbn [Py.bind]; [|discriminate].
    intros [= <-]. apply frombuffer_range in E.
    apply Forall_forall. intros v Hv. apply in_map_iff in Hv as (s & <- & Hs).
    apply in_map_iff in Hs as (x & <- & Hx).
    rewrite Forall_forall in E. specialize (E x Hx).
    change (inject_Z (2 ^ (8 * Z.of_nat 2 - 1))) with 32768.
    change (256 ^ Z.of_nat 2)%Z with (2 ^ 16)%Z in E.
    pose proof (signed_range 16 x ltac:(lia) E) as [S1 S2].
    change (2 ^ (16 - 1))%Z with 32768%Z in S1, S2.
    rewrite Zle_Qle in S1, S2.
    assert (S1' : -32768 <= inject_Z (signed 16 x)) by exact S1.
    assert (S2' : inject_Z (signed 16 x) <= 32767) by exact S2.
    apply ratio_range; lra.
  - destruct (frombuffer 4 raw) as [u|] eqn:E; cbn [Py.bind]; [|discriminate].
    intros [= <-]. apply frombuffer_range in E.
    apply Forall_forall. intros v Hv. apply in_map_iff in Hv as (x & <- & Hx).
    rewrite Forall_forall in E. specialize (E x Hx).
    change (inject_Z (2 ^ (8 * Z.of_nat 4 - 1))) with 2147483648.
    change (256 ^ Z.of_nat 4)%Z with (2 ^ 32)%Z in E.
    pose proof (signed_range 32 x ltac:(lia) E) as [S1 S2].
    change (2 ^ (32 - 1))%Z with 2147483648%Z in S1, S2.
    rewrite Zle_Qle in S1, S2.
    assert (S1' : -2147483648 <= inject_Z (signed 32 x)) by exact S1.
    assert (S2' : inject_Z (signed 32 x) <= 2147483647) by exact S2.
    apply ratio_range; lra.
Qed.

(** X8. For sample widths 1, 2 and 4 every sample the [wave] tier returns
    lies between -1 and 1 - 2^-(8*sampwidth - 1), so never reaches 1;
    averaging the channels keeps the range. *)
Theorem wave_tier_sample_range
  (n_channels sampwidth : nat) (sr sr' : Z) (raw : list Init.Byte.byte)
  (data : list Q)
  (Hw : sampwidth <> 3%nat)
  (Hok : wave_tier n_channels sampwidth sr raw = Ok (data, sr')) :
  Forall (fun v => -1 <= v /\
                   v <= 1 - 1 / inject_Z (2 ^ (8 * Z.of_nat sampwidth - 1)))
         data.
Proof.
  unfold wave_tier in Hok.
  destruct (decode_width sampwidth raw) as [d|] eqn:Ed;
    cbn [Py.bind Py.try_except] in Hok; [|discriminate].
  pose proof (decode_width_count _ _ _ Ed) as [Hw14 _].
  pose proof (decode_width_range _ _ _ Hw Ed) as Hd.
  destruct (Nat.ltb 1 n_channels).
  - destruct (reshape n_channels d) as [rows|] eqn:Er;
      cbn [Py.bind Py.try_except] in Hok; [|discriminate].
    injection Hok as <- <-.
    pose proof (reshape_Forall _ _ _ _ Hd Er) as Hrows.
    apply Forall_forall. intros v Hv. apply in_map_iff in Hv as (row & <- & Hrow).
    rewrite Forall_forall in Hrows. destruct (Hrows row Hrow) as [_ Hr].
    assert (Hd1 : 0 < inject_Z (2 ^ (8 * Z.of_nat sampwidth - 1))).
    { change 0 with (inject_Z 0). rewrite <- Zlt_Qlt.
      apply Z.pow_pos_nonneg; lia. }
    assert (Hd2 : 1 <= inject_Z (2 ^ (8 * Z.of_nat sampwidth - 1))).
    { change 1 with (inject_Z 1). rewrite <- Zle_Qle.
      assert (0 < 2 ^ (8 * Z.of_nat sampwidth - 1))%Z
        by (apply Z.pow_pos_nonneg; lia). lia. }
    apply mean_between; [lra | | exact Hr].
    set (D := inject_Z (2 ^ (8 * Z.of_nat sampwidth - 1))) in *.
    assert (E : 1 - 1 / D == (D - 1) / D) by (field; lra).
    rewrite E. apply Qle_shift_div_l; lra.
  - cbn [Py.try_except] in Hok. injection Hok as <- <-. exact Hd.
Qed.

Lemma wave_tier_sample_range_witness :
  Forall (fun v => -1 <= v /\ v <= 1 - 1 / inject_Z (2 ^ (8 * Z.of_nat 2 - 1)))
         [inject_Z (-32768) / 32768; inject_Z 32767 / 32768].
Proof.
  apply (wave_tier_sample_range 1 2 44100 44100
           [Init.Byte.x00; Init.Byte.x80; Init.Byte.xff; Init.Byte.x7f]).
  - discriminate.
  - reflexivity.
Defined.

End SampleRange.

Section TwentyFourBit.

Import Loader.

Lemma land_low_shifted (x y n : Z) :
  (0 <= n)%Z -> (0 <= x < 2 ^ n)%Z -> Z.land x (Z.shiftl y n) = 0%Z.
Proof.
  intros Hn Hx. apply Z.bits_inj'. intros k Hk.
  rewrite Z.land_spec, Z.bits_0.
  destruct (Z.lt_ge_cases k n) as [Hlt|Hge].
  - rewrite Z.shiftl_spec_low by exact Hlt. apply andb_false_r.
  - assert (Hxk : Z.testbit x k = false).
    { destruct (Z.eq_dec x 0) as [->|Hne]; [apply Z.bits_0|].
      apply Z.bits_above_log2; [lia|].
      assert (Z.log2 x < n)%Z by (apply Z.log2_lt_pow2; lia). lia. }
    now rewrite Hxk.
Qed.

Lemma lor_low_shifted (x y n : Z) :
  (0 <= n)%Z -> (0 <= x < 2 ^ n)%Z ->
  Z.lor x (Z.shiftl y n) = (x + y * 2 ^ n)%Z.
Proof.
  intros Hn Hx. pose proof (Z.add_lor_land x (Z.shiftl y n)) as H.
  rewrite (land_low_shifted x y n Hn Hx), Z.add_0_r in H.
  rewrite H, Z.shiftl_mul_pow2 by exact Hn. reflexivity.
Qed.

Lemma land_bit23 (b : Z) :
  (0 <= b < 2 ^ 24)%Z ->
  Z.land b 8388608 = (if Z.leb 8388608 b then 8388608 else 0)%Z.
Proof.
  intros Hb.
  assert (Hbit : Z.testbit b 23 = Z.leb 8388608 b).
  { pose proof (Z.testbit_spec' b 23 ltac:(lia)) as H.
    change (2 ^ 23)%Z with 8388608%Z in H. change (2 ^ 24)%Z with 16777216%Z in Hb.
    destruct (Z.leb 8388608 b) eqn:L;
      [apply Z.leb_le in L | apply Z.leb_gt in L];
      destruct (Z.testbit b 23); simpl in H; try reflexivity; exfalso.
    - assert (b / 8388608 = 1)%Z
        by (symmetry; apply Z.div_unique with (r := (b - 8388608)%Z); lia).
      rewrite H0 in H. discriminate H.
    - rewrite Z.div_small in H by lia. discriminate H. }
  destruct (Z.leb 8388608 b).
  - apply Z.bits_inj'. intros k Hk. rewrite Z.land_spec.
    change 8388608%Z with (2 ^ 23)%Z. rewrite Z.pow2_bits_eqb by lia.
    destruct (Z.eqb_spec 23 k) as [<-|Hne];
      [rewrite Hbit; reflexivity | apply andb_false_r].
  - apply Z.bits_inj'. intros k Hk. rewrite Z.land_spec, Z.bits_0.
    change 8388608%Z with (2 ^ 23)%Z. rewrite Z.pow2_bits_eqb by lia.
    destruct (Z.eqb_spec 23 k) as [<-|Hne];
      [rewrite Hbit; reflexivity | apply andb_false_r].
Qed.

Lemma assemble24_value (a0 a1 a2 : Z) :
  (0 <= a0 <= 255)%Z -> (0 <= a1 <= 255)%Z -> (0 <= a2 <= 255)%Z ->
  assemble24 [a0; a1; a2] =
    (if Z.leb 8388608 (a0 + 256 * a1 + 65536 * a2)
     then a0 + 256 * a1 + 65536 * a2 + 4278190080
     else a0 + 256 * a1 + 65536 * a2)%Z.
Proof.
  intros H0 H1 H2. unfold assemble24. cbn [nth].
  assert (Hb : Z.lor a0 (Z.lor (Z.shiftl a1 8) (Z.shiftl a2 16))
               = (a0 + 256 * a1 + 65536 * a2)%Z).
  { replace (Z.shiftl a2 16) with (Z.shiftl (Z.shiftl a2 8) 8)
      by (rewrite Z.shiftl_shiftl by lia; reflexivity).
    rewrite <- Z.shiftl_lor.
    rewrite (lor_low_shifted a1 a2 8) by (change (2 ^ 8)%Z with 256%Z; lia).
    rewrite (lor_low_shifted a0 _ 8) by (change (2 ^ 8)%Z with 256%Z; lia).
    change (2 ^ 8)%Z with 256%Z. lia. }
  rewrite Hb. set (b := (a0 + 256 * a1 + 65536 * a2)%Z).
  assert (Hrange : (0 <= b < 2 ^ 24)%Z)
    by (change (2 ^ 24)%Z with 16777216%Z; unfold b; lia).
  rewrite (land_bit23 b Hrange).
  destruct (Z.leb 8388608 b) eqn:L.
  - change (Z.ltb 0 8388608) with true. cbv iota.
    change (4278190080 * 1)%Z with (Z.shiftl 255 24).
    rewrite (lor_low_shifted b 255 24) by (first [exact Hrange | lia]).
    change (2 ^ 24)%Z with 16777216%Z. lia.
  - change (Z.ltb 0 0) with false. cbv iota.
    change (4278190080 * 0)%Z with 0%Z. apply Z.lor_0_r.
Qed.

Lemma view_int32_sign_extended (b : Z) :
  (0 <= b < 16777216)%Z ->
  view_int32 [if Z.leb 8388608 b then b + 4278190080 else b]%Z
  = [signed 24 b; 0%Z].
Proof.
  intros Hb. unfold view_int32. cbn [flat_map app].
  change (2 ^ 32)%Z with 4294967296%Z.
  destruct (Z.leb 8388608 b) eqn:L;
    [apply Z.leb_le in L | apply Z.leb_gt in L].
  - rewrite Z.mod_small by lia. rewrite (Z.div_small (b + 4278190080)) by lia.
    change (signed 32 (0 mod 4294967296)) with 0%Z.
    unfold signed.
    change (2 ^ (32 - 1))%Z with 2147483648%Z.
    change (2 ^ 32)%Z with 4294967296%Z.
    change (2 ^ (24 - 1))%Z with 8388608%Z.
    change (2 ^ 24)%Z with 16777216%Z.
    assert (E1 : Z.ltb (b + 4278190080) 2147483648 = false)
      by (apply Z.ltb_ge; lia).
    assert (E2 : Z.ltb b 8388608 = false) by (apply Z.ltb_ge; lia).
    rewrite E1, E2. f_equal. lia.
  - rewrite Z.mod_small by lia. rewrite (Z.div_small b) by lia.
    change (signed 32 (0 mod 4294967296)) with 0%Z.
    unfold signed.
    change (2 ^ (32 - 1))%Z with 2147483648%Z.
    change (2 ^ (24 - 1))%Z with 8388608%Z.
    assert (E1 : Z.ltb b 2147483648 = true) by (apply Z.ltb_lt; lia).
    assert (E2 : Z.ltb b 8388608 = true) by (apply Z.ltb_lt; lia).
    now rewrite E1, E2.
Qed.

Lemma reshape_rows_one {A : Type} (fuel : nat) (a : list A) :
  (length a <= fuel)%nat ->
  reshape_rows fuel 1 a = Ok (map (fun v => [v]) a).
Proof.
  revert a. induction fuel as [|fuel IH]; intros a Hlen.
  - destruct a; [reflexivity | simpl in Hlen; lia].
  - destruct a as [|v a]; [reflexivity|].
    cbn [reshape_rows length Nat.ltb Nat.leb skipn firstn].
    rewrite IH by (simpl in Hlen; lia). reflexivity.
Qed.

Lemma frombuffer_bytes (raw : list Init.Byte.byte) :
  frombuffer 1 raw = Ok (map byte_val raw).
Proof.
  unfold frombuffer, reshape. cbn [Nat.eqb].
  rewrite reshape_rows_one by lia. cbn [Py.bind]. f_equal.
  rewrite map_map. apply map_ext. intros b. cbn [le_uint]. lia.
Qed.

Lemma decode24_rows (groups : list (list Init.Byte.byte)) :
  Forall (fun g => length g = 3%nat) groups ->
  view_int32 (map assemble24 (map (map byte_val) groups)) =
  flat_map (fun g => [signed 24 (le_uint g); 0%Z]) groups.
Proof.
  induction 1 as [|g groups Hg _ IH]; [reflexivity|].
  cbn [map flat_map].
  change (view_int32 (assemble24 (map byte_val g)
                        :: map assemble24 (map (map byte_val) groups)))
    with (view_int32 [assemble24 (map byte_val g)]
          ++ view_int32 (map assemble24 (map (map byte_val) groups))).
  rewrite IH. f_equal.
  destruct g as [|b0 [|b1 [|b2 [|b3 g]]]]; try discriminate.
  cbn [map].
  pose proof (byte_val_range b0). pose proof (byte_val_range b1).
  pose proof (byte_val_range b2).
  rewrite assemble24_value by assumption.
  rewrite view_int32_sign_extended by lia.
  cbn [le_uint]. do 2 f_equal. lia.
Qed.

(** X9. The 24-bit branch of the [wave] tier.  Three bytes, least
    significant first, are assembled with shifts and ors and the sign bit
    is extended by or-ing 0xFF000000; the array is int64 by then, so the
    view as int32 gives for every sample two words: the two's complement
    reading of the 24-bit number, then 0.  A buffer of whole samples
    therefore decodes to the expected values, each between -1 and
    1 - 2^-23, with a zero after every one of them. *)
Theorem decode24_value_then_zero
  (raw : list Init.Byte.byte) (groups : list (list Init.Byte.byte))
  (Hgroups : reshape 3 raw = Ok groups) :
  decode_width 3 raw =
    Ok (map (fun v => inject_Z v / 8388608)
            (flat_map (fun g => [signed 24 (le_uint g); 0%Z]) groups)) /\
  Forall (fun g => (-8388608 <= signed 24 (le_uint g) <= 8388607)%Z /\
                   -1 <= inject_Z (signed 24 (le_uint g)) / 8388608 /\
                   inject_Z (signed 24 (le_uint g)) / 8388608
                     <= 1 - 1 / 8388608) groups.
Proof.
  pose proof (reshape_Forall (fun _ => True) 3 raw groups
                ltac:(apply Forall_forall; auto) Hgroups) as Hlen.
  split.
  - unfold decode_width. rewrite frombuffer_bytes. cbn [Py.bind].
    rewrite reshape_map, Hgroups. cbn [Py.bind]. do 2 f_equal.
    apply decode24_rows. eapply Forall_impl; [|exact Hlen]. now intros g [? _].
  - eapply Forall_impl; [|exact Hlen]. intros g [Hg _].
    pose proof (le_uint_range g) as Hu. rewrite Hg in Hu.
    change (256 ^ Z.of_nat 3)%Z with (2 ^ 24)%Z in Hu.
    pose proof (signed_range 24 (le_uint g) ltac:(lia) Hu) as Hr.
    change (2 ^ (24 - 1))%Z with 8388608%Z in Hr.
    split; [exact Hr|]. destruct Hr as [R1 R2]. rewrite Zle_Qle in R1, R2.
    assert (R1' : -8388608 <= inject_Z (signed 24 (le_uint g))) by exact R1.
    assert (R2' : inject_Z (signed 24 (le_uint g)) <= 8388607) by exact R2.
    apply ratio_range; lra.
Qed.

Lemma decode24_value_then_zero_witness :
  decode_width 3 [Init.Byte.xff; Init.Byte.xff; Init.Byte.xff;
                  Init.Byte.x00; Init.Byte.x00; Init.Byte.x40] =
    Ok (map (fun v => inject_Z v / 8388608)
            (flat_map (fun g => [signed 24 (le_uint g); 0%Z])
               [[Init.Byte.xff; Init.Byte.xff; Init.Byte.xff];
                [Init.Byte.x00; Init.Byte.x00; Init.Byte.x40]])) /\
  Forall (fun g => (-8388608 <= signed 24 (le_uint g) <= 8388607)%Z /\
                   -1 <= inject_Z (signed 24 (le_uint g)) / 8388608 /\
                   inject_Z (signed 24 (le_uint g)) / 8388608
                     <= 1 - 1 / 8388608)
         [[Init.Byte.xff; Init.Byte.xff; Init.Byte.xff];
          [Init.Byte.x00; Init.Byte.x00; Init.Byte.x40]].
Proof.
  apply (decode24_value_then_zero
           [Init.Byte.xff; Init.Byte.xff; Init.Byte.xff;
            Init.Byte.x00; Init.Byte.x00; Init.Byte.x40]).
  reflexivity.
Defined.

End TwentyFourBit.

Section Channels.

Import Loader.

Lemma sum_repeat (v : Q) (k : nat) :
  Np.sum (repeat v k) == inject_Z (Z.of_nat k) * v.
Proof.
  induction k as [|k IH].
  - change (0 == 0 * v). ring.
  - cbn [repeat Np.sum fold_right]. fold (Np.sum (repeat v k)).
    rewrite IH, Nat2Z.inj_succ. unfold Z.succ. rewrite inject_Z_plus.
    change (inject_Z 1) with 1. ring.
Qed.

(** X10. Averaging channels that carry the same signal gives that signal back:
    a file with [k >= 1] identical channels decodes to the samples of one
    of them. *)
Theorem mono_of_identical_channels (k : nat) (l : list Q)
  (Hk : (1 <= k)%nat) :
  Forall2 Qeq (to_mono (A2 (map (fun v => repeat v k) l))) l.
Proof.
  cbn [to_mono]. rewrite map_map.
  rewrite <- (map_id l) at 2. apply Forall2_Qeq_map.
  intros v _. unfold Np.mean. rewrite repeat_length, sum_repeat.
  assert (Hpos : 1 <= inject_Z (Z.of_nat k)).
  { change 1 with (inject_Z 1). rewrite <- Zle_Qle. lia. }
  field. lra.
Qed.

Lemma mono_of_identical_channels_witness :
  Forall2 Qeq (to_mono (A2 [[1 # 2; 1 # 2]; [- (1 # 4); - (1 # 4)]]))
              [1 # 2; - (1 # 4)].
Proof.
  exact (mono_of_identical_channels 2 [1 # 2; - (1 # 4)] ltac:(lia)).
Defined.

End Channels.

(* ================================================================== *)
(** * Further properties of the band analysis *)

(** X12. A band that holds no sample has energy 0 whatever the power array is,
    even one of another length: the power is not read.  This is the case
    of every band whose upper edge is not above its lower edge. *)
Theorem band_energy_zero_without_samples
  (f : list Q) (lo hi : Q)
  (Hnone : forall x, In x f -> ~ (lo <= x /\ x < hi)) :
  (forall Pxx, band_energy f Pxx lo hi = Ok 0) /\
  (forall lo' hi' Pxx, hi' <= lo' -> band_energy f Pxx lo' hi' = Ok 0).
Proof.
  assert (Hgen : forall l h, (forall x, In x f -> ~ (l <= x /\ x < h)) ->
                             forall Pxx, band_energy f Pxx l h = Ok 0).
  { intros l h Hn Pxx. unfold band_energy.
    destruct (band_idx f l h) as [|i idx] eqn:E; [reflexivity|].
    exfalso. assert (Hi : In i (band_idx f l h)) by (rewrite E; now left).
    apply band_idx_spec in Hi as (x & Hx & Hl & Hh).
    apply (Hn x); [eapply nth_error_In; eauto | split; assumption]. }
  split; [apply Hgen; exact Hnone|].
  intros lo' hi' Pxx Hinv. apply Hgen. intros x _ [H1 H2]. lra.
Qed.

Lemma band_energy_zero_without_samples_witness :
  band_energy [0; 100; 200] [7] 300 400 = Ok 0.
Proof.
  refine (proj1 (band_energy_zero_without_samples [0; 100; 200] 300 400 _) [7]).
  intros x Hx [H1 H2].
  destruct Hx as [<- | [<- | [<- | []]]]; vm_compute in H1; apply H1; reflexivity.
Defined.

(** X13. On a spectrum with non-decreasing frequencies and non-negative power,
    every row of [summarize_bands] has a non-negative energy and a
    non-negative percentage, and a band that starts at 20 Hz or above (Bass
    and Formant always do) has a percentage of at most 100. *)
Theorem band_rows_within_bounds
  (f Pxx : list Q) (air_lo air_hi : Q)
  (Hlen : length f = length Pxx)
  (Hsorted : StronglySorted Qle f)
  (Hnonneg : Forall (Qle 0) Pxx) :
  exists rows total,
    summarize_bands f Pxx air_lo air_hi =
      Ok (rows, total, band_defs air_lo air_hi) /\
    Forall (fun r => 0 <= energy r /\ 0 <= pct r /\
                     (20 <= lo_hz r -> pct r <= 100)) rows.
Proof.
  pose proof (summarize_bands_points f Pxx air_lo air_hi Hlen) as Hs.
  cbv zeta in Hs. eexists _, _. split; [exact Hs|].
  pose proof (ordered_nonneg_combine f Pxx Hsorted Hnonneg) as Hok.
  set (pts := combine f Pxx) in *.
  set (t := trap (filter (at_least 20) pts)).
  pose proof (total_pos t) as Hpos.
  set (total := if Np.leb t 0 then epsilon else t) in *.
  assert (Hrow : forall lo hi,
             0 <= trap (filter (in_band lo hi) pts) /\
             0 <= 100 * trap (filter (in_band lo hi) pts) / total /\
             (20 <= lo -> 100 * trap (filter (in_band lo hi) pts) / total <= 100)).
  { intros lo hi. destruct (band_bounds lo hi pts Hok) as [He _].
    set (e := trap (filter (in_band lo hi) pts)) in *.
    split; [exact He|]. split.
    - apply Qle_shift_div_l; [exact Hpos | lra].
    - intros Hlo. apply Qle_shift_div_r; [exact Hpos|].
      assert (Het : e <= t).
      { unfold e, t. rewrite <- (band_above_threshold lo hi 20 pts) by exact Hlo.
        apply band_bounds. now apply ordered_nonneg_filter. }
      assert (Htot : e <= total).
      { unfold total. destruct (Np.leb t 0) eqn:L; [|exact Het].
        apply leb_true in L. pose proof epsilon_pos. lra. }
      lra. }
  unfold band_defs. cbn [map].
  repeat (apply Forall_cons; [cbn [energy pct lo_hz fst snd]; apply Hrow|]).
  apply Forall_nil.
Qed.

Lemma band_rows_within_bounds_witness :
  exists rows total,
    summarize_bands [0; 100; 200; 3000; 4000] [0; 1; 1; 2; 0] 150 8000 =
      Ok (rows, total, band_defs 150 8000) /\
    Forall (fun r => 0 <= energy r /\ 0 <= pct r /\
                     (20 <= lo_hz r -> pct r <= 100)) rows.
Proof.
  apply (band_rows_within_bounds [0; 100; 200; 3000; 4000] [0; 1; 1; 2; 0]).
  - reflexivity.
  - repeat constructor; discriminate.
  - repeat constructor; discriminate.
Defined.

(** X14. Widening a band never lowers its energy: on a spectrum with
    non-decreasing frequencies and non-negative power, a band contained in
    another has at most the other's energy. *)
Theorem band_energy_grows_with_band
  (f Pxx : list Q) (lo hi lo' hi' : Q)
  (Hlen : length f = length Pxx)
  (Hsorted : StronglySorted Qle f)
  (Hnonneg : Forall (Qle 0) Pxx)
  (Hlo : lo' <= lo) (Hhi : hi <= hi') :
  exists e e',
    band_energy f Pxx lo hi = Ok e /\
    band_energy f Pxx lo' hi' = Ok e' /\
    0 <= e /\ e <= e'.
Proof.
  eexists _, _.
  split; [apply band_energy_points; exact Hlen|].
  split; [apply band_energy_points; exact Hlen|].
  pose proof (ordered_nonneg_combine f Pxx Hsorted Hnonneg) as Hok.
  set (pts := combine f Pxx) in *.
  split; [apply band_bounds; exact Hok|].
  rewrite <- (filter_narrow (in_band lo hi) (in_band lo' hi') pts).
  - apply band_bounds. now apply ordered_nonneg_filter.
  - intros x Hx. unfold in_band in *.
    apply andb_true_iff in Hx as [H1 H2].
    apply geb_true in H1. apply ltb_true in H2.
    apply andb_true_iff. split; [apply geb_true | apply ltb_true]; lra.
Qed.

Lemma band_energy_grows_with_band_witness :
  exists e e',
    band_energy [0; 100; 200; 300] [0; 1; 1; 2] 100 250 = Ok e /\
    band_energy [0; 100; 200; 300] [0; 1; 1; 2] 60 400 = Ok e' /\
    0 <= e /\ e <= e'.
Proof.
  apply (band_energy_grows_with_band [0; 100; 200; 300] [0; 1; 1; 2]).
  - reflexivity.
  - repeat constructor; discriminate.
  - repeat constructor; discriminate.
  - discriminate.
  - discriminate.
Defined.

Section PowerScaling.

Variable c : Q.
Hypothesis Hc : 0 < c.

Let scale (p : Q * Q) : Q * Q := (fst p, c * snd p).

Lemma combine_scaled (f Pxx : list Q) :
  combine f (map (Qmult c) Pxx) = map scale (combine f Pxx).
Proof.
  revert Pxx. induction f as [|x f IH]; intros [|p Pxx]; try reflexivity.
  cbn [map combine]. now rewrite IH.
Qed.

Lemma filter_scaled (q : Q * Q -> bool) (l : list (Q * Q)) :
  (forall p, q (scale p) = q p) ->
  filter q (map scale l) = map scale (filter q l).
Proof.
  intros Hq. induction l as [|p l IH]; [reflexivity|].
  cbn [map filter]. rewrite Hq. destruct (q p); cbn [map]; now rewrite IH.
Qed.

Lemma trap_scaled (l : list (Q * Q)) : trap (map scale l) == c * trap l.
Proof.
  induction l as [|a [|b l] IH].
  - change (0 == c * 0). ring.
  - change (0 == c * 0). ring.
  - change (map scale (a :: b :: l)) with (scale a :: scale b :: map scale l).
    rewrite !trap_cons2.
    change (scale b :: map scale l) with (map scale (b :: l)).
    rewrite IH. unfold scale. cbn [fst snd]. unfold Qdiv. ring.
Qed.

Lemma band_scaled (lo hi : Q) (f Pxx : list Q) :
  trap (filter (in_band lo hi) (combine f (map (Qmult c) Pxx))) ==
  c * trap (filter (in_band lo hi) (combine f Pxx)).
Proof.
  rewrite combine_scaled, filter_scaled by reflexivity. apply trap_scaled.
Qed.

Lemma total_scaled (f Pxx : list Q) :
  trap (filter (at_least 20) (combine f (map (Qmult c) Pxx))) ==
  c * trap (filter (at_least 20) (combine f Pxx)).
Proof.
  rewrite combine_scaled, filter_scaled by reflexivity. apply trap_scaled.
Qed.

(** X16. The percentages do not depend on the scale of the spectrum: when the
    integral above 20 Hz is positive, multiplying every power value by one
    positive factor multiplies the total and every band energy by that
    factor and leaves every percentage unchanged. *)
Theorem pct_unchanged_by_power_scaling
  (f Pxx : list Q) (air_lo air_hi t : Q)
  (Hlen : length f = length Pxx)
  (Ht : raw_total f Pxx = Ok t)
  (Hpos : 0 < t) :
  exists rows rows' total',
    summarize_bands f Pxx air_lo air_hi =
      Ok (rows, t, band_defs air_lo air_hi) /\
    summarize_bands f (map (Qmult c) Pxx) air_lo air_hi =
      Ok (rows', total', band_defs air_lo air_hi) /\
    total' == c * t /\
    Forall2 (fun r r' => band r' = band r /\
                         energy r' == c * energy r /\
                         pct r' == pct r) rows rows'.
Proof.
  assert (Hlen' : length f = length (map (Qmult c) Pxx))
    by now rewrite length_map.
  pose proof (summarize_bands_points f Pxx air_lo air_hi Hlen) as Hs.
  pose proof (summarize_bands_points f (map (Qmult c) Pxx) air_lo air_hi Hlen')
    as Hs'.
  cbv zeta in Hs, Hs'.
  rewrite (raw_total_points f Pxx Hlen) in Ht. injection Ht as Ht.
  pose proof (total_scaled f Pxx) as Htot. rewrite Ht in Htot, Hs.
  set (t' := trap (filter (at_least 20) (combine f (map (Qmult c) Pxx)))) in *.
  assert (Ht' : 0 < t') by (rewrite Htot; nra).
  assert (L : Np.leb t 0 = false) by (apply leb_false; exact Hpos).
  assert (L' : Np.leb t' 0 = false) by (apply leb_false; exact Ht').
  rewrite L in Hs. rewrite L' in Hs'.
  eexists _, _, _. split; [exact Hs|]. split; [exact Hs'|].
  split; [exact Htot|].
  assert (Hrow : forall lo hi,
    trap (filter (in_band lo hi) (combine f (map (Qmult c) Pxx))) ==
      c * trap (filter (in_band lo hi) (combine f Pxx)) /\
    100 * trap (filter (in_band lo hi) (combine f (map (Qmult c) Pxx))) / t' ==
      100 * trap (filter (in_band lo hi) (combine f Pxx)) / t).
  { intros lo hi. pose proof (band_scaled lo hi f Pxx) as He.
    split; [exact He|]. rewrite He, Htot. field. split; lra. }
  unfold band_defs. cbn [map].
  repeat (apply Forall2_cons;
          [cbn [band energy pct fst snd]; split; [reflexivity | apply Hrow]|]).
  apply Forall2_nil.
Qed.

(** X17. The fundamental does not depend on the scale of the spectrum either:
    multiplying every power value by one positive factor leaves the result
    of [estimate_fundamental] unchanged. *)
Theorem fundamental_unchanged_by_power_scaling
  (f Pxx : list Q) (lo hi : Q)
  (Hlen : length f = length Pxx) :
  estimate_fundamental f (map (Qmult c) Pxx) lo hi =
  estimate_fundamental f Pxx lo hi.
Proof.
  assert (Hlen' : length f = length (map (Qmult c) Pxx))
    by now rewrite length_map.
  assert (Hnth : forall j q', nth_error (map (Qmult c) Pxx) j = Some q' ->
                   exists q, nth_error Pxx j = Some q /\ q' = c * q).
  { intros j q'. rewrite nth_error_map.
    destruct (nth_error Pxx j) as [q|]; [|discriminate].
    intros [= <-]. eauto. }
  assert (Hnth' : forall j q, nth_error Pxx j = Some q ->
                    nth_error (map (Qmult c) Pxx) j = Some (c * q)).
  { intros j q H. rewrite nth_error_map, H. reflexivity. }
  destruct (estimate_fundamental_cases f Pxx lo hi Hlen)
    as [[E H] | (r & i & p & E & Hi & Hf & Hp & Hpos & Hmax & Hfirst)];
  destruct (estimate_fundamental_cases f (map (Qmult c) Pxx) lo hi Hlen')
    as [[E' H'] | (r' & i' & p' & E' & Hi' & Hf' & Hp' & Hpos' & Hmax' & Hfirst')];
  rewrite E, E'.
  - reflexivity.
  - exfalso. destruct (Hnth _ _ Hp') as (q & Hq & ->).
    destruct H as [H | H]; [exact (H i' Hi')|].
    specialize (H i' q Hi' Hq). nra.
  - exfalso. destruct H' as [H' | H']; [exact (H' i Hi)|].
    specialize (H' i (c * p) Hi (Hnth' _ _ Hp)). nra.
  - destruct (Hnth _ _ Hp') as (q & Hq & ->).
    destruct (Nat.lt_trichotomy i i') as [Hlt | [Heq | Hgt]].
    + exfalso. specialize (Hfirst' i (c * p) Hi Hlt (Hnth' _ _ Hp)).
      specialize (Hmax i' q Hi' Hq). nra.
    + subst i'. rewrite Hf in Hf'. injection Hf' as <-. reflexivity.
    + exfalso. specialize (Hfirst i' q Hi' Hgt Hq).
      specialize (Hmax' i (c * p) Hi (Hnth' _ _ Hp)). nra.
Qed.

End PowerScaling.

Lemma pct_unchanged_by_power_scaling_witness :
  exists rows rows' total',
    summarize_bands [0; 100; 200] [0; 1; 1] 2000 8000 =
      Ok (rows, 200 # 2, band_defs 2000 8000) /\
    summarize_bands [0; 100; 200] (map (Qmult 3) [0; 1; 1]) 2000 8000 =
      Ok (rows', total', band_defs 2000 8000) /\
    total' == 3 * (200 # 2) /\
    Forall2 (fun r r' => band r' = band r /\
                         energy r' == 3 * energy r /\
                         pct r' == pct r) rows rows'.
Proof.
  exact (pct_unchanged_by_power_scaling 3 eq_refl
           [0; 100; 200] [0; 1; 1] 2000 8000 (200 # 2)
           eq_refl eq_refl eq_refl).
Defined.

Lemma fundamental_unchanged_by_power_scaling_witness :
  estimate_fundamental [0; 60; 120; 180] (map (Qmult 3) [9; 1; 5; 5]) 60 300 =
  estimate_fundamental [0; 60; 120; 180] [9; 1; 5; 5] 60 300.
Proof.
  exact (fundamental_unchanged_by_power_scaling 3 eq_refl
           [0; 60; 120; 180] [9; 1; 5; 5] 60 300 eq_refl).
Defined.

(* ================================================================== *)
(** * The earlier variant against the current one *)

Section Variants.

Import Estimator.

Lemma backup_band_energy_with_trapz (f Pxx : list Q) (lo hi : Q) :
  Backup.band_energy true f Pxx lo hi = band_energy f Pxx lo hi.
Proof.
  reflexivity.
Qed.

(** X18. With a NumPy that still provides [np.trapz], the earlier
    [summarize_bands] is the current one called with the Overtones band
    at 3000-8000 Hz: the same rows, band names included, and the same
    total, for every spectrum and also when it raises.  With a NumPy that
    no longer has [np.trapz], the earlier function raises
    [AttributeError] on every call, whatever the spectrum. *)
Theorem backup_summarize_bands_is_3000_8000 (f Pxx : list Q) :
  Backup.summarize_bands true f Pxx =
    (r <- summarize_bands f Pxx 3000 8000 ;; Ok (fst (fst r), snd (fst r))) /\
  Backup.summarize_bands false f Pxx = Raise AttributeError.
Proof.
  split; [|reflexivity].
  unfold Backup.summarize_bands, summarize_bands, raw_total.
  cbn [Backup.np_trapz Py.bind].
  destruct (Np.compress Pxx (map (fun x => Np.geb x 20) f)) as [p|e];
    cbn [Py.bind]; [|reflexivity].
  destruct (Np.compress f (map (fun x => Np.geb x 20) f)) as [x|e];
    cbn [Py.bind]; [|reflexivity].
  change (band_defs 3000 8000)
    with [ (Bass_60_250, 60, 250); (Formant_400_1500, 400, 1500);
           (Overtones 3 8, 3000, 8000) ].
  match goal with
  | |- (out <- mapM ?k ?l ;; _) = (r <- (out' <- mapM ?k' ?l ;; _) ;; _) =>
      assert (E : mapM k l = mapM k' l)
  end.
  { cbn [mapM]. rewrite !backup_band_energy_with_trapz. reflexivity. }
  rewrite E.
  match goal with |- context [mapM ?k ?l] => destruct (mapM k l) as [out|e] end;
    reflexivity.
Qed.

(** X19. The earlier [compute_psd] and the current one return the same thing
    on every input: flooring the segment length with an [if] or with
    [max], and placing the fallback after the [try] or in its handler,
    make no difference. *)
Theorem backup_compute_psd_agrees (lib : numlib) (y : list Q) (sr : Z) :
  Backup.compute_psd lib y sr = compute_psd lib y sr.
Proof.
  unfold Backup.compute_psd, compute_psd, welch_call. cbv zeta.
  set (n := Z.min (Z.of_nat (length (remove_mean y))) 8192).
  assert (E : (if Z.ltb n 256 then 256%Z else n) = Z.max n 256).
  { destruct (Z.ltb n 256) eqn:L;
      [apply Z.ltb_lt in L | apply Z.ltb_ge in L]; lia. }
  rewrite E.
  destruct (welch lib _) as [r|e]; reflexivity.
Qed.

End Variants.

(* ================================================================== *)
(** * The spectrum table *)

Section SpectrumTable.

Import Csv.

Variable parse : Strings.String.string -> option Q.

Lemma read_rows_lengths (rows : list (list Strings.String.string))
      (acc : list Q * list Q) :
  let r := fold_left (read_row parse) rows acc in
  length (fst r) =
    (length (fst acc) + length (filter (gives_frequency parse) rows))%nat /\
  length (snd r) =
    (length (snd acc) + length (filter (gives_power parse) rows))%nat.
Proof.
  revert acc. induction rows as [|row rows IH]; intros acc.
  - simpl. split; lia.
  - cbn [fold_left]. destruct (IH (read_row parse acc row)) as [H1 H2].
    cbv zeta. rewrite H1, H2. clear IH H1 H2.
    unfold read_row. cbn [filter]. unfold gives_frequency, gives_power.
    destruct row as [|c0 [|c1 row]]; try (split; reflexivity).
    destruct (parse c0) as [x|]; [|split; reflexivity].
    destruct (parse c1) as [v|]; cbn [fst snd length];
      rewrite ?length_app; cbn [length]; split; lia.
Qed.

Lemma filter_length_le {A : Type} (p q : A -> bool) (l : list A) :
  (forall a, p a = true -> q a = true) ->
  (length (filter p l) <= length (filter q l))%nat.
Proof.
  intros H. induction l as [|a l IH]; [auto|].
  cbn [filter]. destruct (p a) eqn:Ep.
  - rewrite (H a Ep). simpl. lia.
  - destruct (q a); simpl; lia.
Qed.

(** X20. [read_csv] drops the header and counts rows separately for its two
    arrays: a row gives a frequency as soon as its first cell converts, and
    a power value only if the second converts too.  So the power array is
    never the longer one, and it is the shorter one exactly when some row
    has a first cell that converts and a second that does not. *)
Theorem read_csv_lengths (rows : list (list Strings.String.string)) :
  length (fst (read_csv parse rows)) =
    length (filter (gives_frequency parse) (tl rows)) /\
  length (snd (read_csv parse rows)) =
    length (filter (gives_power parse) (tl rows)) /\
  (length (snd (read_csv parse rows)) <= length (fst (read_csv parse rows)))%nat /\
  (length (fst (read_csv parse rows)) <= length rows - 1)%nat.
Proof.
  unfold read_csv.
  destruct (read_rows_lengths (tl rows) ([], [])) as [H1 H2].
  cbv zeta in H1, H2. cbn [fst snd length] in H1, H2.
  rewrite H1, H2. split; [reflexivity|]. split; [reflexivity|]. split.
  - apply filter_length_le. intros row. unfold gives_power, gives_frequency.
    destruct row as [|c0 [|c1 row]]; try discriminate.
    destruct (parse c0); [reflexivity | discriminate].
  - pose proof (filter_length_le (gives_frequency parse) (fun _ => true) (tl rows)
                  ltac:(auto)) as H.
    rewrite (filter_all (fun _ : list Strings.String.string => true)) in H
      by (intros; reflexivity).
    destruct rows; simpl in *; lia.
Qed.

Variable show : Q -> Strings.String.string.

Lemma read_rows_of_save (z : list (Q * Q)) (acc : list Q * list Q) :
  (forall p, In p z -> parse (show (fst p)) = Some (fst p) /\
                       parse (show (snd p)) = Some (snd p)) ->
  fold_left (read_row parse)
            (map (fun p : Q * Q => [show (fst p); show (snd p)]) z) acc =
  (fst acc ++ map fst z, snd acc ++ map snd z).
Proof.
  revert acc. induction z as [|p z IH]; intros acc H.
  - simpl. rewrite !app_nil_r. now destruct acc.
  - cbn [map fold_left]. rewrite IH by (intros q Hq; apply H; now right).
    unfold read_row. destruct (H p ltac:(now left)) as [-> ->].
    cbn [fst snd]. now rewrite <- !app_assoc.
Qed.

(** X21. Reading back a table written by [save_csv] returns the pairs that
    were written, each array cut to the length of the shorter one, provided
    the text of each written number converts back to that number.  For two
    arrays of one length the round trip is the identity. *)
Theorem read_csv_of_save_csv (f Pxx : list Q)
  (Hround : forall q, In q f \/ In q Pxx -> parse (show q) = Some q) :
  read_csv parse (save_csv show f Pxx) =
    (map fst (combine f Pxx), map snd (combine f Pxx)) /\
  (length f = length Pxx -> read_csv parse (save_csv show f Pxx) = (f, Pxx)).
Proof.
  assert (E : read_csv parse (save_csv show f Pxx) =
              (map fst (combine f Pxx), map snd (combine f Pxx))).
  { unfold read_csv, save_csv. cbn [tl].
    rewrite read_rows_of_save; [reflexivity|].
    intros [x v] Hp. cbn [fst snd]. split; apply Hround.
    - left. eapply in_combine_l; eauto.
    - right. eapply in_combine_r; eauto. }
  split; [exact E|]. intros Hlen. rewrite E. f_equal.
  - clear E Hround. revert Pxx Hlen.
    induction f as [|x f IH]; intros [|v Pxx] Hlen; try discriminate;
      [reflexivity|].
    cbn [combine map fst]. f_equal. apply IH. now injection Hlen.
  - clear E Hround. revert Pxx Hlen.
    induction f as [|x f IH]; intros [|v Pxx] Hlen; try discriminate;
      [reflexivity|].
    cbn [combine map snd]. f_equal. apply IH. now injection Hlen.
Qed.

End SpectrumTable.

Section SpectrumTableExample.

Import Strings.String.

Lemma read_csv_of_save_csv_witness :
  Csv.read_csv
    (fun s => if eqb s "1.0" then Some 1
              else if eqb s "0.0" then Some 0 else None)
    (Csv.save_csv (fun q => if Qeq_bool q 1 then "1.0"%string else "0.0"%string)
                  [0; 1] [1; 0]) = ([0; 1], [1; 0]).
Proof.
  refine (proj2 (read_csv_of_save_csv _ _ [0; 1] [1; 0] _) eq_refl).
  intros q [H | H]; simpl in H;
    destruct H as [<- | [<- | []]]; reflexivity.
Defined.

End SpectrumTableExample.

(* ================================================================== *)
(** * Reading summaries back *)

Section BandNames.

Import Strings.String Strings.Ascii CompareBands.
Local Open Scope string_scope.

Lemma chars_app (s1 s2 : string) :
  list_ascii_of_string (s1 ++ s2) =
  (list_ascii_of_string s1 ++ list_ascii_of_string s2)%list.
Proof. induction s1 as [|c s1 IH]; simpl; [reflexivity | now rewrite IH]. Qed.

Lemma prefix_first_char (c : ascii) (p s : string) :
  prefix (String c p) s = true -> exists s', s = String c s'.
Proof.
  destruct s as [|d s]; simpl; [discriminate|].
  destruct (ascii_dec c d) as [<-|]; [eauto | discriminate].
Qed.

Lemma contains_first_char (c : ascii) (p s : string) :
  contains (String c p) s = true -> In c (list_ascii_of_string s).
Proof.
  induction s as [|d s IH]; cbn [contains].
  - rewrite orb_false_r. intros H.
    apply prefix_first_char in H as (s' & H). discriminate.
  - intros H. apply orb_true_iff in H as [H | H].
    + apply prefix_first_char in H as (s' & [= <- _]). now left.
    + right. now apply IH.
Qed.

Lemma uint_chars (d : Decimal.uint) (c : ascii) :
  In c (list_ascii_of_string (DecimalString.NilEmpty.string_of_uint d)) ->
  In c (list_ascii_of_string "0123456789").
Proof.
  induction d; simpl; intros H; try contradiction;
    destruct H as [<- | H]; simpl; auto 12;
    specialize (IHd H); simpl in IHd; exact IHd.
Qed.

Lemma dec_chars (z : Z) (c : ascii) :
  In c (list_ascii_of_string (dec z)) ->
  In c (list_ascii_of_string "-0123456789").
Proof.
  unfold dec. destruct (Z.to_int z) as [d|d]; simpl.
  - destruct d; simpl; intros H;
      try (destruct H as [<- | H]; simpl; auto 12);
      try contradiction;
      right; apply (uint_chars _ _ H).
  - intros [<- | H]; [now left|]. right.
    destruct d; simpl in *;
      try (destruct H as [<- | H]; simpl; auto 12);
      try contradiction;
      apply (uint_chars _ _ H).
Qed.

Lemma overtones_text_chars (a b : Z) (c : ascii) :
  In c (list_ascii_of_string (band_text (Overtones a b))) ->
  In c (list_ascii_of_string "Overtones –-0123456789 kHz").
Proof.
  cbn [band_text]. rewrite !chars_app, !in_app_iff.
  intros [H | [H | [H | [H | H]]]].
  - simpl in H. simpl. tauto.
  - apply dec_chars in H. simpl in H. simpl. tauto.
  - simpl in H. simpl. tauto.
  - apply dec_chars in H. simpl in H. simpl. tauto.
  - simpl in H. simpl. tauto.
Qed.

Lemma overtones_text_class (a b : Z) :
  contains "Bass" (band_text (Overtones a b)) = false /\
  contains "Formant" (band_text (Overtones a b)) = false /\
  contains "Overtones" (band_text (Overtones a b)) = true.
Proof.
  split; [|split].
  - destruct (contains "Bass" _) eqn:E; [|reflexivity]. exfalso.
    apply contains_first_char, overtones_text_chars in E.
    simpl in E. repeat (destruct E as [E | E]; [discriminate E|]). exact E.
  - destruct (contains "Formant" _) eqn:E; [|reflexivity]. exfalso.
    apply contains_first_char, overtones_text_chars in E.
    simpl in E. repeat (destruct E as [E | E]; [discriminate E|]). exact E.
  - cbn [band_text]. reflexivity.
Qed.

End BandNames.

Section Summaries.

Import Strings.String CompareBands.
Local Open Scope string_scope.

Lemma load_step_fields (out : band_table) (r : json_row) :
  t_bass (load_step out r) =
    (if is_bass r then Some (row_pct r) else t_bass out) /\
  t_formant (load_step out r) =
    (if is_formant r then Some (row_pct r) else t_formant out) /\
  t_overtones (load_step out r) =
    (if is_overtones r then Some (row_pct r) else t_overtones out).
Proof.
  unfold load_step, is_bass, is_formant, is_overtones.
  fold (row_name r). fold (row_pct r).
  destruct (contains "Bass" (row_name r));
    destruct (contains "Formant" (row_name r));
    destruct (contains "Overtones" (row_name r)); repeat split.
Qed.

Lemma load_step_class (out : band_table) (r : json_row) :
  load_step out r =
  if contains "Bass" (row_name r)
  then mk_table (Some (row_pct r)) (t_formant out) (t_overtones out)
  else if contains "Formant" (row_name r)
  then mk_table (t_bass out) (Some (row_pct r)) (t_overtones out)
  else if contains "Overtones" (row_name r)
  then mk_table (t_bass out) (t_formant out) (Some (row_pct r))
  else out.
Proof. reflexivity. Qed.

(** X22. [load_bands] sorts every row into at most one of Bass, Formant and
    Overtones, by the first of these words its name contains, in that
    order of precedence, and keeps for each band the percentage of the
    last row sorted into it; a band no row is sorted into stays absent.  A
    row without a name is sorted nowhere and a row without a percentage
    counts as 0. *)
Theorem load_bands_last_match_wins (rows : list json_row) :
  t_bass (load_bands rows) =
    option_map row_pct (hd_error (filter is_bass (List.rev rows))) /\
  t_formant (load_bands rows) =
    option_map row_pct (hd_error (filter is_formant (List.rev rows))) /\
  t_overtones (load_bands rows) =
    option_map row_pct (hd_error (filter is_overtones (List.rev rows))).
Proof.
  unfold load_bands. rewrite <- fold_left_rev_right.
  induction (List.rev rows) as [|r l IH]; [repeat split|].
  cbn [fold_right filter].
  destruct (load_step_fields
              (fold_right (fun y x => load_step x y) (mk_table None None None) l) r)
    as (Hb & Hf & Ho).
  destruct IH as (IHb & IHf & IHo).
  rewrite Hb, Hf, Ho, IHb, IHf, IHo.
  destruct (is_bass r), (is_formant r), (is_overtones r); repeat split.
Qed.

(** X23. What the analyzer writes is what the comparison reads: for the three
    rows of any result of [summarize_bands], written with their band names
    and percentages, [load_bands] returns the percentage of the first row
    as Bass, of the second as Formant and of the third as Overtones,
    whatever edges the Overtones name shows. *)
Theorem load_bands_reads_summary
  (f Pxx : list Q) (air_lo air_hi : Q)
  (rows : list band_row) (total : Q) (defs : list (band_name * Q * Q))
  (Hs : summarize_bands f Pxx air_lo air_hi = Ok (rows, total, defs)) :
  exists r1 r2 r3,
    rows = [r1; r2; r3] /\
    load_bands (map json_of_row rows) =
      mk_table (Some (pct r1)) (Some (pct r2)) (Some (pct r3)).
Proof.
  apply summarize_bands_inv in Hs as (t & _ & _ & -> & HF).
  unfold band_defs in HF.
  inversion HF as [|b1 r1 l1 rs1 H1 HF1]; subst.
  inversion HF1 as [|b2 r2 l2 rs2 H2 HF2]; subst.
  inversion HF2 as [|b3 r3 l3 rs3 H3 HF3]; subst.
  inversion HF3; subst.
  exists r1, r2, r3. split; [reflexivity|].
  destruct H1 as (N1 & _). destruct H2 as (N2 & _). destruct H3 as (N3 & _).
  cbn [fst] in N1, N2, N3.
  assert (N3' : exists a b, band r3 = Overtones a b)
    by (rewrite N3; destruct (Np.geb air_lo 1000); eauto).
  destruct N3' as (a & b & N3').
  destruct (overtones_text_class a b) as (Ob & Of & Oo).
  assert (C1 : contains "Bass" (row_name (json_of_row r1)) = true)
    by (unfold row_name; cbn [json_of_row jband]; rewrite N1; reflexivity).
  assert (C2b : contains "Bass" (row_name (json_of_row r2)) = false)
    by (unfold row_name; cbn [json_of_row jband]; rewrite N2; reflexivity).
  assert (C2f : contains "Formant" (row_name (json_of_row r2)) = true)
    by (unfold row_name; cbn [json_of_row jband]; rewrite N2; reflexivity).
  assert (C3b : contains "Bass" (row_name (json_of_row r3)) = false)
    by (unfold row_name; cbn [json_of_row jband]; rewrite N3'; exact Ob).
  assert (C3f : contains "Formant" (row_name (json_of_row r3)) = false)
    by (unfold row_name; cbn [json_of_row jband]; rewrite N3'; exact Of).
  assert (C3o : contains "Overtones" (row_name (json_of_row r3)) = true)
    by (unfold row_name; cbn [json_of_row jband]; rewrite N3'; exact Oo).
  unfold load_bands. cbn [map fold_left].
  rewrite (load_step_class _ (json_of_row r1)) , C1.
  rewrite (load_step_class _ (json_of_row r2)), C2b, C2f.
  rewrite (load_step_class _ (json_of_row r3)), C3b, C3f, C3o.
  reflexivity.
Qed.

Lemma load_bands_reads_summary_witness :
  exists rows total defs r1 r2 r3,
    summarize_bands [0; 100; 200; 3000; 4000] [0; 1; 1; 2; 0] 2000 8000 =
      Ok (rows, total, defs) /\
    rows = [r1; r2; r3] /\
    load_bands (map json_of_row rows) =
      mk_table (Some (pct r1)) (Some (pct r2)) (Some (pct r3)).
Proof.
  destruct (load_bands_reads_summary
              [0; 100; 200; 3000; 4000] [0; 1; 1; 2; 0] 2000 8000 _ _ _ eq_refl)
    as (r1 & r2 & r3 & H1 & H2).
  eexists _, _, _, r1, r2, r3. split; [reflexivity|]. split; assumption.
Defined.

End Summaries.

Section MissingFiles.

Import CompareBands.

Lemma gather_fold (files : list (Strings.String.string * Strings.String.string
                                 * option (list json_row))) (g : gathered) :
  let g' := fold_left gather_step files g in
  labels g' = labels g ++ map (fun e => fst (fst e)) (filter present files) /\
  missing g' =
    missing g ++ map (fun e => snd (fst e))
                     (filter (fun e => negb (present e)) files) /\
  bass g' = bass g ++ map (fun e => or_zero (t_bass (load_bands (rows_of e))))
                          (filter present files) /\
  form g' = form g ++ map (fun e => or_zero (t_formant (load_bands (rows_of e))))
                          (filter present files) /\
  overt g' = overt g ++ map (fun e => or_zero (t_overtones (load_bands (rows_of e))))
                            (filter present files).
Proof.
  revert g. induction files as [|e files IH]; intros g.
  - cbn. rewrite !app_nil_r. repeat split.
  - cbn [fold_left]. specialize (IH (gather_step g e)). cbv zeta in IH.
    destruct IH as (H1 & H2 & H3 & H4 & H5). cbv zeta.
    rewrite H1, H2, H3, H4, H5. clear H1 H2 H3 H4 H5.
    destruct e as [[label fname] [rows|]];
      cbn [gather_step filter present rows_of snd fst negb map
           labels missing bass form overt];
      rewrite <- ?app_assoc; repeat split.
Qed.

(** X24. The comparison of summaries skips a missing file and exits only when
    files are expected and none exists.  Otherwise it has, in the order of
    the list, one label and one value per band for every file that
    exists, a band the file does not name counting as 0, and the names of
    the files that do not. *)
Theorem gather_skips_missing_files
  (files : list (Strings.String.string * Strings.String.string
                 * option (list json_row))) :
  (gather files = Raise SystemExit <->
     files <> [] /\ Forall (fun e => present e = false) files) /\
  (forall g, gather files = Ok g ->
     labels g = map (fun e => fst (fst e)) (filter present files) /\
     missing g = map (fun e => snd (fst e))
                     (filter (fun e => negb (present e)) files) /\
     bass g = map (fun e => or_zero (t_bass (load_bands (rows_of e))))
                  (filter present files) /\
     form g = map (fun e => or_zero (t_formant (load_bands (rows_of e))))
                  (filter present files) /\
     overt g = map (fun e => or_zero (t_overtones (load_bands (rows_of e))))
                   (filter present files)).
Proof.
  pose proof (gather_fold files (mk_gathered [] [] [] [] [])) as H.
  cbv zeta in H. cbn [labels missing bass form overt app] in H.
  destruct H as (H1 & H2 & H3 & H4 & H5).
  unfold gather.
  set (g := fold_left gather_step files (mk_gathered [] [] [] [] [])) in *.
  assert (Hlab : length (labels g) = 0%nat <->
                 Forall (fun e => present e = false) files).
  { rewrite H1, length_map. clear. induction files as [|e files IH].
    - simpl. split; [constructor | reflexivity].
    - cbn [filter]. destruct (present e) eqn:E.
      + simpl. split; [discriminate|]. intros H. inversion H. congruence.
      + rewrite IH. split; [now constructor | intros H; now inversion H]. }
  assert (Hmis : length (missing g) = 0%nat <->
                 Forall (fun e => present e = true) files).
  { rewrite H2, length_map. clear. induction files as [|e files IH].
    - simpl. split; [constructor | reflexivity].
    - cbn [filter]. destruct (present e) eqn:E; cbn [negb].
      + rewrite IH. split; [now constructor | intros H; now inversion H].
      + simpl. split; [discriminate|]. intros H. inversion H. congruence. }
  split.
  - destruct (Nat.eqb (length (missing g)) 0) eqn:Em;
      destruct (Nat.eqb (length (labels g)) 0) eqn:El; cbn [negb andb].
    + apply Nat.eqb_eq in Em, El. apply Hmis in Em. apply Hlab in El.
      split; [discriminate|]. intros [Hne Hall]. exfalso.
      destruct files as [|e files]; [now apply Hne|].
      inversion Em; inversion El; congruence.
    + apply Nat.eqb_neq in El. split; [discriminate|].
      intros [_ Hall]. exfalso. apply El, Hlab, Hall.
    + apply Nat.eqb_neq in Em. apply Nat.eqb_eq in El. apply Hlab in El.
      split; [intros _ | reflexivity]. split; [|exact El].
      intros ->. apply Em. reflexivity.
    + apply Nat.eqb_neq in El. split; [discriminate|].
      intros [_ Hall]. exfalso. apply El, Hlab, Hall.
  - intros g0 Hg.
    destruct (negb (Nat.eqb (length (missing g)) 0)
              && Nat.eqb (length (labels g)) 0); [discriminate|].
    injection Hg as <-. auto.
Qed.

End MissingFiles.

Section NothingToPlot.

Import CompareSpectra.

Variable parse : Strings.String.string -> option Q.

Lemma plot_fold_raise (files : list (Strings.String.string
                               * option (list (list Strings.String.string))))
      (x : exn) :
  fold_left (plot_step parse) files (Raise x) = Raise x.
Proof.
  induction files as [|e files IH]; [reflexivity | exact IH].
Qed.

Lemma plottable_nonempty
      (e : Strings.String.string * option (list (list Strings.String.string))) :
  plottable parse e = true <-> fst (Csv.read_csv parse (rows_of e)) <> [].
Proof.
  unfold plottable. rewrite Nat.ltb_lt.
  destruct (fst (Csv.read_csv parse (rows_of e))); simpl;
    split; try lia; try discriminate; congruence.
Qed.

Lemma read_csv_power_not_longer (rows : list (list Strings.String.string)) :
  (length (snd (Csv.read_csv parse rows))
   <= length (fst (Csv.read_csv parse rows)))%nat.
Proof.
  unfold Csv.read_csv.
  destruct (read_rows_lengths parse (tl rows) ([], [])) as [H1 H2].
  cbv zeta in H1, H2. cbn [fst snd length] in H1, H2.
  rewrite H1, H2. apply filter_length_le. intros row.
  unfold Csv.gives_power, Csv.gives_frequency.
  destruct row as [|c0 [|c1 row]]; try discriminate.
  destruct (parse c0); [reflexivity | discriminate].
Qed.

Lemma ragged_needs_frequency
      (e : Strings.String.string * option (list (list Strings.String.string))) :
  ragged parse e = true -> plottable parse e = true.
Proof.
  unfold ragged, plottable. intros H.
  apply negb_true_iff, Nat.eqb_neq in H. apply Nat.ltb_lt.
  pose proof (read_csv_power_not_longer (rows_of e)) as Hle.
  lia.
Qed.

Lemma plot_step_ok
      (acc : list (Strings.String.string * list Q * list Q))
      (e : Strings.String.string * option (list (list Strings.String.string))) :
  plot_step parse (Ok acc) e =
    if ragged parse e then Raise ValueError
    else if plottable parse e then Ok (acc ++ [curve parse e]) else Ok acc.
Proof.
  pose proof (ragged_needs_frequency e) as Hrag. revert Hrag.
  unfold plot_step, ragged, plottable, curve, rows_of, semilogx.
  cbn [Py.bind].
  destruct e as [label [rows|]]; cbn [fst snd].
  - destruct (Csv.read_csv parse rows) as [f P]. cbn [fst snd].
    destruct (Nat.ltb 0 (length f)), (Nat.eqb (length f) (length P));
      cbn [negb Py.bind]; intros Hrag; try reflexivity.
    specialize (Hrag eq_refl). discriminate.
  - intros _. reflexivity.
Qed.

Lemma plot_fold (files : list (Strings.String.string
                               * option (list (list Strings.String.string))))
      (acc : list (Strings.String.string * list Q * list Q)) :
  fold_left (plot_step parse) files (Ok acc) =
    if existsb (ragged parse) files then Raise ValueError
    else Ok (acc ++ map (curve parse) (filter (plottable parse) files)).
Proof.
  revert acc. induction files as [|e files IH]; intros acc.
  - cbn. rewrite app_nil_r. reflexivity.
  - cbn [fold_left existsb filter]. rewrite plot_step_ok.
    destruct (ragged parse e); cbn [orb].
    + apply plot_fold_raise.
    + destruct (plottable parse e); rewrite IH; [|reflexivity].
      cbn [map]. rewrite <- app_assoc. reflexivity.
Qed.

(** X25. The comparison of spectra exits exactly when no file has anything to
    plot: each one is missing or yields no frequency (a header only, or
    rows that do not convert).  It fails in the plotting call, with a
    [ValueError], exactly when some file has a row whose first cell
    converts and whose second does not, so that its two arrays differ in
    length.  Otherwise it plots, in the order of the list, the files that
    yield at least one frequency, and only those. *)
Theorem plot_all_exits_iff_nothing_to_plot
  (files : list (Strings.String.string
                 * option (list (list Strings.String.string)))) :
  (plot_all parse files = Raise SystemExit <->
     Forall (fun e => plottable parse e = false) files) /\
  (plot_all parse files = Raise ValueError <->
     Exists (fun e => ragged parse e = true) files) /\
  (forall x, plot_all parse files = Raise x ->
     x = SystemExit \/ x = ValueError) /\
  (forall plotted, plot_all parse files = Ok plotted ->
     plotted = map (curve parse) (filter (plottable parse) files) /\
     plotted <> [] /\
     Forall (fun p => snd (fst p) <> [] /\
                      length (snd (fst p)) = length (snd p)) plotted).
Proof.
  assert (Hnone : length (map (curve parse) (filter (plottable parse) files))
                  = 0%nat <->
                  Forall (fun e => plottable parse e = false) files).
  { rewrite length_map. clear. induction files as [|e files IH].
    - simpl. split; [constructor | reflexivity].
    - cbn [filter]. destruct (plottable parse e) eqn:E.
      + simpl. split; [discriminate|]. intros H. inversion H. congruence.
      + rewrite IH. split; [now constructor | intros H; now inversion H]. }
  assert (Hrag : existsb (ragged parse) files = true <->
                 Exists (fun e => ragged parse e = true) files).
  { rewrite existsb_exists, Exists_exists. reflexivity. }
  assert (Hquiet : existsb (ragged parse) files = false ->
                   Forall (fun e => ragged parse e = false) files).
  { intros H. apply Forall_forall. intros e He.
    destruct (ragged parse e) eqn:R; [|reflexivity].
    assert (existsb (ragged parse) files = true)
      by (apply existsb_exists; eauto).
    congruence. }
  unfold plot_all. rewrite plot_fold. cbn [app].
  destruct (existsb (ragged parse) files) eqn:R; cbn [Py.bind].
  - assert (HE : Exists (fun e => ragged parse e = true) files)
      by now apply Hrag.
    repeat split; try discriminate; auto.
    + intros HF. exfalso. apply Exists_exists in HE.
      destruct HE as (e & He & Hr). rewrite Forall_forall in HF.
      apply ragged_needs_frequency in Hr. rewrite (HF e He) in Hr.
      discriminate.
    + intros x Hx. injection Hx as <-. now right.
  - destruct (Nat.eqb (length (map (curve parse)
                                   (filter (plottable parse) files))) 0) eqn:E.
    + apply Nat.eqb_eq in E. repeat split; try discriminate; auto.
      * intros _. now apply Hnone.
      * intros H. apply Hrag in H. discriminate.
      * intros x Hx. injection Hx as <-. now left.
    + apply Nat.eqb_neq in E. repeat split; try discriminate.
      * intros H. exfalso. now apply E, Hnone.
      * intros H. apply Hrag in H. discriminate.
      * injection H as <-. reflexivity.
      * injection H as <-. intros H0. apply E. rewrite H0. reflexivity.
      * injection H as <-. apply Forall_forall. intros p Hp.
        apply in_map_iff in Hp. destruct Hp as (e & <- & He).
        apply filter_In in He. destruct He as [He Hpl].
        specialize (Hquiet eq_refl). rewrite Forall_forall in Hquiet.
        specialize (Hquiet e He). unfold curve. cbn [fst snd]. split.
        -- now apply plottable_nonempty.
        -- unfold ragged in Hquiet. apply negb_false_iff in Hquiet.
           now apply Nat.eqb_eq.
Qed.

End NothingToPlot.

Section Normalization.

Import Brighten.

(** X26. The final normalization of [brighten.py] never divides by
    zero: its divisor is the largest magnitude of the signal plus 1e-12,
    which is positive even for a signal of zeros.  Every sample is
    replaced by its quotient by that divisor, which lies strictly between
    -1 and 1 and keeps the sign of the sample; the number of samples is
    kept.  On an empty signal the maximum raises. *)
Theorem normalize_stays_inside_unit (y : list Q) :
  (y = [] -> normalize y = Raise ValueError) /\
  (y <> [] ->
   exists m out,
     Np.amax (map Qabs y) = Ok m /\
     In m (map Qabs y) /\
     (forall v, In v y -> Qabs v <= m) /\
     0 < m + epsilon /\
     normalize y = Ok out /\
     Forall2 (fun v w => w * (m + epsilon) == v /\
                         -1 < w /\ w < 1 /\
                         (0 < v -> 0 < w) /\ (v < 0 -> w < 0) /\
                         (v == 0 -> w == 0)) y out).
Proof.
  split; [intros ->; reflexivity|].
  intros Hne. unfold normalize.
  destruct (Np.amax (map Qabs y)) as [m|e] eqn:Em.
  2:{ destruct y; [contradiction | discriminate]. }
  cbn [Py.bind]. exists m. eexists.
  apply amax_spec in Em as [Hin Hmax].
  pose proof epsilon_pos as Heps.
  assert (Hm : forall v, In v y -> - m <= v /\ v <= m).
  { intros v Hv. apply Qabs_Qle_condition. apply Hmax. now apply in_map. }
  assert (Hm0 : 0 <= m).
  { destruct y as [|v y]; [contradiction|].
    destruct (Hm v ltac:(now left)). lra. }
  split; [reflexivity|]. split; [exact Hin|].
  split; [intros v Hv; apply Hmax; now apply in_map|].
  split; [lra|]. split; [reflexivity|].
  clear Hmax Hne Hin. induction y as [|v y IH]; [constructor|].
  cbn [map]. constructor.
  - destruct (Hm v ltac:(now left)) as [H1 H2].
    split; [field; lra|].
    split; [apply Qlt_shift_div_l; lra|].
    split; [apply Qlt_shift_div_r; lra|].
    split; [|split]; intros Hv.
    + apply Qlt_shift_div_l; lra.
    + apply Qlt_shift_div_r; lra.
    + rewrite Hv. field. lra.
  - apply IH. intros w Hw. apply Hm. now right.
Qed.

End Normalization.

Section EightBit.

Import Loader.

(** X11. For 8-bit PCM the two decoders do not agree.  The scipy tier divides
    the unsigned sample by 255, which gives values from 0 to 1; the [wave]
    tier subtracts 128 and divides by 128, which gives values from -1 to
    127/128.  On every sample of a mono file the scipy value exceeds the
    [wave] value by at least 1/128 and at most 1. *)
Theorem decoders_disagree_on_uint8
  (sr : Z) (raw : list Init.Byte.byte) (u : list Z)
  (Hu : frombuffer 1 raw = Ok u) :
  exists a b,
    scipy_tier sr (IntData UInt8 (A1 u)) = (a, sr) /\
    wave_tier 1 1 sr raw = Ok (b, sr) /\
    Forall2 (fun x y => 1 # 128 <= x - y /\ x - y <= 1) a b /\
    Forall (fun x => 0 <= x /\ x <= 1) a.
Proof.
  pose proof (frombuffer_range 1 raw u Hu) as Hrange.
  unfold wave_tier, decode_width. rewrite Hu.
  cbn [Py.bind Nat.ltb Nat.leb Py.try_except].
  eexists _, _. split; [reflexivity|]. split; [reflexivity|].
  cbn [amap to_mono]. change (inject_Z (iinfo_max UInt8)) with 255.
  clear Hu. induction Hrange as [|s u Hs _ IH]; [split; constructor|].
  destruct IH as [IH1 IH2].
  change (256 ^ Z.of_nat 1)%Z with 256%Z in Hs. destruct Hs as [S1 S2].
  assert (S2' : (s <= 255)%Z) by lia.
  rewrite Zle_Qle in S1, S2'.
  change (inject_Z 0) with 0 in S1. change (inject_Z 255) with 255 in S2'.
  cbn [map]. set (x := inject_Z s) in *.
  split; constructor; try assumption.
  - assert (E : x / 255 - (x - 128) / 128 == 1 - x * (127 # 32640)) by field.
    rewrite E. split; lra.
  - assert (E : x / 255 == x * (1 # 255)) by field.
    rewrite E. split; lra.
Qed.

Lemma decoders_disagree_on_uint8_witness :
  exists a b,
    scipy_tier 8000 (IntData UInt8 (A1 [0; 128; 255]%Z)) = (a, 8000%Z) /\
    wave_tier 1 1 8000 [Init.Byte.x00; Init.Byte.x80; Init.Byte.xff] =
      Ok (b, 8000%Z) /\
    Forall2 (fun x y => 1 # 128 <= x - y /\ x - y <= 1) a b /\
    Forall (fun x => 0 <= x /\ x <= 1) a.
Proof.
  exact (decoders_disagree_on_uint8 8000
           [Init.Byte.x00; Init.Byte.x80; Init.Byte.xff] [0; 128; 255]%Z
           eq_refl).
Defined.

End EightBit.

(** X15. Splitting a band at an inner edge never gains energy: the two halves
    together have at most the energy of the whole band, because the panel
    between the last sample below the edge and the first sample at or above
    it belongs to neither half. *)
Theorem band_energy_split_at_edge
  (f Pxx : list Q) (lo mid hi : Q)
  (Hlen : length f = length Pxx)
  (Hsorted : StronglySorted Qle f)
  (Hnonneg : Forall (Qle 0) Pxx)
  (Hlo : lo <= mid) (Hhi : mid <= hi) :
  exists e1 e2 e,
    band_energy f Pxx lo mid = Ok e1 /\
    band_energy f Pxx mid hi = Ok e2 /\
    band_energy f Pxx lo hi = Ok e /\
    e1 + e2 <= e.
Proof.
  eexists _, _, _.
  split; [apply band_energy_points; exact Hlen|].
  split; [apply band_energy_points; exact Hlen|].
  split; [apply band_energy_points; exact Hlen|].
  pose proof (ordered_nonneg_combine f Pxx Hsorted Hnonneg) as Hok.
  set (pts := combine f Pxx) in *.
  assert (Hin : forall l h, lo <= l -> h <= hi ->
            filter (in_band l h) (filter (in_band lo hi) pts) =
            filter (in_band l h) pts).
  { intros l h Hl Hh. apply filter_narrow. intros x Hx. unfold in_band in *.
    apply andb_true_iff in Hx as [H1 H2].
    apply geb_true in H1. apply ltb_true in H2.
    apply andb_true_iff. split; [apply geb_true | apply ltb_true]; lra. }
  rewrite <- (Hin lo mid) by lra. rewrite <- (Hin mid hi) by lra.
  apply two_bands; [now apply ordered_nonneg_filter | lra].
Qed.

Lemma band_energy_split_at_edge_witness :
  exists e1 e2 e,
    band_energy [0; 100; 200; 300; 400] [1; 1; 1; 1; 1] 100 300 = Ok e1 /\
    band_energy [0; 100; 200; 300; 400] [1; 1; 1; 1; 1] 300 500 = Ok e2 /\
    band_energy [0; 100; 200; 300; 400] [1; 1; 1; 1; 1] 100 500 = Ok e /\
    e1 + e2 <= e.
Proof.
  apply (band_energy_split_at_edge [0; 100; 200; 300; 400] [1; 1; 1; 1; 1]).
  - reflexivity.
  - repeat constructor; discriminate.
  - repeat constructor; discriminate.
  - discriminate.
  - discriminate.
Defined.
